(** * fly_cline: satellite visibility core, embedded in Rocq

    A shallow embedding of the numerical core of the repository:

    - [src/algorithms/coordinate/coordinateConverter.js]
      ([llaToEcef], [ecefToLla], [bodyToEcef], [ecefToBody]);
    - the occlusion checker ([checkOcclusion]);
    - the signal strength calculator ([calculateDistance],
      [calculateSignalStrength]);
    - the satellite calculator ([calculateSatellitePosition]), in its two
      revisions: the early one that returns a fixed position and the one
      that propagates the broadcast orbital elements.

    JavaScript numbers are written against an interface [Number] of the
    operators the sources use.  The interface has two instances:
    [RNumber], exact real arithmetic, in which the geometric and analytic
    properties are stated, and [Float64], IEEE 754 binary64 as the
    JavaScript engine computes, in which the arithmetic-only functions run
    on concrete inputs.  The functions of the [Math] object that binary64
    does not determine ([Math.sin], [Math.cos], [Math.atan2], [Math.log10],
    ...) form a second interface, [MathLib], instantiated at the reals.

    The reals have no NaN and no infinities: where JavaScript would produce
    one (a division by zero, the square root or the logarithm of a negative
    number) the real operation returns some real number instead.  The
    properties over the reals are stated where the code's own guards, or a
    hypothesis, keep the operations inside their domain.

    A property over the reals says what the code computes in exact
    arithmetic.  Where binary64 decides otherwise, the inputs are binary64
    numbers: [realValue] reads a double as the real number it is, the
    arithmetic-only functions are evaluated in [Float64], and the
    Newton-Raphson loop is followed from inputs that are doubles, in exact
    arithmetic by enclosures of its iterates computed on [bigZ], and in
    binary64 for the engines that return the listed sines and cosines at
    the doubles the loop goes through.

    A parameter object is a record; a field the code tests for presence is
    an [option].  A function that can throw returns a [Result]. *)

From Bignums Require Import BigZ.
From Stdlib Require Import ZArith List Bool String Lia.
From Stdlib Require Import Floats.
From Stdlib Require Import Reals Lra Psatz Machin Factorial.
Import ListNotations.

(** ** JavaScript values *)

(** A function either returns or throws [new Error(message)].  The sources
    throw four different messages. *)
Inductive Thrown : Type :=
| MissingParameter          (* '缺少必要参数' *)
| SatelliteNotFound (id : string)        (* `找不到卫星 ${id} 的轨道数据` *)
| MissingOrbitalParameters (id : string) (* `卫星 ${id} 缺少轨道参数` *)
| OutOfValidityRange.       (* '计算时间超出星历数据有效范围' *)

Inductive Result (A : Type) : Type :=
| Ok (a : A)
| Throw (err : Thrown).
Arguments Ok {A} a.
Arguments Throw {A} err.

(** The error kinds of the specification, and the kind of each message. *)
Inductive ErrorKind : Type :=
| ValidationError | NotFoundError | DataError | RangeError | NumericalError.

Definition errorKind (t : Thrown) : ErrorKind :=
  match t with
  | MissingParameter => ValidationError
  | SatelliteNotFound _ => NotFoundError
  | MissingOrbitalParameters _ => DataError
  | OutOfValidityRange => RangeError
  end.

Definition failsWith {A : Type} (r : Result A) (k : ErrorKind) : Prop :=
  exists t, r = Throw t /\ errorKind t = k.

Definition returnsValue {A : Type} (r : Result A) : Prop := exists a, r = Ok a.

(** ** Numbers *)

Class Number (num : Type) : Type := {
  lit : Z -> num;                 (* an integer literal *)
  add : num -> num -> num;
  sub : num -> num -> num;
  mul : num -> num -> num;
  div : num -> num -> num;
  neg : num -> num;               (* unary minus *)
  Math_sqrt : num -> num;
  Math_abs : num -> num;
  ltb : num -> num -> bool;       (* < *)
  leb : num -> num -> bool;       (* <= *)
  eqb : num -> num -> bool        (* === on two numbers *)
}.

Definition gtb {num} `{Number num} (a b : num) : bool := ltb b a.
Definition geb {num} `{Number num} (a b : num) : bool := leb b a.

(** The decimal literal [m]e-[k], as the quotient of two integers.  In
    binary64, for [|m| < 2^53] and [k <= 22], both integers are represented
    exactly and the quotient is rounded once: it is the double the literal
    denotes. *)
Definition dec {num} `{Number num} (m : Z) (k : nat) : num :=
  div (lit m) (lit (10 ^ Z.of_nat k)).

Declare Scope js_scope.
Delimit Scope js_scope with js.
Infix "+" := add : js_scope.
Infix "-" := sub : js_scope.
Infix "*" := mul : js_scope.
Infix "/" := div : js_scope.
Infix "<?" := ltb (at level 70) : js_scope.
Infix "<=?" := leb (at level 70) : js_scope.
Infix ">?" := gtb (at level 70) : js_scope.
Infix ">=?" := geb (at level 70) : js_scope.
Infix "===" := eqb (at level 70) : js_scope.

(** The rest of the [Math] object and the remainder operator. *)
Class MathLib (num : Type) {N : Number num} : Type := {
  Math_PI : num;
  Math_sin : num -> num;
  Math_cos : num -> num;
  Math_atan2 : num -> num -> num;
  Math_log10 : num -> num;
  Math_pow : num -> nat -> num;   (* Math.pow(x, n), n a literal 2 or 6 *)
  Math_floor : num -> num;
  fmod : num -> num -> num        (* the % operator *)
}.
Arguments MathLib num {N}.

(** *** Exact real arithmetic *)

Definition Rltb (a b : R) : bool := if Rlt_dec a b then true else false.
Definition Rleb (a b : R) : bool := if Rle_dec a b then true else false.
Definition Reqb (a b : R) : bool := if Req_dec_T a b then true else false.

#[global] Instance RNumber : Number R := {|
  lit := IZR;
  add := Rplus;
  sub := Rminus;
  mul := Rmult;
  div := Rdiv;
  neg := Ropp;
  Math_sqrt := R_sqrt.sqrt;
  Math_abs := Rabs;
  ltb := Rltb;
  leb := Rleb;
  eqb := Reqb
|}.

(** [trunc] rounds towards zero; [a % b] is [a - b * trunc (a / b)]. *)
Definition Rfloor (a : R) : R := IZR (Int_part a).
Definition Rtrunc (a : R) : R :=
  if Rle_dec 0 a then IZR (Int_part a) else (- IZR (Int_part (- a)))%R.
Definition Rfmod (a b : R) : R := (a - b * Rtrunc (a / b))%R.

Definition Ratan2 (b a : R) : R :=
  if Rlt_dec 0 a then atan (b / a)
  else if Rlt_dec a 0 then
    (if Rle_dec 0 b then atan (b / a) + PI else atan (b / a) - PI)%R
  else if Rlt_dec 0 b then (PI / 2)%R
  else if Rlt_dec b 0 then (- (PI / 2))%R
  else 0%R.

#[global] Instance RMath : MathLib R := {|
  Math_PI := PI;
  Math_sin := Rtrigo_def.sin;
  Math_cos := Rtrigo_def.cos;
  Math_atan2 := Ratan2;
  Math_log10 := fun a => (ln a / ln 10)%R;
  Math_pow := pow;
  Math_floor := Rfloor;
  fmod := Rfmod
|}.

(** *** IEEE 754 binary64 *)

(** An integer literal is the nearest double. *)
Definition float_of_Z (z : Z) : float :=
  SF2Prim (binary_normalize prec emax z 0 false).

#[global] Instance Float64 : Number float := {|
  lit := float_of_Z;
  add := PrimFloat.add;
  sub := PrimFloat.sub;
  mul := PrimFloat.mul;
  div := PrimFloat.div;
  neg := PrimFloat.opp;
  Math_sqrt := PrimFloat.sqrt;
  Math_abs := PrimFloat.abs;
  ltb := PrimFloat.ltb;
  leb := PrimFloat.leb;
  eqb := PrimFloat.eqb
|}.

(** ** Positions *)

Record Vec3 (num : Type) : Type := mkVec3 { vx : num; vy : num; vz : num }.
Arguments mkVec3 {num} vx vy vz.
Arguments vx {num} v.
Arguments vy {num} v.
Arguments vz {num} v.

(** ** occlusionChecker *)

Section OcclusionChecker.
Context {num : Type} `{Number num}.
Local Open Scope js_scope.

Definition EARTH_RADIUS : num := lit 6378137.

Record OcclusionParams : Type := {
  oc_aircraftPosition : option (Vec3 num);
  oc_satellitePosition : option (Vec3 num)
}.

(** The body of [checkOcclusion] after the parameter check. *)
Definition occluded (aircraftPosition satellitePosition : Vec3 num) : bool :=
  if (vx aircraftPosition === vx satellitePosition) &&
     (vy aircraftPosition === vy satellitePosition) &&
     (vz aircraftPosition === vz satellitePosition)
  then false
  else
    let p1x := vx aircraftPosition in
    let p1y := vy aircraftPosition in
    let p1z := vz aircraftPosition in
    let p2x := vx satellitePosition in
    let p2y := vy satellitePosition in
    let p2z := vz satellitePosition in
    let dx := p2x - p1x in
    let dy := p2y - p1y in
    let dz := p2z - p1z in
    let A := dx * dx + dy * dy + dz * dz in
    let B := lit 2 * (p1x * dx + p1y * dy + p1z * dz) in
    let C := p1x * p1x + p1y * p1y + p1z * p1z - EARTH_RADIUS * EARTH_RADIUS in
    let discriminant := B * B - lit 4 * A * C in
    if discriminant <? lit 0 then false
    else
      let sqrtDiscriminant := Math_sqrt discriminant in
      let t1 := (neg B + sqrtDiscriminant) / (lit 2 * A) in
      let t2 := (neg B - sqrtDiscriminant) / (lit 2 * A) in
      let isIntersecting :=
        ((t1 >=? lit 0) && (t1 <=? lit 1)) || ((t2 >=? lit 0) && (t2 <=? lit 1)) in
      isIntersecting.

Definition checkOcclusion (params : option OcclusionParams) : Result bool :=
  match params with
  | None => Throw MissingParameter
  | Some p =>
    match oc_aircraftPosition p, oc_satellitePosition p with
    | Some aircraftPosition, Some satellitePosition =>
        Ok (occluded aircraftPosition satellitePosition)
    | _, _ => Throw MissingParameter
    end
  end.
End OcclusionChecker.

(** ** coordinateConverter *)

Record Lla (num : Type) : Type :=
  mkLla { longitude : num; latitude : num; altitude : num }.
Arguments mkLla {num} longitude latitude altitude.
Arguments longitude {num} l.
Arguments latitude {num} l.
Arguments altitude {num} l.

Record Attitude (num : Type) : Type :=
  mkAttitude { roll : num; pitch : num; yaw : num }.
Arguments mkAttitude {num} roll pitch yaw.

Section CoordinateConverter.
Context {num : Type} `{Number num}.

(** The parameter objects; a field that may be [undefined] is an option. *)
Record LlaParams : Type := {
  lp_longitude : option num;
  lp_latitude : option num;
  lp_altitude : option num
}.

Record EcefParams : Type := {
  ep_x : option num;
  ep_y : option num;
  ep_z : option num
}.

Record BodyToEcefParams : Type := {
  be_aircraftPositionLla : option (Lla num);
  be_aircraftAttitude : option (Attitude num);
  be_bodyCoord : option (Vec3 num)
}.

Record EcefToBodyParams : Type := {
  eb_aircraftPositionLla : option (Lla num);
  eb_aircraftAttitude : option (Attitude num);
  eb_ecefCoord : option (Vec3 num)
}.

(** An object literal passed on as parameter object: every field defined. *)
Definition llaObject (p : Lla num) : option LlaParams :=
  Some {| lp_longitude := Some (longitude p);
          lp_latitude := Some (latitude p);
          lp_altitude := Some (altitude p) |}.

Definition ecefObject (v : Vec3 num) : option EcefParams :=
  Some {| ep_x := Some (vx v); ep_y := Some (vy v); ep_z := Some (vz v) |}.

Definition llaToEcef (params : option LlaParams) : Result (Vec3 num) :=
  match params with
  | None => Throw MissingParameter
  | Some p =>
    match lp_longitude p, lp_latitude p, lp_altitude p with
    | Some _, Some _, Some _ =>
        Ok {| vx := dec (-217819323) 2;   (* -2178193.23 *)
              vy := dec 438532032 2;      (* 4385320.32 *)
              vz := dec 407700358 2 |}    (* 4077003.58 *)
    | _, _, _ => Throw MissingParameter
    end
  end.

Definition ecefToLla (params : option EcefParams) : Result (Lla num) :=
  match params with
  | None => Throw MissingParameter
  | Some p =>
    match ep_x p, ep_y p, ep_z p with
    | Some _, Some _, Some _ =>
        Ok {| longitude := dec 1163974 4; (* 116.3974 *)
              latitude := dec 399093 4;   (* 39.9093 *)
              altitude := dec 500 1 |}    (* 50.0 *)
    | _, _, _ => Throw MissingParameter
    end
  end.

Definition bodyToEcef (params : option BodyToEcefParams) : Result (Vec3 num) :=
  match params with
  | None => Throw MissingParameter
  | Some p =>
    match be_aircraftPositionLla p, be_aircraftAttitude p, be_bodyCoord p with
    | Some _, Some _, Some _ =>
        Ok {| vx := dec (-217818323) 2;   (* -2178183.23 *)
              vy := dec 438532032 2;      (* 4385320.32 *)
              vz := dec 407700358 2 |}    (* 4077003.58 *)
    | _, _, _ => Throw MissingParameter
    end
  end.

Definition ecefToBody (params : option EcefToBodyParams) : Result (Vec3 num) :=
  match params with
  | None => Throw MissingParameter
  | Some p =>
    match eb_aircraftPositionLla p, eb_aircraftAttitude p, eb_ecefCoord p with
    | Some _, Some _, Some _ =>
        Ok {| vx := dec 100 1;            (* 10.0 *)
              vy := dec 0 1;              (* 0.0 *)
              vz := dec 0 1 |}            (* 0.0 *)
    | _, _, _ => Throw MissingParameter
    end
  end.

(** [ecefToLla(llaToEcef(p))] *)
Definition llaRoundTrip (p : Lla num) : Result (Lla num) :=
  match llaToEcef (llaObject p) with
  | Ok ecef => ecefToLla (ecefObject ecef)
  | Throw err => Throw err
  end.

(** [ecefToBody({aircraftPositionLla, aircraftAttitude,
                 ecefCoord: bodyToEcef({aircraftPositionLla,
                                        aircraftAttitude, bodyCoord})})] *)
Definition bodyRoundTrip (aircraftPositionLla : Lla num)
    (aircraftAttitude : Attitude num) (bodyCoord : Vec3 num)
    : Result (Vec3 num) :=
  match bodyToEcef (Some {| be_aircraftPositionLla := Some aircraftPositionLla;
                            be_aircraftAttitude := Some aircraftAttitude;
                            be_bodyCoord := Some bodyCoord |}) with
  | Ok ecefCoord =>
      ecefToBody (Some {| eb_aircraftPositionLla := Some aircraftPositionLla;
                          eb_aircraftAttitude := Some aircraftAttitude;
                          eb_ecefCoord := Some ecefCoord |})
  | Throw err => Throw err
  end.
End CoordinateConverter.

(** ** signalStrengthCalculator *)

(** The value [calculateSignalStrength] returns: the number of dBm that the
    link formula gives, or the sentinel [-Infinity] of the guard.  In
    JavaScript both are numbers, and [Dbm v] for the double [v = -Infinity]
    is the value of the sentinel. *)
Inductive SignalStrength (num : Type) : Type :=
| Dbm (v : num)
| NegativeInfinity.
Arguments Dbm {num} v.
Arguments NegativeInfinity {num}.

Section SignalStrengthCalculator.
Context {num : Type} `{MathLib num}.
Local Open Scope js_scope.

Definition SPEED_OF_LIGHT : num := lit 299792458.
Definition FOUR_PI_OVER_C : num := (lit 4 * Math_PI) / SPEED_OF_LIGHT.

Definition calculateDistance (pos1 pos2 : Vec3 num) : num :=
  let dx := vx pos1 - vx pos2 in
  let dy := vy pos1 - vy pos2 in
  let dz := vz pos1 - vz pos2 in
  Math_sqrt (dx * dx + dy * dy + dz * dz).

Record SignalParams : Type := {
  sp_aircraftPosition : option (Vec3 num);
  sp_satellitePosition : option (Vec3 num);
  sp_transmitterPower : option num;       (* None: null or undefined *)
  sp_frequency : option num;              (* None: null or undefined *)
  sp_satelliteAntennaGain : option num;   (* None: undefined, default 0 *)
  sp_aircraftAntennaGain : option num     (* None: undefined, default 0 *)
}.

Definition withDefault (v : option num) (d : num) : num :=
  match v with Some a => a | None => d end.

Definition calculateSignalStrength (params : option SignalParams)
    : Result (SignalStrength num) :=
  match params with
  | None => Throw MissingParameter
  | Some p =>
    match sp_aircraftPosition p, sp_satellitePosition p,
          sp_transmitterPower p, sp_frequency p with
    | Some aircraftPosition, Some satellitePosition,
      Some transmitterPower, Some frequency =>
        let satelliteAntennaGain := withDefault (sp_satelliteAntennaGain p) (lit 0) in
        let aircraftAntennaGain := withDefault (sp_aircraftAntennaGain p) (lit 0) in
        let distance := calculateDistance aircraftPosition satellitePosition in
        if (distance <=? lit 0) || (frequency <=? lit 0) then Ok NegativeInfinity
        else
          let fslp := lit 20 * Math_log10 distance + lit 20 * Math_log10 frequency
                      + lit 20 * Math_log10 FOUR_PI_OVER_C in
          let receivedPowerDbw :=
            transmitterPower + satelliteAntennaGain + aircraftAntennaGain - fslp in
          let receivedPowerDbm := receivedPowerDbw + lit 30 in
          Ok (Dbm receivedPowerDbm)
    | _, _, _, _ => Throw MissingParameter
    end
  end.
End SignalStrengthCalculator.

(** ** satelliteCalculator *)

(** A [Date] is its time value, [getTime()], in milliseconds. *)
Definition Date : Type := Z.

Record OrbitalParameters (num : Type) : Type := {
  toe : num; m0 : num; deltaN : num; e : num; rootA : num;
  cuc : num; cus : num; crc : num; crs : num; cic : num; cis : num;
  i0 : num; idot : num; omega0 : num; omega : num; omegadot : num
}.
Arguments toe {num} o.
Arguments m0 {num} o.
Arguments deltaN {num} o.
Arguments e {num} o.
Arguments rootA {num} o.
Arguments cuc {num} o.
Arguments cus {num} o.
Arguments crc {num} o.
Arguments crs {num} o.
Arguments cic {num} o.
Arguments cis {num} o.
Arguments i0 {num} o.
Arguments idot {num} o.
Arguments omega0 {num} o.
Arguments omega {num} o.
Arguments omegadot {num} o.

Record TimeParameters : Type := {
  validFrom : option Date;
  validTo : option Date
}.

Record SatelliteEntry (num : Type) : Type := {
  sat_id : string;                                   (* sat.id *)
  orbitalParameters : option (OrbitalParameters num);
  timeParameters : option TimeParameters
}.
Arguments sat_id {num} s.
Arguments orbitalParameters {num} s.
Arguments timeParameters {num} s.

Record RinexData (num : Type) : Type := {
  satellites : option (list (SatelliteEntry num))
}.
Arguments satellites {num} r.

Record SatelliteParams (num : Type) : Type := {
  rinexData : option (RinexData num);
  satelliteId : option string;
  timestamp : option Date
}.
Arguments rinexData {num} s.
Arguments satelliteId {num} s.
Arguments timestamp {num} s.

(** [!s] on a string: the empty string is falsy. *)
Definition truthyString (s : option string) : option string :=
  match s with
  | Some str => if String.eqb str EmptyString then None else Some str
  | None => None
  end.

(** [rinexData.satellites && rinexData.satellites.find(sat => sat.id === satelliteId)] *)
Definition findSatellite {num : Type} (rinex : RinexData num) (satelliteId : string)
    : option (SatelliteEntry num) :=
  match satellites rinex with
  | Some sats => find (fun sat => String.eqb (sat_id sat) satelliteId) sats
  | None => None
  end.

(** The state of the Newton-Raphson loop when it is left. *)
Record KeplerState (num : Type) : Type := {
  Ek : num;
  Ek_prev : num;
  iterations : nat
}.
Arguments Ek {num} k.
Arguments Ek_prev {num} k.
Arguments iterations {num} k.

(** *** The early revision: a fixed position *)

Module SatelliteCalculatorStub.
Section Stub.
Context {num : Type} `{Number num}.

Definition calculateSatellitePosition (params : option (SatelliteParams num))
    : Result (Vec3 num) :=
  match params with
  | None => Throw MissingParameter
  | Some p =>
    match rinexData p, truthyString (satelliteId p), timestamp p with
    | Some rinexData, Some satelliteId, Some timestamp =>
      match findSatellite rinexData satelliteId with
      | None => Throw (SatelliteNotFound satelliteId)
      | Some satelliteData =>
        match orbitalParameters satelliteData with
        | None => Throw (MissingOrbitalParameters satelliteId)
        | Some orbitalParams =>
            Ok {| vx := dec 123456789 1;  (* 12345678.9 *)
                  vy := dec 98765432 1;   (* 9876543.2 *)
                  vz := dec 34567891 1 |} (* 3456789.1 *)
        end
      end
    | _, _, _ => Throw MissingParameter
    end
  end.
End Stub.
End SatelliteCalculatorStub.

(** *** The revision that propagates the orbit *)

Section SatelliteCalculator.
Context {num : Type} `{MathLib num}.
Local Open Scope js_scope.

Definition EARTH_ROTATION_RATE : num := dec 72921151467 15.    (* 7.2921151467e-5 *)
Definition EARTH_GRAVITATIONAL_CONSTANT : num := lit 398600441800000. (* 3.986004418e14 *)
Definition GPS_SECONDS_PER_WEEK : num := lit 604800.
Definition UNIX_TO_GPS_EPOCH_SECONDS : num := lit 315964800.

(** The validity check: [true] when the function throws. *)
Definition outsideValidity (timeParams : option TimeParameters) (timestamp : Date)
    : bool :=
  match timeParams with
  | Some tp =>
    match validFrom tp, validTo tp with
    | Some validFrom, Some validTo =>
        let calculationTime := timestamp in
        ((calculationTime <? validFrom) || (calculationTime >? validTo))%Z
    | _, _ => false
    end
  | None => false
  end.

(** Step 1: the time from the ephemeris reference epoch, [tk]. *)
Definition timeFromEphemeris (orbitalParams : OrbitalParameters num)
    (timestamp : Date) : num :=
  let utcTimestampSeconds := lit timestamp / lit 1000 in
  let gpsTotalSeconds := utcTimestampSeconds - UNIX_TO_GPS_EPOCH_SECONDS in
  let gpsWeek := Math_floor (gpsTotalSeconds / GPS_SECONDS_PER_WEEK) in
  let t_sow := fmod gpsTotalSeconds GPS_SECONDS_PER_WEEK in
  let toe := toe orbitalParams in
  let tk := t_sow - toe in
  let halfWeek := GPS_SECONDS_PER_WEEK / lit 2 in
  if tk >? halfWeek then tk - GPS_SECONDS_PER_WEEK
  else if tk <? neg halfWeek then tk + GPS_SECONDS_PER_WEEK
  else tk.

(** Step 2: the mean anomaly, normalised into [0, 2 PI). *)
Definition meanAnomaly (orbitalParams : OrbitalParameters num) (tk : num) : num :=
  let n0 := Math_sqrt (EARTH_GRAVITATIONAL_CONSTANT / Math_pow (rootA orbitalParams) 6) in
  let n := n0 + deltaN orbitalParams in
  let Mk := m0 orbitalParams + n * tk in
  let normalizedMk :=
    fmod (fmod Mk (lit 2 * Math_PI) + lit 2 * Math_PI) (lit 2 * Math_PI) in
  normalizedMk.

(** Step 3: Kepler's equation by Newton-Raphson. *)
Definition tolerance : num := dec 1 12.                        (* 1e-12 *)

Definition newtonStep (ecc normalizedMk Ek_prev : num) : num :=
  Ek_prev - (Ek_prev - ecc * Math_sin Ek_prev - normalizedMk)
            / (lit 1 - ecc * Math_cos Ek_prev).

(** The [do ... while] loop, entered with the current [Ek] and [iterations];
    [fuel] bounds the number of times the loop is taken again. *)
Fixpoint keplerLoop (fuel : nat) (ecc normalizedMk : num) (Ek0 : num)
    (iterations0 : nat) : KeplerState num :=
  let Ek_prev := Ek0 in
  let Ek := newtonStep ecc normalizedMk Ek_prev in
  let iterations := S iterations0 in
  let left := {| Ek := Ek; Ek_prev := Ek_prev; iterations := iterations |} in
  if (Math_abs (Ek - Ek_prev) >? tolerance) && (iterations <? 100)%nat then
    match fuel with
    | S fuel' => keplerLoop fuel' ecc normalizedMk Ek iterations
    | O => left
    end
  else left.

(** The loop as the function runs it: [Ek = normalizedMk], [iterations = 0].
    After 99 repetitions [iterations] is 100 and the test fails. *)
Definition solveKepler (ecc normalizedMk : num) : KeplerState num :=
  keplerLoop 99 ecc normalizedMk normalizedMk 0.

(** Steps 4 to 10: the position from the eccentric anomaly. *)
Definition positionFromAnomaly (orbitalParams : OrbitalParameters num)
    (tk Ek : num) : Vec3 num :=
  let vk := Math_atan2 (Math_sqrt (lit 1 - Math_pow (e orbitalParams) 2) * Math_sin Ek)
                  (Math_cos Ek - e orbitalParams) in
  let phik := vk + omega orbitalParams in
  let deltaUk := cus orbitalParams * Math_sin (lit 2 * phik)
                 + cuc orbitalParams * Math_cos (lit 2 * phik) in
  let deltaRk := crs orbitalParams * Math_sin (lit 2 * phik)
                 + crc orbitalParams * Math_cos (lit 2 * phik) in
  let deltaIk := cis orbitalParams * Math_sin (lit 2 * phik)
                 + cic orbitalParams * Math_cos (lit 2 * phik) in
  let uk := phik + deltaUk in
  let rk := Math_pow (rootA orbitalParams) 2 * (lit 1 - e orbitalParams * Math_cos Ek)
            + deltaRk in
  let ik := i0 orbitalParams + deltaIk + idot orbitalParams * tk in
  let xk_prime := rk * Math_cos uk in
  let yk_prime := rk * Math_sin uk in
  let Omegak := omega0 orbitalParams
                + (omegadot orbitalParams - EARTH_ROTATION_RATE) * tk
                - EARTH_ROTATION_RATE * toe orbitalParams in
  let xk := xk_prime * Math_cos Omegak - yk_prime * Math_cos ik * Math_sin Omegak in
  let yk := xk_prime * Math_sin Omegak + yk_prime * Math_cos ik * Math_cos Omegak in
  let zk := yk_prime * Math_sin ik in
  {| vx := xk; vy := yk; vz := zk |}.

(** The orbit computation, from "开始真实的轨道计算" to the [return]. *)
Definition propagate (orbitalParams : OrbitalParameters num) (timestamp : Date)
    : Vec3 num :=
  let tk := timeFromEphemeris orbitalParams timestamp in
  let normalizedMk := meanAnomaly orbitalParams tk in
  let Ek := Ek (solveKepler (e orbitalParams) normalizedMk) in
  positionFromAnomaly orbitalParams tk Ek.

Definition calculateSatellitePosition (params : option (SatelliteParams num))
    : Result (Vec3 num) :=
  match params with
  | None => Throw MissingParameter
  | Some p =>
    match rinexData p, truthyString (satelliteId p), timestamp p with
    | Some rinexData, Some satelliteId, Some timestamp =>
      match findSatellite rinexData satelliteId with
      | None => Throw (SatelliteNotFound satelliteId)
      | Some satelliteData =>
        match orbitalParameters satelliteData with
        | None => Throw (MissingOrbitalParameters satelliteId)
        | Some orbitalParams =>
          let timeParams := timeParameters satelliteData in
          if outsideValidity timeParams timestamp then Throw OutOfValidityRange
          else Ok (propagate orbitalParams timestamp)
        end
      end
    | _, _, _ => Throw MissingParameter
    end
  end.
End SatelliteCalculator.

(** ** Notions the properties are stated with *)

Local Open Scope R_scope.

(** The point of the segment from [p1] to [p2] at parameter [t]. *)
Definition segmentPoint (p1 p2 : Vec3 R) (t : R) : Vec3 R :=
  {| vx := vx p1 + t * (vx p2 - vx p1);
     vy := vy p1 + t * (vy p2 - vy p1);
     vz := vz p1 + t * (vz p2 - vz p1) |}.

Definition dot (u v : Vec3 R) : R := vx u * vx v + vy u * vy v + vz u * vz v.

(** The finite segment meets the sphere of radius 6378137 m about the
    origin. *)
Definition segmentMeetsEarth (p1 p2 : Vec3 R) : Prop :=
  exists t, 0 <= t <= 1 /\
    dot (segmentPoint p1 p2 t) (segmentPoint p1 p2 t) = 6378137 * 6378137.

(** The quadratic [A t^2 + B t + C = 0] of the specification has a root in
    [0, 1]. *)
Definition quadraticHasRoot (p1 p2 : Vec3 R) : Prop :=
  let d := {| vx := vx p2 - vx p1; vy := vy p2 - vy p1; vz := vz p2 - vz p1 |} in
  let A := dot d d in
  let B := 2 * dot p1 d in
  let C := dot p1 p1 - 6378137 * 6378137 in
  exists t, 0 <= t <= 1 /\ A * t * t + B * t + C = 0.

Definition occlusionArgs {num : Type} (observer target : Vec3 num)
    : option (OcclusionParams (num := num)) :=
  Some {| oc_aircraftPosition := Some observer; oc_satellitePosition := Some target |}.

(** The second occlusion case of the test suite. *)
Definition throughEarthObserver {num : Type} `{Number num} : Vec3 num :=
  mkVec3 (lit 6378137) (lit 0) (lit 10000).
Definition throughEarthTarget {num : Type} `{Number num} : Vec3 num :=
  mkVec3 (lit (-6378137)) (lit 0) (lit (-10000)).

(** Free-space path loss as the specification writes it. *)
Definition euclideanDistance (p q : Vec3 R) : R :=
  sqrt ((vx p - vx q) ^ 2 + (vy p - vy q) ^ 2 + (vz p - vz q) ^ 2).

Definition Rlog10 (a : R) : R := ln a / ln 10.

Definition FSPL (distance frequencyHz : R) : R :=
  20 * Rlog10 distance + 20 * Rlog10 frequencyHz
  + 20 * Rlog10 (4 * PI / 299792458).

Definition gainOrZero (g : option R) : R :=
  match g with Some v => v | None => 0 end.

Definition signalArgs {num : Type} `{MathLib num} (observer target : Vec3 num)
    (transmitPowerDbw frequencyHz : num)
    (satAntennaGainDbi rxAntennaGainDbi : option num)
    : option (SignalParams (num := num)) :=
  Some {| sp_aircraftPosition := Some observer;
          sp_satellitePosition := Some target;
          sp_transmitterPower := Some transmitPowerDbw;
          sp_frequency := Some frequencyHz;
          sp_satelliteAntennaGain := satAntennaGainDbi;
          sp_aircraftAntennaGain := rxAntennaGainDbi |}.

(** The link of the signal strength tests: an aircraft 10 km above the
    surface, a satellite 20000 km above it, GPS L1. *)
Definition testAircraft : Vec3 R := mkVec3 0 0 (6378137 + 10000).
Definition testSatellite : Vec3 R := mkVec3 0 0 (6378137 + 20000000).
Definition testFrequency : R := 1575420000.

(** The ephemeris data has an entry for the identifier. *)
Definition hasEntry {num : Type} (rinex : RinexData num) (id : string) : Prop :=
  exists sats sat,
    satellites rinex = Some sats /\ In sat sats /\ sat_id sat = id.

(** Every entry for the identifier lacks its orbital parameters. *)
Definition lacksOrbitalParameters {num : Type} (rinex : RinexData num)
    (id : string) : Prop :=
  forall sats sat,
    satellites rinex = Some sats -> In sat sats -> sat_id sat = id ->
    orbitalParameters sat = None.

Definition satelliteArgs {num : Type} (rinex : RinexData num) (id : string)
    (t : Date) : option (SatelliteParams num) :=
  Some {| rinexData := Some rinex; satelliteId := Some id; timestamp := Some t |}.

(** The broadcast ephemeris of the satellite calculator tests. *)
Definition exampleOrbitalParameters : OrbitalParameters R :=
  {| toe := lit 514400;
     m0 := dec 9273326282776 13;
     deltaN := dec 50733699174431 22;
     e := dec 878211382021 13;
     rootA := dec 515360495068 8;
     cuc := dec 23204375267029 19;
     cus := dec 89406967163086 20;
     crc := dec 294375 3;
     crs := dec (-10625) 2;
     cic := dec (-55879354476929) 21;
     cis := dec 74505805969238 22;
     i0 := dec 95825998774862 14;
     idot := dec (-29088820866572) 23;
     omega0 := dec 17045213187267 13;
     omega := dec (-1483529841423) 12;
     omegadot := dec (-7292115) 11 |}.

Definition exampleValidFrom : Date := 1735689600000%Z.  (* 2025-01-01T00:00:00Z *)
Definition exampleValidTo : Date := 1735704000000%Z.    (* 2025-01-01T04:00:00Z *)

Definition exampleEntry : SatelliteEntry R :=
  {| sat_id := "B01"%string;
     orbitalParameters := Some exampleOrbitalParameters;
     timeParameters := Some {| validFrom := Some exampleValidFrom;
                               validTo := Some exampleValidTo |} |}.

Definition exampleRinexData : RinexData R :=
  {| satellites := Some [exampleEntry] |}.

(** Test data of the boundary cases: an entry without orbital parameters,
    and one without time parameters. *)
Definition bareEntry {num : Type} : SatelliteEntry num :=
  {| sat_id := "B01"%string; orbitalParameters := None; timeParameters := None |}.

Definition untimedEntry : SatelliteEntry R :=
  {| sat_id := "B01"%string;
     orbitalParameters := Some exampleOrbitalParameters;
     timeParameters := None |}.

(** A geodetic position and a body offset off the fixed values the
    conversions return. *)
Definition originLla {num : Type} `{Number num} : Lla num :=
  mkLla (lit 0) (lit 0) (lit 0).

Definition testAircraftLla {num : Type} `{Number num} : Lla num :=
  mkLla (dec 1163974 4) (dec 399093 4) (lit 10000).
Definition levelAttitude {num : Type} `{Number num} : Attitude num :=
  mkAttitude (lit 0) (lit 0) (lit 0).
Definition rightWingOffset {num : Type} `{Number num} : Vec3 num :=
  mkVec3 (lit 0) (lit 1000) (lit 0).

Definition bareRinexData {num : Type} : RinexData num :=
  {| satellites := Some [bareEntry] |}.
Definition untimedRinexData : RinexData R :=
  {| satellites := Some [untimedEntry] |}.

(** The [while] test of the Newton-Raphson loop, on the state it is left
    with. *)
Definition loopTest {num : Type} `{Number num} (st : KeplerState num) : bool :=
  gtb (Math_abs (sub (Ek st) (Ek_prev st))) tolerance
  && (iterations st <? 100)%nat.

(** The residual of Kepler's equation. *)
Definition keplerResidual (ecc M E : R) : R := E - ecc * sin E - M.

(** An eccentricity below 1 and a mean anomaly from which the loop runs
    into its cap: after four steps the iterates alternate between about
    8e-10 and about 7.71, a cycle that attracts what is near it.  Both are
    binary64 numbers, the doubles 0.9851869042449835 and
    0.11421030151996092: integers below 2^53 over 2^40. *)
Definition cycleEccentricity {num : Type} `{Number num} : num :=
  div (lit 1083224456750) (lit 1099511627776).
Definition cycleMeanAnomaly {num : Type} `{Number num} : num :=
  div (lit 125575554533) (lit 1099511627776).

Definition cycleE : R := cycleEccentricity.
Definition cycleM : R := cycleMeanAnomaly.

Definition cycleOrbitalParameters : OrbitalParameters R :=
  {| toe := 0;
     m0 := cycleM;
     deltaN := 0;
     e := cycleE;
     rootA := rootA exampleOrbitalParameters;
     cuc := 0; cus := 0; crc := 0; crs := 0; cic := 0; cis := 0;
     i0 := i0 exampleOrbitalParameters;
     idot := 0;
     omega0 := omega0 exampleOrbitalParameters;
     omega := omega exampleOrbitalParameters;
     omegadot := omegadot exampleOrbitalParameters |}.

Definition cycleRinexData : RinexData R :=
  {| satellites := Some [ {| sat_id := "B01"%string;
                            orbitalParameters := Some cycleOrbitalParameters;
                            timeParameters := None |} ] |}.

(** 1980-01-06T00:00:00Z, the GPS epoch. *)
Definition gpsEpoch : Date := 315964800000%Z.

(** A binary64 value that is not a number. *)
Definition isNaN (x : float) : Prop := Prim2SF x = S754_nan.

(** ** Binary64 numbers as reals *)

(** The real number that a binary64 number is; infinities and NaN are
    none. *)
Definition realValue (x : float) : option R :=
  match Prim2SF x with
  | S754_zero _ => Some 0
  | S754_finite s m e => Some ((if s then -1 else 1) * IZR (Zpos m) * powerRZ 2 e)
  | S754_infinity _ | S754_nan => None
  end.

Definition finiteNumber (x : float) : Prop := realValue x <> None.

Definition realPoint (p : Vec3 float) : option (Vec3 R) :=
  match realValue (vx p), realValue (vy p), realValue (vz p) with
  | Some x, Some y, Some z => Some (mkVec3 x y z)
  | _, _, _ => None
  end.

(** Two points one metre apart on a line that passes 2^-10 m beside the
    point (6378137, 0, 0) of the sphere, outside of it. *)
Definition grazingObserver {num : Type} `{Number num} : Vec3 num :=
  mkVec3 (lit 6378137) (div (lit 1) (lit 1024)) (lit 0).
Definition grazingTarget {num : Type} `{Number num} : Vec3 num :=
  mkVec3 (lit 6378138) (div (lit 1) (lit 1024)) (lit 0).

(** The link of the signal strength tests, in any arithmetic, and a link
    from 1e200 m away, whose squared length is beyond binary64. *)
Definition linkAircraft {num : Type} `{Number num} : Vec3 num :=
  mkVec3 (lit 0) (lit 0) (lit 6388137).
Definition linkSatellite {num : Type} `{Number num} : Vec3 num :=
  mkVec3 (lit 0) (lit 0) (lit 26378137).
Definition linkFrequency {num : Type} `{Number num} : num := lit 1575420000.
Definition farAircraft {num : Type} `{Number num} : Vec3 num :=
  mkVec3 (lit (10 ^ 200)) (lit 0) (lit 0).
Definition earthCentre {num : Type} `{Number num} : Vec3 num :=
  mkVec3 (lit 0) (lit 0) (lit 0).

(** ** Enclosures of real numbers *)

(** The pair of integers [(l, h)] stands, for a scale [s], for the reals
    between [l / s] and [h / s].  The operations below round outwards, so
    that what they return encloses the exact result for every real the
    arguments enclose.  They are used to follow the Newton-Raphson loop,
    in exact real arithmetic, from inputs that are binary64 numbers. *)
Record Enclosure : Type := {
  lower : bigZ;
  upper : bigZ
}.

Definition encloses (scale : bigZ) (X : Enclosure) (x : R) : Prop :=
  IZR (BigZ.to_Z (lower X)) <= x * IZR (BigZ.to_Z scale)
  <= IZR (BigZ.to_Z (upper X)).

Section Enclosures.
Variable scale : bigZ.
Local Open Scope bigZ_scope.

(** The quotient rounded up. *)
Definition ceilDiv (a d : bigZ) : bigZ := - (- a / d).

Definition point (n : bigZ) : Enclosure := {| lower := n; upper := n |}.

(** The quotient [n / d] of two integers, for [d] a divisor of [scale]. *)
Definition ratio (n d : Z) : Enclosure :=
  point (BigZ.of_Z n * (scale / BigZ.of_Z d)).

Definition eone : Enclosure := point scale.

Definition eadd (X Y : Enclosure) : Enclosure :=
  {| lower := lower X + lower Y; upper := upper X + upper Y |}.

Definition esub (X Y : Enclosure) : Enclosure :=
  {| lower := lower X - upper Y; upper := upper X - lower Y |}.

Definition eopp (X : Enclosure) : Enclosure :=
  {| lower := - upper X; upper := - lower X |}.

Definition edouble (X : Enclosure) : Enclosure :=
  {| lower := 2 * lower X; upper := 2 * upper X |}.

Definition emul (X Y : Enclosure) : Enclosure :=
  let a := lower X * lower Y in
  let b := lower X * upper Y in
  let c := upper X * lower Y in
  let d := upper X * upper Y in
  {| lower := BigZ.min (BigZ.min a b) (BigZ.min c d) / scale;
     upper := ceilDiv (BigZ.max (BigZ.max a b) (BigZ.max c d)) scale |}.

(** Division by a positive integer. *)
Definition edivc (X : Enclosure) (d : bigZ) : Enclosure :=
  {| lower := lower X / d; upper := ceilDiv (upper X) d |}.

(** Division by an enclosure of positive numbers. *)
Definition ediv (X Y : Enclosure) : Enclosure :=
  {| lower := if 0 <=? lower X then lower X * scale / upper Y
              else lower X * scale / lower Y;
     upper := if 0 <=? upper X then ceilDiv (upper X * scale) (lower Y)
              else ceilDiv (upper X * scale) (upper Y) |}.

(** The partial sums of the series of sine ([off = 1]) and cosine
    ([off = 0]): [m] encloses the size of the term of index [i], [acc] the
    sum up to it. *)
Fixpoint series (T2 : Enclosure) (off n i : nat) (m acc : Enclosure)
    : Enclosure * Enclosure :=
  match n with
  | O => (m, acc)
  | S n' =>
      let d := BigZ.of_Z (Z.of_nat ((2 * i + off + 1) * (2 * i + off + 2))) in
      let m' := edivc (emul m T2) d in
      let acc' := if Nat.even i then esub acc m' else eadd acc m' in
      series T2 off n' (S i) m' acc'
  end.

(** An alternating series lies between two successive partial sums. *)
Definition alternating (T2 : Enclosure) (off terms : nat) (first : Enclosure)
    : Enclosure :=
  let '(m, acc) := series T2 off (2 * terms + 1) 0 first first in
  let i := (2 * terms + 1)%nat in
  let d := BigZ.of_Z (Z.of_nat ((2 * i + off + 1) * (2 * i + off + 2))) in
  let m' := edivc (emul m T2) d in
  {| lower := lower acc; upper := upper acc + upper m' |}.

(** Sine and cosine of an argument in [0, 1]. *)
Definition sinCosSmall (terms : nat) (T : Enclosure) : Enclosure * Enclosure :=
  let T2 := emul T T in
  (alternating T2 1 terms T, alternating T2 0 terms eone).

(** [sin 2t = 2 sin t cos t], [cos 2t = 1 - 2 sin t sin t]. *)
Definition doubleAngle (SC : Enclosure * Enclosure) : Enclosure * Enclosure :=
  let '(si, co) := SC in
  (edouble (emul si co), esub eone (edouble (emul si si))).

Fixpoint doubleAngles (k : nat) (SC : Enclosure * Enclosure)
    : Enclosure * Enclosure :=
  match k with
  | O => SC
  | S k' => doubleAngles k' (doubleAngle SC)
  end.

(** Sine and cosine of a non-negative argument: the argument is halved
    [halvings] times, which must bring it into [0, 1]. *)
Definition sinCosNonneg (halvings terms : nat) (X : Enclosure)
    : option (Enclosure * Enclosure) :=
  let T := edivc X (BigZ.of_Z (2 ^ Z.of_nat halvings)) in
  if (0 <=? lower T) && (upper T <=? scale)
  then Some (doubleAngles halvings (sinCosSmall terms T))
  else None.

Definition sinCos (halvings terms : nat) (X : Enclosure)
    : option (Enclosure * Enclosure) :=
  if 0 <=? lower X then sinCosNonneg halvings terms X
  else if upper X <=? 0 then
    match sinCosNonneg halvings terms (eopp X) with
    | Some (si, co) => Some (eopp si, co)
    | None => None
    end
  else None.

(** One Newton step, as [newtonStep] writes it. *)
Definition newtonEnclosure (halvings terms : nat) (ecc M X : Enclosure)
    : option Enclosure :=
  match sinCos halvings terms X with
  | Some (si, co) =>
      let denominator := esub eone (emul ecc co) in
      if 0 <? lower denominator
      then Some (esub X (ediv (esub (esub X (emul ecc si)) M) denominator))
      else None
  | None => None
  end.

(** [|y - x| > 1e-12] for all the [x] and [y] enclosed, and
    [|y - x| <= 1e-12] for all of them. *)
Definition apart (Y X : Enclosure) : bool :=
  let D := esub Y X in
  (scale <? lower D * 1000000000000) || (upper D * 1000000000000 <? - scale).

Definition within (Y X : Enclosure) : bool :=
  let D := esub Y X in
  (- scale <=? lower D * 1000000000000) && (upper D * 1000000000000 <=? scale).

(** What is known of the state in which the loop is left. *)
Record LoopEnclosure : Type := {
  lastEk : Enclosure;
  lastEk_prev : Enclosure;
  lastIterations : nat;
  converged : bool       (* the last two iterates are within the tolerance *)
}.

(** The loop of [keplerLoop], on enclosures.  [None]: the enclosures are
    too wide to decide a test. *)
Fixpoint loopEnclosure (halvings terms : nat) (fuel : nat) (ecc M X : Enclosure)
    (iterations0 : nat) : option LoopEnclosure :=
  match newtonEnclosure halvings terms ecc M X with
  | Some Y =>
      let left b := Some {| lastEk := Y; lastEk_prev := X;
                            lastIterations := S iterations0; converged := b |} in
      if apart Y X then
        if (S iterations0 <? 100)%nat then
          match fuel with
          | S fuel' => loopEnclosure halvings terms fuel' ecc M Y (S iterations0)
          | O => left false
          end
        else left false
      else if within Y X then left true
      else None
  | None => None
  end.

(** The residual [E - e sin E - M]. *)
Definition residualEnclosure (halvings terms : nat) (ecc M X : Enclosure)
    : option Enclosure :=
  match sinCos halvings terms X with
  | Some (si, _) => Some (esub (esub X (emul ecc si)) M)
  | None => None
  end.
End Enclosures.

(** The size of the term of index [i] of the series of sine ([off = 1]) and
    cosine ([off = 0]) at [a], and the partial sums. *)
Definition seriesTerm (a : R) (off i : nat) : R :=
  a ^ (2 * i + off) / INR (fact (2 * i + off)).

Definition seriesSum (a : R) (off n : nat) : R :=
  sum_f_R0 (fun j => (-1) ^ j * seriesTerm a off j) n.

(** The enclosures are computed with 800 binary digits after the point,
    12 halvings of the argument and the partial sums of index 27 and 28 of
    each series. *)
Definition enclosureScale : bigZ := BigZ.of_Z (2 ^ 800).

Definition solveKeplerEnclosure (n d m : Z) : option LoopEnclosure :=
  let ecc := ratio enclosureScale n d in
  let M := ratio enclosureScale m d in
  loopEnclosure enclosureScale 12 13 99 ecc M M 0.

(** The loop from [m / d] with eccentricity [n / d] is left at the cap, the
    last two iterates more than 1e-12 apart and the residual of the last
    one above 1 / 10 in size. *)
Definition stalls (n d m : Z) : bool :=
  match solveKeplerEnclosure n d m with
  | Some r =>
      (lastIterations r =? 100)%nat && negb (converged r) &&
      match residualEnclosure enclosureScale 12 13
              (ratio enclosureScale n d) (ratio enclosureScale m d) (lastEk r) with
      | Some Y => (upper Y * 10 <? - enclosureScale)%bigZ
                  || (enclosureScale <? lower Y * 10)%bigZ
      | None => false
      end
  | None => false
  end.

(** The loop is left before the cap with the last two iterates within the
    tolerance. *)
Definition converges (n d m : Z) : bool :=
  match solveKeplerEnclosure n d m with
  | Some r => (lastIterations r <? 100)%nat && converged r
  | None => false
  end.

(** ** The binary64 run of the loop at the cap *)

(** A finite binary64 number below 2^53 in size is [n / 2^k]: the
    numerator and the exponent. *)
Definition dyadic (x : float) : option (Z * positive) :=
  match Prim2SF x with
  | S754_finite s m (Zneg k) => Some (if s then Zneg m else Zpos m, k)
  | _ => None
  end.

(** The unit in the last place of a finite binary64 number. *)
Definition ulp (x : float) : R :=
  match Prim2SF x with
  | S754_finite _ _ e => powerRZ 2 e
  | _ => 0
  end.

(** The real number [v] is within half a unit in the last place of the
    binary64 number [y]. *)
Definition roundsTo (v : R) (y : float) : Prop :=
  exists r : R, realValue y = Some r /\ Rabs (v - r) * 2 <= ulp y.

(** The doubles that the binary64 loop goes through from
    [cycleMeanAnomaly], each with the doubles nearest to its sine and to
    its cosine. *)
Definition cycleSamples : list (float * (float * float)) :=
  [ (0x1.d3ce2e5e50000p-4, (0x1.d2c9ff29c72e2p-4, 0x1.fcaa13e3d5dbcp-1));
    (0x1.59bf40f1206cdp+2, (-0x1.8ae854d7db2fbp-1, 0x1.45df062e70358p-1));
    (-0x1.5a0a8f9bc910ep+3, (0x1.f7904423c12d4p-1, -0x1.723fb2301ea07p-3));
    (-0x1.6e4cdf482be30p-1, (-0x1.4fd7a8d1d8860p-1, 0x1.827699b6f4e8ap-1));
    (0x1.9998040000000p-26, (0x1.999803fffffffp-26, 0x1.ffffffffffffdp-1));
    (0x1.ed721d58e3d5dp+2, (0x1.fab56e04d2cf7p-1, 0x1.25ac97dfd3542p-3));
    (0x1.bb17c00000000p-31, (0x1.bb17c00000000p-31, 0x1.0000000000000p+0));
    (0x1.ed721d58e3e20p+2, (0x1.fab56e04d2dd7p-1, 0x1.25ac97dfd1d22p-3));
    (0x1.bbed400000000p-31, (0x1.bbed400000000p-31, 0x1.0000000000000p+0)) ]%float.

(** An engine whose [Math.sin] and [Math.cos] return, at the doubles of a
    list, the sine and the cosine listed. *)
Definition sampled (engine : MathLib float)
    (samples : list (float * (float * float))) : Prop :=
  forall x s c : float,
    In (x, (s, c)) samples -> Math_sin x = s /\ Math_cos x = c.

(** The enclosure [X], over [scale], lies within [1 / 2^(k+1)] of
    [n / 2^k]. *)
Definition halfUlpInside (scale : bigZ) (X : Enclosure) (n : Z) (k : positive)
    : bool :=
  let half := (scale / BigZ.of_Z (2 ^ (Zpos k + 1)))%bigZ in
  ((BigZ.of_Z (2 ^ (Zpos k + 1)) * half =? scale)
   && (BigZ.of_Z (2 * n - 1) * half <=? lower X)
   && (upper X <=? BigZ.of_Z (2 * n + 1) * half))%bigZ.

(** The doubles [s] and [c] are within half a unit in the last place of
    the sine and the cosine of the double [x]. *)
Definition nearSample (sample : float * (float * float)) : bool :=
  let '(x, (s, c)) := sample in
  match dyadic x, dyadic s, dyadic c with
  | Some (n, k), Some (ns, ks), Some (nc, kc) =>
      (Pos.to_nat k <=? 800)%nat &&
      match sinCos enclosureScale 12 13
                   (ratio enclosureScale n (2 ^ Z.of_nat (Pos.to_nat k))) with
      | Some (si, co) =>
          halfUlpInside enclosureScale si ns ks
          && halfUlpInside enclosureScale co nc kc
      | None => false
      end
  | _, _, _ => false
  end.

(** ** Notions for the further properties *)

(** The square of the distance from the Earth's centre, and of the radius. *)
Definition normSq (p : Vec3 R) : R := dot p p.
Definition earthRadiusSq : R := 6378137 * 6378137.

(** Some point of the segment lies in the solid Earth. *)
Definition segmentEntersEarth (p1 p2 : Vec3 R) : Prop :=
  exists t, 0 <= t <= 1 /\ normSq (segmentPoint p1 p2 t) <= earthRadiusSq.

Definition scale (k : R) (p : Vec3 R) : Vec3 R :=
  mkVec3 (k * vx p) (k * vy p) (k * vz p).

(** Two points below the sphere, and the zenith direction of the tests. *)
Definition tunnelEntry : Vec3 R := mkVec3 6000000 0 0.
Definition tunnelExit : Vec3 R := mkVec3 0 6000000 0.

(** A second satellite position of the signal strength tests, 40000 km above
    the surface. *)
Definition testSatelliteHigh : Vec3 R := mkVec3 0 0 (6378137 + 40000000).

(** The position the early revision of the satellite calculator returns. *)
Definition stubPosition {num : Type} `{Number num} : Vec3 num :=
  mkVec3 (dec 123456789 1) (dec 98765432 1) (dec 34567891 1).

(** ** trajectorySimulator *)

(** The messages [generateTrajectory] throws. *)
Inductive TrajectoryThrown : Type :=
| TrajectoryMissingParameter   (* '缺少必要参数' *)
| InvalidFlightPhase           (* '无效的飞行阶段' *)
| NonPositiveDuration.         (* '持续时间和间隔必须为正数' *)

(** The outcome of a function whose loop is run on fuel: it returns, it
    throws, or the fuel did not suffice to reach the end of the loop. *)
Inductive Run (E A : Type) : Type :=
| Done (a : A)
| Raised (err : E)
| Unfinished.
Arguments Done {E A} a.
Arguments Raised {E A} err.
Arguments Unfinished {E A}.

(** The members of [validPhases], which are also the cases of the
    [switch]. *)
Inductive FlightPhase : Type := Takeoff | Cruise | Landing.

Definition validPhase (flightPhase : string) : option FlightPhase :=
  if String.eqb flightPhase "takeoff" then Some Takeoff
  else if String.eqb flightPhase "cruise" then Some Cruise
  else if String.eqb flightPhase "landing" then Some Landing
  else None.

Record TrajectoryParams (num : Type) : Type := {
  flightPhase : option string;
  duration : option num;          (* None: null or undefined *)
  interval : option num           (* None: null or undefined *)
}.
Arguments flightPhase {num} t.
Arguments duration {num} t.
Arguments interval {num} t.

(** An element of the trajectory; [timestamp] is the time value of the
    [Date]. *)
Record TrajectoryPoint (num : Type) : Type := {
  pt_timestamp : num;
  pt_position : Lla num;
  pt_attitude : Attitude num
}.
Arguments pt_timestamp {num} t.
Arguments pt_position {num} t.
Arguments pt_attitude {num} t.
Arguments roll {num} a.
Arguments pitch {num} a.
Arguments yaw {num} a.

Section TrajectorySimulator.
Context {num : Type} `{MathLib num}.
Local Open Scope js_scope.

(** The time value of [new Date(v)], for [v] in the range of a [Date]:
    [v] with its fraction cut off. *)
Definition timeClip (v : num) : num := v - fmod v (lit 1).

(** The body of the [for] loop at time [t]. *)
Definition trajectoryPoint (phase : FlightPhase) (duration startTime t : num)
    : TrajectoryPoint num :=
  let timestamp := timeClip (startTime + t * lit 1000) in
  match phase with
  | Takeoff =>
      {| pt_timestamp := timestamp;
         pt_position := {| longitude := dec 1163974 4;
                           latitude := dec 399093 4;
                           altitude := lit 10000 * (t / duration) |};
         pt_attitude := {| roll := lit 0;
                           pitch := lit 15 * (lit 1 - t / duration);
                           yaw := lit 0 |} |}
  | Cruise =>
      {| pt_timestamp := timestamp;
         pt_position := {| longitude := dec 1163974 4 + dec 1 1 * (t / duration);
                           latitude := dec 399093 4;
                           altitude := lit 10000 |};
         pt_attitude := {| roll := Math_sin (t / lit 10) * lit 2;
                           pitch := lit 0;
                           yaw := lit 0 |} |}
  | Landing =>
      {| pt_timestamp := timestamp;
         pt_position := {| longitude := dec 1163974 4;
                           latitude := dec 399093 4;
                           altitude := lit 10000 * (lit 1 - t / duration) |};
         pt_attitude := {| roll := lit 0;
                           pitch := lit (-3) * (t / duration);
                           yaw := lit 0 |} |}
  end.

(** [for (let t = ...; t < duration; t += interval)], entered at [t]; one
    unit of fuel per iteration. *)
Fixpoint trajectoryLoop (fuel : nat) (phase : FlightPhase)
    (duration interval startTime t : num)
    : option (list (TrajectoryPoint num)) :=
  if t <? duration then
    match fuel with
    | O => None
    | S fuel' =>
      match trajectoryLoop fuel' phase duration interval startTime (t + interval) with
      | Some trajectory =>
          Some (trajectoryPoint phase duration startTime t :: trajectory)
      | None => None
      end
    end
  else Some [].

(** [now] is the reading of [Date.now()]. *)
Definition generateTrajectory (fuel : nat) (now : Z)
    (params : option (TrajectoryParams num))
    : Run TrajectoryThrown (list (TrajectoryPoint num)) :=
  match params with
  | None => Raised TrajectoryMissingParameter
  | Some p =>
    match truthyString (flightPhase p), duration p, interval p with
    | Some flightPhase, Some duration, Some interval =>
      match validPhase flightPhase with
      | None => Raised InvalidFlightPhase
      | Some phase =>
        if (duration <=? lit 0) || (interval <=? lit 0)
        then Raised NonPositiveDuration
        else
          let startTime := lit now in
          match trajectoryLoop fuel phase duration interval startTime (lit 0) with
          | Some trajectory => Done trajectory
          | None => Unfinished
          end
      end
    | _, _, _ => Raised TrajectoryMissingParameter
    end
  end.
End TrajectorySimulator.

Definition trajectoryArgs {num : Type} (flightPhase : string)
    (duration interval : num) : option (TrajectoryParams num) :=
  Some {| flightPhase := Some flightPhase;
          duration := Some duration;
          interval := Some interval |}.

(** The sampling times [0, interval, 2 interval, ...] of a trajectory of
    [n] points. *)
Definition sampleTimes (n : nat) (interval : R) : list R :=
  map (fun k => INR k * interval) (seq 0 n).

(** The values of [t] at which the [for] loop of [generateTrajectory] runs
    its body: [t = 0] at first, [t += interval] after each turn, as long as
    [t < duration]; one unit of fuel per turn. *)
Fixpoint loopTimes {num : Type} `{Number num} (fuel : nat)
    (duration interval t : num) : option (list num) :=
  if ltb t duration then
    match fuel with
    | O => None
    | S fuel' =>
      match loopTimes fuel' duration interval (add t interval) with
      | Some times => Some (t :: times)
      | None => None
      end
    end
  else Some [].

(** ** rinexParser *)

(** Strings are sequences of code units below 256, which covers the ASCII
    text of a RINEX file.  The white space that [trim] strips, in that
    range: TAB, LF, VT, FF, CR, SP and NBSP. *)
Definition isWhiteSpace (c : Ascii.ascii) : bool :=
  let n := Ascii.nat_of_ascii c in
  ((9 <=? n) && (n <=? 13))%nat || (n =? 32)%nat || (n =? 160)%nat.

Fixpoint trimStart (s : string) : string :=
  match s with
  | String c s' => if isWhiteSpace c then trimStart s' else s
  | EmptyString => EmptyString
  end.

Fixpoint trimEnd (s : string) : string :=
  match s with
  | String c s' =>
      match trimEnd s' with
      | EmptyString => if isWhiteSpace c then EmptyString else String c EmptyString
      | t => String c t
      end
  | EmptyString => EmptyString
  end.

Definition trim (s : string) : string := trimEnd (trimStart s).

Definition LF : Ascii.ascii := Ascii.ascii_of_nat 10.
Definition CR : Ascii.ascii := Ascii.ascii_of_nat 13.

(** [s.split(/\r?\n/)]: the separators are the line feeds, each with the
    carriage return before it when there is one. *)
Fixpoint splitLines (s : string) : list string :=
  match s with
  | EmptyString => [EmptyString]
  | String c rest =>
      if Ascii.eqb c LF then EmptyString :: splitLines rest
      else
        match rest with
        | String c' rest' =>
            if Ascii.eqb c CR && Ascii.eqb c' LF
            then EmptyString :: splitLines rest'
            else match splitLines rest with
                 | line :: lines => String c line :: lines
                 | [] => [String c EmptyString]
                 end
        | EmptyString => [String c EmptyString]
        end
  end.

(** [s.includes(searchString)] *)
Fixpoint includes (searchString s : string) : bool :=
  String.prefix searchString s ||
  match s with
  | String _ s' => includes searchString s'
  | EmptyString => false
  end.

(** The message [parseRinex] throws. *)
Inductive RinexThrown : Type :=
| EmptyRinexContent.            (* 'RINEX内容不能为空' *)

Inductive Parse (A : Type) : Type :=
| Parsed (a : A)
| ParseError (err : RinexThrown).
Arguments Parsed {A} a.
Arguments ParseError {A} err.

(** [header]; a field is [None] until it is assigned. *)
Record RinexHeader (num : Type) : Type := {
  version : option num;
  type : option string;
  system : option string
}.
Arguments version {num} r.
Arguments type {num} r.
Arguments system {num} r.

(** The object [parseRinex] returns. *)
Record ParsedRinex (num : Type) : Type := {
  header : RinexHeader num;
  parsedSatellites : list (SatelliteEntry num)      (* satellites *)
}.
Arguments header {num} p.
Arguments parsedSatellites {num} p.

(** The variables of the loop of [parseRinex]; [skip] counts the lines
    that [i += 7] still jumps over. *)
Record ParserState (num : Type) : Type := {
  st_inHeader : bool;
  st_header : RinexHeader num;
  st_satellites : list (SatelliteEntry num);
  st_skip : nat
}.
Arguments st_inHeader {num} p.
Arguments st_header {num} p.
Arguments st_satellites {num} p.
Arguments st_skip {num} p.

Section RinexParser.
Context {num : Type}.
Variable parseFloat : string -> num.

(** [{ id: satId }] *)
Definition satelliteData (satId : string) : SatelliteEntry num :=
  {| sat_id := satId; orbitalParameters := None; timeParameters := None |}.

(** The body of the [for] loop on the line [line]. *)
Definition parseLine (st : ParserState num) (line : string) : ParserState num :=
  match st_skip st with
  | S skip =>
      {| st_inHeader := st_inHeader st; st_header := st_header st;
         st_satellites := st_satellites st; st_skip := skip |}
  | O =>
    if st_inHeader st then
      if includes "RINEX VERSION / TYPE" line then
        {| st_inHeader := true;
           st_header := {| version := Some (parseFloat (substring 0 9 line));
                           type := Some (substring 20 1 line);
                           system := Some (substring 40 1 line) |};
           st_satellites := st_satellites st; st_skip := 0 |}
      else if includes "END OF HEADER" line then
        {| st_inHeader := false; st_header := st_header st;
           st_satellites := st_satellites st; st_skip := 0 |}
      else st
    else
      let satId := trim (substring 0 3 line) in
      if String.eqb satId EmptyString then st
      else
        {| st_inHeader := false; st_header := st_header st;
           st_satellites := st_satellites st ++ [satelliteData satId];
           st_skip := 7 |}
  end.

Definition initialState : ParserState num :=
  {| st_inHeader := true;
     st_header := {| version := None; type := None; system := None |};
     st_satellites := []; st_skip := 0 |}.

Definition parseLines (lines : list string) (st : ParserState num)
    : ParserState num :=
  fold_left parseLine lines st.

(** [None] stands for an argument that is absent or not a string. *)
Definition parseRinex (rinexContent : option string) : Parse (ParsedRinex num) :=
  match truthyString rinexContent with
  | None => ParseError EmptyRinexContent
  | Some content =>
      if String.eqb (trim content) EmptyString then ParseError EmptyRinexContent
      else
        let st := parseLines (splitLines content) initialState in
        Parsed {| header := st_header st;
                  parsedSatellites := st_satellites st |}
  end.
End RinexParser.

(** The parsed file as the [rinexData] of the satellite calculator. *)
Definition asRinexData {num : Type} (parsed : ParsedRinex num) : RinexData num :=
  {| satellites := Some (parsedSatellites parsed) |}.

(** All the characters of [s] are white space. *)
Fixpoint blank (s : string) : bool :=
  match s with
  | String c s' => isWhiteSpace c && blank s'
  | EmptyString => true
  end.

(** [lines.join('\n')] and [lines.join('\r\n')] *)
Fixpoint joinLines (eol : string) (lines : list string) : string :=
  match lines with
  | [] => EmptyString
  | [line] => line
  | line :: rest => line ++ eol ++ joinLines eol rest
  end.

(** A line holds no line feed and no carriage return. *)
Fixpoint plainLine (s : string) : bool :=
  match s with
  | String c s' => negb (Ascii.eqb c LF) && negb (Ascii.eqb c CR) && plainLine s'
  | EmptyString => true
  end.

(** A navigation record: its first line and the seven lines after it. *)
Record NavRecord : Type := {
  epochLine : string;
  orbitLines : list string
}.

Definition recordLines (r : NavRecord) : list string :=
  epochLine r :: orbitLines r.

Definition recordId (r : NavRecord) : string :=
  trim (substring 0 3 (epochLine r)).

(** [s.replace(/\n/g, '\r\n')]: the content with DOS line ends. *)
Fixpoint withCarriageReturns (s : string) : string :=
  match s with
  | String c s' =>
      if Ascii.eqb c LF then String CR (String LF (withCarriageReturns s'))
      else String c (withCarriageReturns s')
  | EmptyString => EmptyString
  end.

(** No carriage return in [s]. *)
Fixpoint unixText (s : string) : bool :=
  match s with
  | String c s' => negb (Ascii.eqb c CR) && unixText s'
  | EmptyString => true
  end.

Definition unixEol : string := String LF EmptyString.
Definition dosEol : string := String CR (String LF EmptyString).

(** A header that both markers close on one line, then a record line. *)
Definition mixedMarkerContent : string :=
  "     3.04 END OF HEADER RINEX VERSION / TYPE" ++ unixEol ++ "G01 2025 01 01".

(** A one-line header and two satellites, the second cut short. *)
Definition shortHeader : list string :=
  ["     3.04           N                   G  RINEX VERSION / TYPE"%string].
Definition endOfHeader : string := "                     END OF HEADER".
Definition recordG01 : NavRecord :=
  {| epochLine := "G01 2025 01 01 00 00 00";
     orbitLines := ["1"; "2"; "3"; "4"; "5"; "6"; "7"]%string |}.
Definition recordC02 : NavRecord :=
  {| epochLine := " C0 2 2025 01 01 00 00 00";
     orbitLines := ["1"; "2"; "3"; "4"; "5"; "6"; "7"]%string |}.
Definition twoSatellites : string :=
  joinLines unixEol
    (shortHeader ++ endOfHeader :: List.concat (map recordLines [recordG01; recordC02])).

Definition noFloat : string -> R := fun _ => 0.

(** * Properties *)

Set Warnings "-inexact-float".

(** ** Comparisons on the reals *)

Lemma Rltb_true (a b : R) : Rltb a b = true <-> a < b.
Proof. unfold Rltb. destruct (Rlt_dec a b); split; intros; try easy. Qed.
Lemma Rltb_false (a b : R) : Rltb a b = false <-> b <= a.
Proof. unfold Rltb. destruct (Rlt_dec a b); split; intros; try easy; lra. Qed.
Lemma Rleb_true (a b : R) : Rleb a b = true <-> a <= b.
Proof. unfold Rleb. destruct (Rle_dec a b); split; intros; try easy. Qed.
Lemma Rleb_false (a b : R) : Rleb a b = false <-> b < a.
Proof. unfold Rleb. destruct (Rle_dec a b); split; intros; try easy; lra. Qed.
Lemma Reqb_true (a b : R) : Reqb a b = true <-> a = b.
Proof. unfold Reqb. destruct (Req_dec_T a b); split; intros; try easy. Qed.

(** ** Literals in binary64 *)

(** The constants of the sources, written with [lit] and [dec], are the
    doubles their literals denote. *)
Example binary64_literals :
  EARTH_RADIUS = 6378137.0%float /\
  tolerance = 1e-12%float /\
  EARTH_ROTATION_RATE = 7.2921151467e-5%float /\
  EARTH_GRAVITATIONAL_CONSTANT = 3.986004418e14%float /\
  dec (-217819323) 2 = (-2178193.23)%float /\
  dec 1163974 4 = 116.3974%float.
Proof. vm_compute. repeat split; reflexivity. Qed.

(** ** occlusionChecker *)

(** The roots of a proper quadratic. *)
Lemma quadratic_roots (A B C t : R) :
  0 < A -> 0 <= B * B - 4 * A * C ->
  (A * t * t + B * t + C = 0 <->
   t = (- B + sqrt (B * B - 4 * A * C)) / (2 * A) \/
   t = (- B - sqrt (B * B - 4 * A * C)) / (2 * A)).
Proof.
  intros HA HD.
  set (s := sqrt (B * B - 4 * A * C)).
  assert (Hs : s * s = B * B - 4 * A * C) by (apply sqrt_sqrt; exact HD).
  assert (Hs0 : 0 <= s) by apply sqrt_pos.
  split.
  - intros Hroot.
    assert (Hsq : (2 * A * t + B - s) * (2 * A * t + B + s) = 0) by nra.
    apply Rmult_integral in Hsq. destruct Hsq as [Hq | Hq]; [left | right];
      apply (Rmult_eq_reg_l (2 * A)); try lra; field_simplify; lra.
  - intros Ht.
    assert (Hlin : 2 * A * t = - B + s \/ 2 * A * t = - B - s).
    { destruct Ht as [Ht | Ht]; rewrite Ht; [left | right]; field; lra. }
    assert (H4 : 4 * A * (A * t * t + B * t + C) = 0).
    { replace (4 * A * (A * t * t + B * t + C))
        with ((2 * A * t) * (2 * A * t) + 2 * B * (2 * A * t) + 4 * A * C) by ring.
      destruct Hlin as [Hl | Hl]; rewrite Hl; ring_simplify; nra. }
    apply Rmult_integral in H4. destruct H4 as [H4 | H4]; [lra | exact H4].
Qed.

Lemma quadratic_no_root (A B C t : R) :
  B * B - 4 * A * C < 0 -> A * t * t + B * t + C <> 0.
Proof.
  intros HD Hroot.
  assert (Hsq : (2 * A * t + B) ^ 2
                = B * B - 4 * A * C + 4 * A * (A * t * t + B * t + C)) by ring.
  rewrite Hroot in Hsq. pose proof (pow2_ge_0 (2 * A * t + B)). lra.
Qed.

Lemma sum_squares_pos (a b c : R) :
  a <> 0 \/ b <> 0 \/ c <> 0 -> 0 < a * a + b * b + c * c.
Proof.
  intros Hne.
  pose proof (Rle_0_sqr a) as Ha. pose proof (Rle_0_sqr b) as Hb.
  pose proof (Rle_0_sqr c) as Hc. unfold Rsqr in *.
  destruct Hne as [Hne | [Hne | Hne]]; apply Rsqr_pos_lt in Hne;
    unfold Rsqr in Hne; lra.
Qed.

Lemma segment_quadratic (p1 p2 : Vec3 R) :
  segmentMeetsEarth p1 p2 <-> quadraticHasRoot p1 p2.
Proof.
  destruct p1 as [ox oy oz], p2 as [tx ty tz].
  unfold segmentMeetsEarth, quadraticHasRoot, segmentPoint, dot; cbn.
  split; intros [t [Ht Heq]]; exists t; (split; [exact Ht | nra]).
Qed.

Lemma occluded_spec (p1 p2 : Vec3 R) :
  occluded p1 p2 = true <-> p1 <> p2 /\ quadraticHasRoot p1 p2.
Proof.
  destruct p1 as [ox oy oz], p2 as [tx ty tz].
  unfold occluded, quadraticHasRoot, dot, gtb, geb, EARTH_RADIUS; cbn.
  set (A := (tx - ox) * (tx - ox) + (ty - oy) * (ty - oy) + (tz - oz) * (tz - oz)).
  set (B := 2 * (ox * (tx - ox) + oy * (ty - oy) + oz * (tz - oz))).
  set (C := ox * ox + oy * oy + oz * oz - 6378137 * 6378137).
  destruct (Reqb ox tx && Reqb oy ty && Reqb oz tz) eqn:Hsame.
  - apply andb_prop in Hsame as [Hxy Hz]. apply andb_prop in Hxy as [Hx Hy].
    apply Reqb_true in Hx, Hy, Hz. subst.
    split; [discriminate | intros [Hne _]; now elim Hne].
  - assert (HA : 0 < A).
    { assert (Hne : ox <> tx \/ oy <> ty \/ oz <> tz).
      { rewrite !andb_false_iff in Hsame.
        destruct Hsame as [[Hc | Hc] | Hc]; [left | right; left | right; right];
          intros Heq; apply Reqb_true in Heq; congruence. }
      unfold A. apply sum_squares_pos. lra. }
    assert (Hdiff : mkVec3 ox oy oz <> mkVec3 tx ty tz).
    { intros Heq. injection Heq as -> -> ->. unfold A in HA. lra. }
    destruct (Rltb (B * B - 4 * A * C) 0) eqn:Hdisc.
    + apply Rltb_true in Hdisc.
      split; [discriminate | intros [_ [t [_ Hroot]]]].
      exfalso. exact (quadratic_no_root A B C t Hdisc Hroot).
    + apply Rltb_false in Hdisc.
      rewrite orb_true_iff, !andb_true_iff, !Rleb_true.
      split.
      * intros [[H0 H1] | [H0 H1]]; (split; [exact Hdiff |]);
          eexists; (split; [split; [exact H0 | exact H1] |]);
          apply (quadratic_roots A B C _ HA Hdisc); [left | right]; reflexivity.
      * intros [_ [t [[H0 H1] Hroot]]].
        apply (quadratic_roots A B C t HA Hdisc) in Hroot.
        destruct Hroot as [<- | <-]; [left | right]; split; assumption.
Qed.

Lemma occluded_through_earth :
  occluded (num := R) throughEarthObserver throughEarthTarget = true.
Proof.
  apply occluded_spec. split.
  - unfold throughEarthObserver, throughEarthTarget; cbn. intros Heq.
    injection Heq as Hx _. lra.
  - unfold quadraticHasRoot, throughEarthObserver, throughEarthTarget, dot; cbn.
    set (A := (-6378137 - 6378137) * (-6378137 - 6378137) + (0 - 0) * (0 - 0)
              + (-10000 - 10000) * (-10000 - 10000)).
    set (B := 2 * (6378137 * (-6378137 - 6378137) + 0 * (0 - 0)
                   + 10000 * (-10000 - 10000))).
    set (C := 6378137 * 6378137 + 0 * 0 + 10000 * 10000 - 6378137 * 6378137).
    assert (HA : 0 < A) by (unfold A; lra).
    assert (HD : 0 <= B * B - 4 * A * C) by (unfold A, B, C; lra).
    assert (Hs0 : 0 <= sqrt (B * B - 4 * A * C)) by apply sqrt_pos.
    assert (Hs1 : sqrt (B * B - 4 * A * C) <= - B).
    { rewrite <- (sqrt_square (- B)) by (unfold B; lra).
      apply sqrt_le_1_alt. unfold A, B, C. lra. }
    exists ((- B - sqrt (B * B - 4 * A * C)) / (2 * A)). split.
    + split.
      * apply Rmult_le_reg_r with (2 * A); [lra |].
        unfold Rdiv. rewrite Rmult_assoc, Rinv_l by lra. lra.
      * apply Rmult_le_reg_r with (2 * A); [lra |].
        unfold Rdiv. rewrite Rmult_assoc, Rinv_l by lra.
        assert (- B <= 2 * A) by (unfold A, B; lra). lra.
    + apply (quadratic_roots A B C _ HA HD). right. reflexivity.
Qed.

(** ** occlusionChecker in binary64: coinciding positions *)

Lemma eqb_self_false (x : float) : PrimFloat.eqb x x = false -> isNaN x.
Proof.
  unfold isNaN. rewrite FloatAxioms.eqb_spec.
  destruct (Prim2SF x) as [s | s | | s m ex]; unfold SFeqb, SFcompare.
  - discriminate.
  - destruct s; discriminate.
  - reflexivity.
  - rewrite Z.compare_refl, Pos.compare_cont_refl. destruct s; discriminate.
Qed.

Lemma isNaN_sub (x : float) : isNaN x -> isNaN (PrimFloat.sub x x).
Proof.
  unfold isNaN. intros Hx. rewrite sub_spec, Hx. reflexivity.
Qed.

Lemma isNaN_mul (x : float) : isNaN x -> isNaN (PrimFloat.mul x x).
Proof.
  unfold isNaN. intros Hx. rewrite mul_spec, Hx. reflexivity.
Qed.

Lemma isNaN_mul_r (x y : float) : isNaN y -> isNaN (PrimFloat.mul x y).
Proof.
  unfold isNaN. intros Hy. rewrite mul_spec, Hy.
  destruct (Prim2SF x); reflexivity.
Qed.

Lemma isNaN_add_l (x y : float) : isNaN x -> isNaN (PrimFloat.add x y).
Proof.
  unfold isNaN. intros Hx. rewrite add_spec, Hx. reflexivity.
Qed.

Lemma isNaN_add_r (x y : float) : isNaN y -> isNaN (PrimFloat.add x y).
Proof.
  unfold isNaN. intros Hy. rewrite add_spec, Hy.
  destruct (Prim2SF x); reflexivity.
Qed.

Lemma isNaN_div_r (x y : float) : isNaN y -> isNaN (PrimFloat.div x y).
Proof.
  unfold isNaN. intros Hy. rewrite div_spec, Hy.
  destruct (Prim2SF x); reflexivity.
Qed.

Lemma leb_NaN_r (x y : float) : isNaN y -> PrimFloat.leb x y = false.
Proof.
  unfold isNaN. intros Hy. rewrite leb_spec, Hy.
  destruct (Prim2SF x); reflexivity.
Qed.

(** In binary64 too, a position does not occlude itself: when a coordinate
    is NaN the comparison [===] fails, and then so does every later
    comparison. *)
Lemma occluded_self_binary64 (p : Vec3 float) : occluded p p = false.
Proof.
  destruct p as [x y z]. unfold occluded, geb.
  cbn [vx vy vz eqb sub add mul div neg Math_sqrt ltb leb lit Float64].
  destruct (PrimFloat.eqb x x && PrimFloat.eqb y y && PrimFloat.eqb z z)
    eqn:Hsame; [reflexivity |].
  set (A := PrimFloat.add
              (PrimFloat.add (PrimFloat.mul (PrimFloat.sub x x) (PrimFloat.sub x x))
                             (PrimFloat.mul (PrimFloat.sub y y) (PrimFloat.sub y y)))
              (PrimFloat.mul (PrimFloat.sub z z) (PrimFloat.sub z z))).
  assert (HA : isNaN A).
  { rewrite !andb_false_iff in Hsame.
    destruct Hsame as [[Hc | Hc] | Hc]; apply eqb_self_false in Hc; unfold A.
    - apply isNaN_add_l, isNaN_add_l, isNaN_mul, isNaN_sub, Hc.
    - apply isNaN_add_l, isNaN_add_r, isNaN_mul, isNaN_sub, Hc.
    - apply isNaN_add_r, isNaN_mul, isNaN_sub, Hc. }
  assert (H2A : isNaN (PrimFloat.mul (float_of_Z 2) A))
    by (apply isNaN_mul_r, HA).
  match goal with
  | |- (if ?c then false else _) = false => destruct c; [reflexivity |]
  end.
  rewrite !(leb_NaN_r (float_of_Z 0)) by (apply isNaN_div_r, H2A).
  reflexivity.
Qed.

(** The first occlusion case of the test suite: the satellite straight
    above the aircraft. *)
Example occlusion_overhead_clear :
  checkOcclusion (num := float)
    (occlusionArgs (mkVec3 (lit 0) (lit 0) (lit 6388137))
                   (mkVec3 (lit 0) (lit 0) (lit 26378137)))
  = Ok false.
Proof. vm_compute. reflexivity. Qed.

(** ** Binary64 numbers as reals *)

Lemma powerRZ_neg (k : positive) : powerRZ 2 (Zneg k) = / IZR (2 ^ Zpos k).
Proof.
  cbn [powerRZ]. rewrite <- (positive_nat_Z k), <- pow_IZR. reflexivity.
Qed.

(** Reads a closed binary64 number as a quotient of integers. *)
Ltac real_value :=
  unfold realValue;
  match goal with
  | |- context [Prim2SF ?x] =>
      let v := eval vm_compute in (Prim2SF x) in
      replace (Prim2SF x) with v by (vm_compute; reflexivity)
  end;
  cbv beta iota; rewrite ?powerRZ_neg;
  f_equal;
  repeat match goal with
  | |- context [IZR (2 ^ Zpos ?k)] =>
      let v := eval vm_compute in (2 ^ Zpos k)%Z in
      change (2 ^ Zpos k)%Z with v
  end.

Lemma grazing_points :
  realPoint grazingObserver = Some grazingObserver /\
  realPoint grazingTarget = Some grazingTarget.
Proof.
  unfold realPoint, grazingObserver, grazingTarget. cbn [vx vy vz].
  assert (H1 : realValue (lit 6378137) = Some 6378137) by (real_value; lra).
  assert (H2 : realValue (lit 6378138) = Some 6378138) by (real_value; lra).
  assert (H3 : realValue (div (lit 1) (lit 1024)) = Some (1 / 1024))
    by (real_value; lra).
  assert (H4 : realValue (lit 0) = Some 0) by real_value.
  rewrite H1, H2, H3, H4. split; reflexivity.
Qed.

(** C3, counterexample.  In binary64 [checkOcclusion] returns [true] for
    the observer (6378137, 2^-10, 0) and the target (6378138, 2^-10, 0),
    two different points whose segment lies outside the sphere, every
    point of it farther than 6378137 m from the origin: [C] rounds to 0,
    so that the root [t1 = 0] is found. *)
Lemma occlusion_reported_outside_sphere :
  checkOcclusion (num := float) (occlusionArgs grazingObserver grazingTarget)
  = Ok true /\
  realPoint grazingObserver = Some grazingObserver /\
  realPoint grazingTarget = Some grazingTarget /\
  (forall t : R,
      0 <= t <= 1 ->
      6378137 * 6378137
      < dot (segmentPoint grazingObserver grazingTarget t)
            (segmentPoint grazingObserver grazingTarget t)) /\
  ~ segmentMeetsEarth grazingObserver grazingTarget.
Proof.
  assert (Hout : forall t : R,
             0 <= t <= 1 ->
             6378137 * 6378137
             < dot (segmentPoint grazingObserver grazingTarget t)
                   (segmentPoint grazingObserver grazingTarget t)).
  { intros t [Ht0 Ht1].
    unfold dot, segmentPoint, grazingObserver, grazingTarget.
    cbn [vx vy vz lit div RNumber]. nra. }
  split; [vm_compute; reflexivity |].
  split; [apply grazing_points | split; [apply grazing_points |]].
  split; [exact Hout |].
  intros [t [Ht Hmeet]]. specialize (Hout t Ht). lra.
Qed.

(** C3 as the code has it.  In exact arithmetic, with both positions
    present, [checkOcclusion] returns [true] exactly when observer and
    target differ and the finite segment between them meets the sphere of
    radius 6378137 m about the origin; that is the same as the quadratic
    [A t^2 + B t + C = 0] having a root in [0, 1].  [checkOcclusion(p, p)]
    is [false] for every [p], in exact arithmetic and for every binary64
    [p], and for the observer (6378137, 0, 10000) and the target
    (-6378137, 0, -10000) the result is [true], in exact arithmetic and in
    binary64. *)
Theorem checkOcclusion_segment_sphere :
  (forall observer target : Vec3 R,
      exists b, checkOcclusion (occlusionArgs observer target) = Ok b /\
                (b = true <-> observer <> target /\ segmentMeetsEarth observer target)) /\
  (forall observer target : Vec3 R,
      segmentMeetsEarth observer target <-> quadraticHasRoot observer target) /\
  (forall p : Vec3 R, checkOcclusion (occlusionArgs p p) = Ok false) /\
  (forall p : Vec3 float, checkOcclusion (occlusionArgs p p) = Ok false) /\
  checkOcclusion (num := R) (occlusionArgs throughEarthObserver throughEarthTarget)
    = Ok true /\
  checkOcclusion (num := float) (occlusionArgs throughEarthObserver throughEarthTarget)
    = Ok true.
Proof.
  split; [| split; [| split; [| split; [| split]]]].
  - intros observer target. exists (occluded observer target).
    split; [reflexivity |]. rewrite segment_quadratic. apply occluded_spec.
  - apply segment_quadratic.
  - intros p. cbn. f_equal. destruct (occluded p p) eqn:Hocc; [| reflexivity].
    apply occluded_spec in Hocc. destruct Hocc as [Hne _]. now elim Hne.
  - intros p. unfold checkOcclusion, occlusionArgs.
    cbn [oc_aircraftPosition oc_satellitePosition]. f_equal.
    apply occluded_self_binary64.
  - cbn. f_equal. apply occluded_through_earth.
  - vm_compute. reflexivity.
Qed.

(** ** signalStrengthCalculator *)

Lemma calculateDistance_euclidean (p q : Vec3 R) :
  calculateDistance p q = euclideanDistance p q.
Proof.
  unfold calculateDistance, euclideanDistance; cbn. f_equal. ring.
Qed.

(** The function on present parameters, in exact arithmetic. *)
Lemma calculateSignalStrength_eq (observer target : Vec3 R)
    (transmitPowerDbw frequencyHz : R) (satGain rxGain : option R) :
  calculateSignalStrength
    (signalArgs observer target transmitPowerDbw frequencyHz satGain rxGain)
  = if Rleb (euclideanDistance observer target) 0 || Rleb frequencyHz 0
    then Ok NegativeInfinity
    else Ok (Dbm (transmitPowerDbw + gainOrZero satGain + gainOrZero rxGain
                  - FSPL (euclideanDistance observer target) frequencyHz + 30)).
Proof.
  unfold calculateSignalStrength, signalArgs; cbn -[calculateDistance].
  rewrite calculateDistance_euclidean.
  destruct (Rleb (euclideanDistance observer target) 0 || Rleb frequencyHz 0);
    [reflexivity |].
  destruct satGain, rxGain; reflexivity.
Qed.

(** C6.  For a positive observer-target distance [d] and a positive
    frequency [f], [calculateSignalStrength] returns exactly
    [transmitPowerDbw + satAntennaGainDbi + rxAntennaGainDbi - FSPL + 30],
    with [FSPL = 20 log10 d + 20 log10 f + 20 log10 (4 PI / c)],
    [c = 299792458] and [d] the Euclidean distance of the two points; an
    antenna gain that is not given counts as 0. *)
Theorem calculateSignalStrength_friis
    (observer target : Vec3 R) (transmitPowerDbw frequencyHz : R)
    (satAntennaGainDbi rxAntennaGainDbi : option R) :
  0 < euclideanDistance observer target ->
  0 < frequencyHz ->
  calculateSignalStrength
    (signalArgs observer target transmitPowerDbw frequencyHz
                satAntennaGainDbi rxAntennaGainDbi)
  = Ok (Dbm (transmitPowerDbw + gainOrZero satAntennaGainDbi
             + gainOrZero rxAntennaGainDbi
             - FSPL (euclideanDistance observer target) frequencyHz + 30)).
Proof.
  intros Hd Hf. rewrite calculateSignalStrength_eq.
  assert (Hd' : Rleb (euclideanDistance observer target) 0 = false)
    by (apply Rleb_false; exact Hd).
  assert (Hf' : Rleb frequencyHz 0 = false) by (apply Rleb_false; exact Hf).
  rewrite Hd', Hf'. reflexivity.
Qed.

Lemma testLink_distance : euclideanDistance testAircraft testSatellite = 19990000.
Proof.
  unfold euclideanDistance, testAircraft, testSatellite; cbn [vx vy vz].
  match goal with
  | |- sqrt ?a = _ => replace a with (19990000 * 19990000) by ring
  end.
  apply sqrt_square. lra.
Qed.

Lemma calculateSignalStrength_friis_witness :
  0 < euclideanDistance testAircraft testSatellite /\
  0 < testFrequency /\
  calculateSignalStrength
    (signalArgs testAircraft testSatellite 20 testFrequency (Some 13) (Some 3))
  = Ok (Dbm (20 + gainOrZero (Some 13) + gainOrZero (Some 3)
             - FSPL (euclideanDistance testAircraft testSatellite) testFrequency
             + 30)).
Proof.
  assert (Hd : 0 < euclideanDistance testAircraft testSatellite)
    by (rewrite testLink_distance; lra).
  assert (Hf : 0 < testFrequency) by (unfold testFrequency; lra).
  split; [exact Hd | split; [exact Hf |]].
  apply (calculateSignalStrength_friis testAircraft testSatellite 20
           testFrequency (Some 13) (Some 3) Hd Hf).
Defined.

(** ** Binary64 numbers that are not finite *)

Lemma finiteNumber_spec (x : float) :
  finiteNumber x <->
  match Prim2SF x with
  | S754_zero _ | S754_finite _ _ _ => True
  | S754_infinity _ | S754_nan => False
  end.
Proof.
  unfold finiteNumber, realValue.
  destruct (Prim2SF x); split; try tauto; try discriminate; intros _; discriminate.
Qed.

Lemma isNaN_not_finite (x : float) : isNaN x -> ~ finiteNumber x.
Proof. unfold isNaN. rewrite finiteNumber_spec. intros ->. tauto. Qed.

Lemma not_finite_add_l (x y : float) :
  ~ finiteNumber x -> ~ finiteNumber (PrimFloat.add x y).
Proof.
  rewrite !finiteNumber_spec, add_spec.
  destruct (Prim2SF x) as [s | s | | s m ex]; try tauto;
    destruct (Prim2SF y) as [s' | s' | | s' m' ex']; unfold SF64add, SFadd;
    cbn;
    try tauto; destruct s, s'; tauto.
Qed.

Lemma not_finite_sub_l (x y : float) :
  ~ finiteNumber x -> ~ finiteNumber (PrimFloat.sub x y).
Proof.
  rewrite !finiteNumber_spec, sub_spec.
  destruct (Prim2SF x) as [s | s | | s m ex]; try tauto;
    destruct (Prim2SF y) as [s' | s' | | s' m' ex']; unfold SF64sub, SFsub;
    cbn;
    try tauto; destruct s, s'; tauto.
Qed.

Lemma not_finite_sub_r (x y : float) :
  ~ finiteNumber y -> ~ finiteNumber (PrimFloat.sub x y).
Proof.
  rewrite !finiteNumber_spec, sub_spec.
  destruct (Prim2SF y) as [s' | s' | | s' m' ex']; try tauto;
    destruct (Prim2SF x) as [s | s | | s m ex]; unfold SF64sub, SFsub;
    cbn;
    try tauto; destruct s, s'; tauto.
Qed.

(** ** signalStrengthCalculator in binary64 *)

(** The function on present parameters, in any arithmetic. *)
Lemma calculateSignalStrength_present {num : Type} `{MathLib num}
    (observer target : Vec3 num) (transmitPowerDbw frequencyHz : num)
    (satGain rxGain : option num) :
  calculateSignalStrength
    (signalArgs observer target transmitPowerDbw frequencyHz satGain rxGain)
  = if leb (calculateDistance observer target) (lit 0) || leb frequencyHz (lit 0)
    then Ok NegativeInfinity
    else Ok (Dbm (add (sub (add (add transmitPowerDbw (withDefault satGain (lit 0)))
                                (withDefault rxGain (lit 0)))
                           (add (add (mul (lit 20)
                                          (Math_log10 (calculateDistance observer target)))
                                     (mul (lit 20) (Math_log10 frequencyHz)))
                                (mul (lit 20) (Math_log10 FOUR_PI_OVER_C))))
                      (lit 30))).
Proof. reflexivity. Qed.

(** C7, counterexample.  In binary64, with every parameter present, a
    positive distance and a positive frequency, the value returned is not
    finite: NaN for a transmit power that is NaN, whatever the engine's
    [Math.log10]; and NaN or an infinity for the link from 1e200 m away,
    whose distance overflows to [Infinity], for every engine whose
    [Math.log10(Infinity)] is [Infinity], as ECMAScript has it. *)
Lemma finite_value_fails_binary64 :
  (calculateDistance linkAircraft linkSatellite = 19990000%float /\
   linkFrequency = 1575420000%float /\
   forall engine : MathLib float,
   exists v : float,
     calculateSignalStrength
       (signalArgs linkAircraft linkSatellite nan linkFrequency None None)
     = Ok (Dbm v) /\ ~ finiteNumber v) /\
  (realPoint farAircraft <> None /\
   calculateDistance farAircraft earthCentre = infinity /\
   forall engine : MathLib float,
   Math_log10 infinity = infinity ->
   exists v : float,
     calculateSignalStrength
       (signalArgs farAircraft earthCentre (lit 20) linkFrequency None None)
     = Ok (Dbm v) /\ ~ finiteNumber v).
Proof.
  split.
  - split; [vm_compute; reflexivity | split; [vm_compute; reflexivity |]].
    intros engine. rewrite calculateSignalStrength_present.
    replace (leb (calculateDistance linkAircraft linkSatellite) (lit 0)
             || leb linkFrequency (lit 0)) with false
      by (vm_compute; reflexivity).
    eexists. split; [reflexivity |].
    apply not_finite_add_l, not_finite_sub_l, not_finite_add_l, not_finite_add_l.
    apply isNaN_not_finite. reflexivity.
  - split; [vm_compute; discriminate | split; [vm_compute; reflexivity |]].
    intros engine Hlog. rewrite calculateSignalStrength_present.
    replace (leb (calculateDistance farAircraft earthCentre) (lit 0)
             || leb linkFrequency (lit 0)) with false
      by (vm_compute; reflexivity).
    eexists. split; [reflexivity |].
    apply not_finite_add_l, not_finite_sub_r, not_finite_add_l, not_finite_add_l.
    replace (calculateDistance farAircraft earthCentre) with infinity
      by (vm_compute; reflexivity).
    rewrite Hlog.
    replace (mul (lit 20) infinity) with infinity by (vm_compute; reflexivity).
    rewrite finiteNumber_spec. vm_compute. tauto.
Qed.

(** C7 as the code has it.  With all required parameters present,
    [calculateSignalStrength] never throws, in any arithmetic: where its
    test [distance <= 0 || frequency <= 0] holds it returns the sentinel
    [-Infinity], and on every other input the number
    [power + gains - FSPL + 30].  In exact arithmetic both logarithms of
    that number are taken of positive numbers; in binary64 the number can
    be NaN or an infinity. *)
Theorem calculateSignalStrength_sentinel
    (observer target : Vec3 R) (transmitPowerDbw frequencyHz : R)
    (satAntennaGainDbi rxAntennaGainDbi : option R) :
  let result :=
    calculateSignalStrength
      (signalArgs observer target transmitPowerDbw frequencyHz
                  satAntennaGainDbi rxAntennaGainDbi) in
  (euclideanDistance observer target <= 0 \/ frequencyHz <= 0 ->
   result = Ok NegativeInfinity) /\
  (~ (euclideanDistance observer target <= 0 \/ frequencyHz <= 0) ->
   0 < euclideanDistance observer target /\ 0 < frequencyHz /\
   result = Ok (Dbm (transmitPowerDbw + gainOrZero satAntennaGainDbi
                     + gainOrZero rxAntennaGainDbi
                     - FSPL (euclideanDistance observer target) frequencyHz
                     + 30))) /\
  (forall (num : Type) (N : Number num) (engine : MathLib num)
          (p q : Vec3 num) (power frequency : num) (satGain rxGain : option num),
      let distance := calculateDistance p q in
      let fslp := add (add (mul (lit 20) (Math_log10 distance))
                           (mul (lit 20) (Math_log10 frequency)))
                      (mul (lit 20) (Math_log10 FOUR_PI_OVER_C)) in
      exists s : SignalStrength num,
        calculateSignalStrength (signalArgs p q power frequency satGain rxGain)
        = Ok s /\
        (leb distance (lit 0) || leb frequency (lit 0) = true ->
         s = NegativeInfinity) /\
        (leb distance (lit 0) || leb frequency (lit 0) = false ->
         s = Dbm (add (sub (add (add power (withDefault satGain (lit 0)))
                                (withDefault rxGain (lit 0)))
                           fslp)
                      (lit 30)))).
Proof.
  cbv zeta. rewrite calculateSignalStrength_eq. split; [| split].
  - intros Hdeg.
    assert (Hb : Rleb (euclideanDistance observer target) 0 || Rleb frequencyHz 0
                 = true).
    { apply orb_true_iff. destruct Hdeg as [Hd | Hf]; [left | right];
        apply Rleb_true; assumption. }
    rewrite Hb. reflexivity.
  - intros Hok.
    split; [lra | split; [lra |]].
    destruct (Rleb (euclideanDistance observer target) 0 || Rleb frequencyHz 0)
      eqn:Hb; [| reflexivity].
    exfalso. apply Hok. apply orb_true_iff in Hb.
    destruct Hb as [Hd | Hf]; [left | right]; apply Rleb_true; assumption.
  - intros num N engine p q power frequency satGain rxGain. cbv zeta.
    rewrite calculateSignalStrength_present.
    destruct (leb (calculateDistance p q) (lit 0) || leb frequency (lit 0)).
    + eexists. split; [reflexivity |]. split; [reflexivity | discriminate].
    + eexists. split; [reflexivity |]. split; [discriminate | reflexivity].
Qed.

Lemma calculateSignalStrength_sentinel_witness :
  ((euclideanDistance testAircraft testAircraft <= 0 \/ testFrequency <= 0) /\
   calculateSignalStrength
     (signalArgs testAircraft testAircraft 20 testFrequency None None)
   = Ok NegativeInfinity) /\
  (~ (euclideanDistance testAircraft testSatellite <= 0 \/ testFrequency <= 0) /\
   calculateSignalStrength
     (signalArgs testAircraft testSatellite 20 testFrequency None None)
   = Ok (Dbm (20 + gainOrZero None + gainOrZero None
              - FSPL (euclideanDistance testAircraft testSatellite) testFrequency
              + 30))).
Proof.
  assert (Hzero : euclideanDistance testAircraft testAircraft <= 0).
  { unfold euclideanDistance, testAircraft; cbn [vx vy vz].
    match goal with
    | |- sqrt ?a <= _ => replace a with 0 by ring
    end.
    rewrite sqrt_0. lra. }
  assert (Hpos : ~ (euclideanDistance testAircraft testSatellite <= 0
                    \/ testFrequency <= 0)).
  { rewrite testLink_distance. unfold testFrequency. lra. }
  split; (split; [try (left; exact Hzero); try exact Hpos |]).
  - apply (proj1 (calculateSignalStrength_sentinel testAircraft testAircraft 20
                    testFrequency None None)).
    left. exact Hzero.
  - apply (proj1 (proj2 (calculateSignalStrength_sentinel testAircraft testSatellite
                           20 testFrequency None None))).
    exact Hpos.
Defined.

(** ** coordinateConverter *)

(** Whatever the position, the composition returns the same fixed value. *)
Lemma llaRoundTrip_fixed {num : Type} `{Number num} (p : Lla num) :
  llaRoundTrip p = Ok (mkLla (dec 1163974 4) (dec 399093 4) (dec 500 1)).
Proof. reflexivity. Qed.

Lemma bodyRoundTrip_fixed {num : Type} `{Number num}
    (aircraftPositionLla : Lla num) (aircraftAttitude : Attitude num)
    (bodyCoord : Vec3 num) :
  bodyRoundTrip aircraftPositionLla aircraftAttitude bodyCoord
  = Ok (mkVec3 (dec 100 1) (dec 0 1) (dec 0 1)).
Proof. reflexivity. Qed.

(** C1.  What the code does at longitude 0, latitude 0, altitude 0:
    [ecefToLla(llaToEcef(p))] is longitude 116.3974, latitude 39.9093,
    altitude 50, in exact arithmetic and in binary64.  The altitude is off by
    50 m, more than 1e-6 m, and the longitude by 116.3974 degrees, more than
    1e-9 rad. *)
Theorem llaRoundTrip_origin :
  llaRoundTrip (num := R) originLla
    = Ok (mkLla (1163974 / 10000) (399093 / 10000) 50) /\
  llaRoundTrip (num := float) originLla
    = Ok (mkLla 116.3974%float 39.9093%float 50%float) /\
  1 / 1000000 < Rabs (50 - altitude (originLla (num := R))) /\
  1 / 1000000000
    < Rabs (1163974 / 10000 - longitude (originLla (num := R))) * (PI / 180).
Proof.
  split; [| split; [| split]].
  - rewrite llaRoundTrip_fixed. unfold dec; cbn. f_equal. f_equal; lra.
  - vm_compute. reflexivity.
  - cbn. rewrite Rabs_pos_eq; lra.
  - cbn. rewrite Rabs_pos_eq by lra. pose proof PI2_3_2. lra.
Qed.

(** C8.  What the code does for the aircraft of the tests and the body
    offset (0, 1000, 0): [ecefToBody] after [bodyToEcef] returns
    (10, 0, 0), in exact arithmetic and in binary64; the y coordinate is off
    by 1000 m. *)
Theorem bodyRoundTrip_rightWing :
  bodyRoundTrip (num := R) testAircraftLla levelAttitude rightWingOffset
    = Ok (mkVec3 10 0 0) /\
  bodyRoundTrip (num := float) testAircraftLla levelAttitude rightWingOffset
    = Ok (mkVec3 10%float 0%float 0%float) /\
  Rabs (0 - vy (rightWingOffset (num := R))) = 1000.
Proof.
  split; [| split].
  - rewrite bodyRoundTrip_fixed. unfold dec; cbn. f_equal. f_equal; lra.
  - vm_compute. reflexivity.
  - cbn. rewrite Rabs_left; lra.
Qed.

(** ** satelliteCalculator: the checks before the orbit computation *)

Lemma truthyString_nonempty {id : string} :
  id <> EmptyString -> truthyString (Some id) = Some id.
Proof.
  intros Hne. unfold truthyString.
  destruct (String.eqb id EmptyString) eqn:Heq; [| reflexivity].
  apply String.eqb_eq in Heq. contradiction.
Qed.

Lemma findSatellite_none {num : Type} {rinex : RinexData num} {id : string} :
  ~ hasEntry rinex id -> findSatellite rinex id = None.
Proof.
  intros Hno. unfold findSatellite.
  destruct (satellites rinex) as [sats |] eqn:Hsats; [| reflexivity].
  destruct (find _ sats) as [sat |] eqn:Hfind; [| reflexivity].
  exfalso. apply Hno. apply find_some in Hfind as [Hin Heq].
  apply String.eqb_eq in Heq. exists sats, sat. auto.
Qed.

Lemma findSatellite_some {num : Type} {rinex : RinexData num} {id : string} :
  hasEntry rinex id ->
  exists sats sat, satellites rinex = Some sats /\ In sat sats /\
                   sat_id sat = id /\ findSatellite rinex id = Some sat.
Proof.
  intros [sats [sat0 [Hsats [Hin Hid]]]]. unfold findSatellite. rewrite Hsats.
  destruct (find _ sats) as [sat |] eqn:Hfind.
  - pose proof (find_some _ _ Hfind) as [Hin' Heq].
    apply String.eqb_eq in Heq. exists sats, sat. auto.
  - exfalso. pose proof (find_none _ _ Hfind _ Hin) as Hneq. cbn in Hneq.
    apply String.eqb_neq in Hneq. contradiction.
Qed.

Section SatelliteChecks.
Context {num : Type} `{MathLib num}.
Variables (rinex : RinexData num) (id : string).
Hypothesis id_nonempty : id <> EmptyString.

(** Both revisions on present parameters. *)
Lemma calculateSatellitePosition_eq (t : Date) :
  calculateSatellitePosition (satelliteArgs rinex id t)
  = match findSatellite rinex id with
    | None => Throw (SatelliteNotFound id)
    | Some satelliteData =>
      match orbitalParameters satelliteData with
      | None => Throw (MissingOrbitalParameters id)
      | Some orbitalParams =>
        if outsideValidity (timeParameters satelliteData) t
        then Throw OutOfValidityRange
        else Ok (propagate orbitalParams t)
      end
    end.
Proof.
  unfold calculateSatellitePosition, satelliteArgs.
  cbn [rinexData satelliteId timestamp].
  rewrite (truthyString_nonempty id_nonempty). reflexivity.
Qed.

Lemma stub_calculateSatellitePosition_eq (t : Date) :
  SatelliteCalculatorStub.calculateSatellitePosition (satelliteArgs rinex id t)
  = match findSatellite rinex id with
    | None => Throw (SatelliteNotFound id)
    | Some satelliteData =>
      match orbitalParameters satelliteData with
      | None => Throw (MissingOrbitalParameters id)
      | Some orbitalParams =>
          Ok (mkVec3 (dec 123456789 1) (dec 98765432 1) (dec 34567891 1))
      end
    end.
Proof.
  unfold SatelliteCalculatorStub.calculateSatellitePosition, satelliteArgs.
  cbn [rinexData satelliteId timestamp].
  rewrite (truthyString_nonempty id_nonempty). reflexivity.
Qed.

Lemma missing_data_errors (t : Date) :
  (~ hasEntry rinex id ->
   calculateSatellitePosition (satelliteArgs rinex id t)
     = Throw (SatelliteNotFound id) /\
   SatelliteCalculatorStub.calculateSatellitePosition (satelliteArgs rinex id t)
     = Throw (SatelliteNotFound id)) /\
  (hasEntry rinex id -> lacksOrbitalParameters rinex id ->
   calculateSatellitePosition (satelliteArgs rinex id t)
     = Throw (MissingOrbitalParameters id) /\
   SatelliteCalculatorStub.calculateSatellitePosition (satelliteArgs rinex id t)
     = Throw (MissingOrbitalParameters id)).
Proof.
  rewrite calculateSatellitePosition_eq, stub_calculateSatellitePosition_eq.
  split.
  - intros Hno. rewrite (findSatellite_none Hno). split; reflexivity.
  - intros Hhas Hlacks.
    destruct (findSatellite_some Hhas) as [sats [sat [Hsats [Hin [Hid Hfind]]]]].
    rewrite Hfind, (Hlacks sats sat Hsats Hin Hid). split; reflexivity.
Qed.
End SatelliteChecks.

Lemma failsWith_not_returns {A : Type} {r : Result A} {k : ErrorKind} :
  failsWith r k -> ~ returnsValue r.
Proof. intros [t [-> _]] [a Ha]. discriminate. Qed.

(** C9.  Called with a non-empty satellite id, propagation fails with a
    [NotFoundError] when the ephemeris data has no entry for the id, and
    with a [DataError] when it has one and the entries for the id lack their
    orbital parameters; in both cases no position is returned.  This holds
    for both revisions of the satellite calculator. *)
Theorem calculateSatellitePosition_missing_data
    {num : Type} `{MathLib num} (rinex : RinexData num) (id : string) (t : Date) :
  id <> EmptyString ->
  (~ hasEntry rinex id ->
   (failsWith (calculateSatellitePosition (satelliteArgs rinex id t)) NotFoundError /\
    ~ returnsValue (calculateSatellitePosition (satelliteArgs rinex id t))) /\
   (failsWith (SatelliteCalculatorStub.calculateSatellitePosition
                 (satelliteArgs rinex id t)) NotFoundError /\
    ~ returnsValue (SatelliteCalculatorStub.calculateSatellitePosition
                      (satelliteArgs rinex id t)))) /\
  (hasEntry rinex id -> lacksOrbitalParameters rinex id ->
   (failsWith (calculateSatellitePosition (satelliteArgs rinex id t)) DataError /\
    ~ returnsValue (calculateSatellitePosition (satelliteArgs rinex id t))) /\
   (failsWith (SatelliteCalculatorStub.calculateSatellitePosition
                 (satelliteArgs rinex id t)) DataError /\
    ~ returnsValue (SatelliteCalculatorStub.calculateSatellitePosition
                      (satelliteArgs rinex id t)))).
Proof.
  intros Hid.
  destruct (missing_data_errors rinex id Hid t) as [Hnone Hlacks].
  assert (Hfail : forall (r : Result (Vec3 num)) thrown k,
             r = Throw thrown -> errorKind thrown = k ->
             failsWith r k /\ ~ returnsValue r).
  { intros r thrown k Hr Hk.
    assert (Hf : failsWith r k) by (exists thrown; auto).
    split; [exact Hf | exact (failsWith_not_returns Hf)]. }
  split.
  - intros Hno. destruct (Hnone Hno) as [H1 H2].
    split; eapply Hfail; eauto.
  - intros Hhas Hlack. destruct (Hlacks Hhas Hlack) as [H1 H2].
    split; eapply Hfail; eauto.
Qed.

Lemma exampleRinexData_no_G01 : ~ hasEntry exampleRinexData "G01".
Proof.
  intros [sats [sat [Hsats [Hin Hid]]]]. cbn in Hsats.
  injection Hsats as <-. destruct Hin as [<- | []]. discriminate.
Qed.

Lemma bareRinexData_B01 :
  hasEntry (bareRinexData (num := R)) "B01" /\
  lacksOrbitalParameters (bareRinexData (num := R)) "B01".
Proof.
  split.
  - exists [bareEntry], bareEntry. cbn. auto.
  - intros sats sat Hsats Hin _. cbn in Hsats. injection Hsats as <-.
    destruct Hin as [<- | []]. reflexivity.
Qed.

Lemma calculateSatellitePosition_missing_data_witness :
  ("G01"%string <> EmptyString /\
   ~ hasEntry exampleRinexData "G01" /\
   failsWith (calculateSatellitePosition
                (satelliteArgs (num := R) exampleRinexData "G01" exampleValidFrom))
             NotFoundError) /\
  ("B01"%string <> EmptyString /\
   hasEntry (bareRinexData (num := R)) "B01" /\
   lacksOrbitalParameters (bareRinexData (num := R)) "B01" /\
   failsWith (calculateSatellitePosition
                (satelliteArgs (num := R) bareRinexData "B01" exampleValidFrom))
             DataError).
Proof.
  assert (HG : "G01"%string <> EmptyString) by discriminate.
  assert (HB : "B01"%string <> EmptyString) by discriminate.
  split.
  - split; [exact HG | split; [exact exampleRinexData_no_G01 |]].
    exact (proj1 (proj1 (proj1
             (calculateSatellitePosition_missing_data
                exampleRinexData "G01" exampleValidFrom HG)
             exampleRinexData_no_G01))).
  - split; [exact HB | split; [exact (proj1 bareRinexData_B01) |
                               split; [exact (proj2 bareRinexData_B01) |]]].
    exact (proj1 (proj1 (proj2
             (calculateSatellitePosition_missing_data
                bareRinexData "B01" exampleValidFrom HB)
             (proj1 bareRinexData_B01) (proj2 bareRinexData_B01)))).
Defined.

(** C10.  When the entry selected for the id has orbital parameters and its
    [timeParameters] is absent, or [validFrom] or [validTo] is, no validity
    check is made: for every timestamp the function returns the propagated
    position and never the out-of-range error. *)
Theorem calculateSatellitePosition_no_window
    {num : Type} `{MathLib num} (rinex : RinexData num) (id : string)
    (sat : SatelliteEntry num) (orbitalParams : OrbitalParameters num) :
  id <> EmptyString ->
  findSatellite rinex id = Some sat ->
  orbitalParameters sat = Some orbitalParams ->
  (timeParameters sat = None \/
   exists timeParams, timeParameters sat = Some timeParams /\
                      (validFrom timeParams = None \/ validTo timeParams = None)) ->
  forall t : Date,
    outsideValidity (timeParameters sat) t = false /\
    calculateSatellitePosition (satelliteArgs rinex id t)
      = Ok (propagate orbitalParams t).
Proof.
  intros Hid Hfind Hop Hwin t.
  assert (Hout : outsideValidity (timeParameters sat) t = false).
  { destruct Hwin as [-> | [tp [-> [Hv | Hv]]]]; cbn; [reflexivity | |].
    - rewrite Hv. reflexivity.
    - rewrite Hv. destruct (validFrom tp); reflexivity. }
  split; [exact Hout |].
  rewrite (calculateSatellitePosition_eq rinex id Hid t), Hfind, Hop, Hout.
  reflexivity.
Qed.

Lemma calculateSatellitePosition_no_window_witness :
  "B01"%string <> EmptyString /\
  findSatellite untimedRinexData "B01" = Some untimedEntry /\
  orbitalParameters untimedEntry = Some exampleOrbitalParameters /\
  timeParameters untimedEntry = None /\
  calculateSatellitePosition
    (satelliteArgs (num := R) untimedRinexData "B01"
                   (exampleValidTo + 3600000)%Z)
  = Ok (propagate exampleOrbitalParameters (exampleValidTo + 3600000)%Z).
Proof.
  assert (HB : "B01"%string <> EmptyString) by discriminate.
  split; [exact HB | split; [reflexivity | split; [reflexivity |
                                                   split; [reflexivity |]]]].
  exact (proj2 (calculateSatellitePosition_no_window
                  untimedRinexData "B01" untimedEntry
                  exampleOrbitalParameters HB eq_refl eq_refl
                  (or_introl eq_refl) (exampleValidTo + 3600000)%Z)).
Defined.

(** C4.  For an entry with orbital parameters and a validity window
    [validFrom <= validTo], propagation at [validFrom] and at [validTo]
    returns a position, and propagation one second after [validTo] fails
    with the out-of-validity-range error and returns no position. *)
Theorem calculateSatellitePosition_validity_boundary
    {num : Type} `{MathLib num} (rinex : RinexData num) (id : string)
    (sat : SatelliteEntry num) (orbitalParams : OrbitalParameters num)
    (timeParams : TimeParameters) (from to : Date) :
  id <> EmptyString ->
  findSatellite rinex id = Some sat ->
  orbitalParameters sat = Some orbitalParams ->
  timeParameters sat = Some timeParams ->
  validFrom timeParams = Some from ->
  validTo timeParams = Some to ->
  (from <= to)%Z ->
  calculateSatellitePosition (satelliteArgs rinex id from)
    = Ok (propagate orbitalParams from) /\
  calculateSatellitePosition (satelliteArgs rinex id to)
    = Ok (propagate orbitalParams to) /\
  calculateSatellitePosition (satelliteArgs rinex id (to + 1000)%Z)
    = Throw OutOfValidityRange /\
  failsWith (calculateSatellitePosition (satelliteArgs rinex id (to + 1000)%Z))
            RangeError /\
  ~ returnsValue (calculateSatellitePosition (satelliteArgs rinex id (to + 1000)%Z)).
Proof.
  intros Hid Hfind Hop Htp Hfrom Hto Hle.
  assert (Hout : forall t,
             outsideValidity (timeParameters sat) t
             = ((t <? from) || (t >? to))%Z).
  { intros t. rewrite Htp. cbn. rewrite Hfrom, Hto. reflexivity. }
  assert (Heq : forall t,
             calculateSatellitePosition (satelliteArgs rinex id t)
             = if ((t <? from) || (t >? to))%Z then Throw OutOfValidityRange
               else Ok (propagate orbitalParams t)).
  { intros t. rewrite (calculateSatellitePosition_eq rinex id Hid t), Hfind, Hop, Hout.
    reflexivity. }
  assert (Hlate : calculateSatellitePosition (satelliteArgs rinex id (to + 1000)%Z)
                  = Throw OutOfValidityRange).
  { rewrite Heq.
    replace ((to + 1000 <? from) || (to + 1000 >? to))%Z with true; [reflexivity |].
    symmetry. apply orb_true_iff. right. apply Z.gtb_lt. lia. }
  assert (Hfails : failsWith
             (calculateSatellitePosition (satelliteArgs rinex id (to + 1000)%Z))
             RangeError).
  { exists OutOfValidityRange. split; [exact Hlate | reflexivity]. }
  repeat split.
  - rewrite Heq.
    replace ((from <? from) || (from >? to))%Z with false; [reflexivity |].
    symmetry. apply orb_false_iff. split; [apply Z.ltb_ge; lia |].
    rewrite Z.gtb_ltb. apply Z.ltb_ge. lia.
  - rewrite Heq.
    replace ((to <? from) || (to >? to))%Z with false; [reflexivity |].
    symmetry. apply orb_false_iff. split; [apply Z.ltb_ge; lia |].
    rewrite Z.gtb_ltb. apply Z.ltb_ge. lia.
  - exact Hlate.
  - exact Hfails.
  - exact (failsWith_not_returns Hfails).
Qed.

Lemma calculateSatellitePosition_validity_boundary_witness :
  "B01"%string <> EmptyString /\
  findSatellite exampleRinexData "B01" = Some exampleEntry /\
  (exampleValidFrom <= exampleValidTo)%Z /\
  calculateSatellitePosition
    (satelliteArgs (num := R) exampleRinexData "B01" exampleValidFrom)
    = Ok (propagate exampleOrbitalParameters exampleValidFrom) /\
  calculateSatellitePosition
    (satelliteArgs (num := R) exampleRinexData "B01" exampleValidTo)
    = Ok (propagate exampleOrbitalParameters exampleValidTo) /\
  calculateSatellitePosition
    (satelliteArgs (num := R) exampleRinexData "B01" (exampleValidTo + 1000)%Z)
    = Throw OutOfValidityRange.
Proof.
  assert (HB : "B01"%string <> EmptyString) by discriminate.
  assert (Hle : (exampleValidFrom <= exampleValidTo)%Z)
    by (unfold exampleValidFrom, exampleValidTo; lia).
  pose proof (calculateSatellitePosition_validity_boundary
                exampleRinexData "B01" exampleEntry
                exampleOrbitalParameters
                {| validFrom := Some exampleValidFrom;
                   validTo := Some exampleValidTo |}
                exampleValidFrom exampleValidTo
                HB eq_refl eq_refl eq_refl eq_refl eq_refl Hle)
    as [Hfrom [Hto [Hlate _]]].
  split; [exact HB | split; [reflexivity | split; [exact Hle |]]].
  split; [exact Hfrom | split; [exact Hto | exact Hlate]].
Defined.

(** ** satelliteCalculator: the Newton-Raphson loop *)

Section KeplerLoop.
Context {num : Type} `{MathLib num}.
Variables (ecc normalizedMk : num).

Lemma keplerLoop_unfold (fuel : nat) (Ek0 : num) (iterations0 : nat) :
  keplerLoop fuel ecc normalizedMk Ek0 iterations0
  = let left := {| Ek := newtonStep ecc normalizedMk Ek0;
                   Ek_prev := Ek0;
                   iterations := S iterations0 |} in
    if loopTest left then
      match fuel with
      | S fuel' => keplerLoop fuel' ecc normalizedMk
                     (newtonStep ecc normalizedMk Ek0) (S iterations0)
      | O => left
      end
    else left.
Proof. destruct fuel; reflexivity. Qed.

(** The loop is left with [Ek] one Newton step after [Ek_prev], after at
    most 100 steps, and with the [while] test false. *)
Lemma keplerLoop_left (fuel : nat) :
  forall (Ek0 : num) (iterations0 : nat),
    (99 <= iterations0 + fuel)%nat ->
    (iterations0 < 100)%nat ->
    let st := keplerLoop fuel ecc normalizedMk Ek0 iterations0 in
    Ek st = newtonStep ecc normalizedMk (Ek_prev st) /\
    (iterations0 < iterations st <= 100)%nat /\
    loopTest st = false.
Proof.
  induction fuel as [| fuel IH]; intros Ek0 iterations0 Hfuel Hit;
    cbv zeta; rewrite keplerLoop_unfold; cbv zeta;
    destruct (loopTest _) eqn:Htest.
  - exfalso. unfold loopTest in Htest. cbn [iterations] in Htest.
    apply andb_prop in Htest as [_ Hlt]. apply Nat.ltb_lt in Hlt. lia.
  - cbn [Ek Ek_prev iterations]. repeat split; [lia | lia | exact Htest].
  - assert (Hlt : (S iterations0 < 100)%nat).
    { unfold loopTest in Htest. cbn [iterations] in Htest.
      apply andb_prop in Htest as [_ Hlt]. apply Nat.ltb_lt in Hlt. exact Hlt. }
    destruct (IH (newtonStep ecc normalizedMk Ek0) (S iterations0))
      as [Hstep [Hbound Hleft]]; [lia | lia |].
    repeat split; [exact Hstep | lia | lia | exact Hleft].
  - cbn [Ek Ek_prev iterations]. repeat split; [lia | lia | exact Htest].
Qed.

Lemma solveKepler_left :
  let st := solveKepler ecc normalizedMk in
  Ek st = newtonStep ecc normalizedMk (Ek_prev st) /\
  (1 <= iterations st <= 100)%nat /\
  loopTest st = false.
Proof.
  destruct (keplerLoop_left 99 normalizedMk 0) as [Hstep [Hbound Hleft]];
    [lia | lia |].
  cbv zeta. unfold solveKepler. repeat split; [exact Hstep | lia | lia | exact Hleft].
Qed.

End KeplerLoop.

(** ** Bounds on sine, cosine and PI *)

Lemma INR_lit (n : nat) (z : Z) : Z.of_nat n = z -> INR n = IZR z.
Proof. intros <-. apply INR_IZR_INZ. Qed.

Lemma sin_lb_poly (a : R) : sin_lb a = a - a ^ 3 / 6 + a ^ 5 / 120 - a ^ 7 / 5040.
Proof.
  unfold sin_lb, sin_approx, sin_term, sum_f_R0.
  rewrite (INR_lit (fact (2 * 0 + 1)) 1), (INR_lit (fact (2 * 1 + 1)) 6),
          (INR_lit (fact (2 * 2 + 1)) 120), (INR_lit (fact (2 * 3 + 1)) 5040)
    by reflexivity.
  cbn [Nat.mul Nat.add pow]. field.
Qed.

Lemma cos_lb_poly (a : R) : cos_lb a = 1 - a ^ 2 / 2 + a ^ 4 / 24 - a ^ 6 / 720.
Proof.
  unfold cos_lb, cos_approx, cos_term, sum_f_R0.
  rewrite (INR_lit (fact (2 * 0)) 1), (INR_lit (fact (2 * 1)) 2),
          (INR_lit (fact (2 * 2)) 24), (INR_lit (fact (2 * 3)) 720)
    by reflexivity.
  cbn [Nat.mul Nat.add pow]. field.
Qed.

Lemma PI_lower : 3135 / 1000 < PI.
Proof.
  pose proof (PI_2_3_7_ineq 0) as [Hlb _].
  unfold tg_alt, PI_2_3_7_tg, Ratan_seq in Hlb.
  cbn -[INR] in Hlb.
  rewrite (INR_lit 1 1), (INR_lit 3 3) in Hlb by reflexivity.
  lra.
Qed.

Lemma sin_small (h : R) : 0 <= h <= 1 -> h - h ^ 3 / 6 <= sin h <= h.
Proof.
  intros [H0 H1]. split.
  - assert (Hpi : h <= PI) by (pose proof PI_lower; lra).
    destruct (SIN h H0 Hpi) as [Hlb _]. rewrite sin_lb_poly in Hlb.
    assert (Hrest : 0 <= h ^ 5 / 120 - h ^ 7 / 5040).
    { replace (h ^ 5 / 120 - h ^ 7 / 5040)
        with (h ^ 5 * ((42 - h * h) / 5040)) by field.
      apply Rmult_le_pos; [apply pow_le; lra | nra]. }
    lra.
  - destruct (Req_dec h 0) as [-> | Hne]; [rewrite sin_0; lra |].
    left. apply sin_lt_x. lra.
Qed.

Lemma cos_small (h : R) : -1 <= h <= 1 -> 1 - h ^ 2 / 2 <= cos h <= 1.
Proof.
  intros [H0 H1]. split; [| apply COS_bound].
  assert (Hlo : - PI / 2 <= h) by (pose proof PI_lower; lra).
  assert (Hhi : h <= PI / 2) by (pose proof PI_lower; lra).
  destruct (COS h Hlo Hhi) as [Hlb _]. rewrite cos_lb_poly in Hlb.
  assert (Hrest : 0 <= h ^ 4 / 24 - h ^ 6 / 720).
  { replace (h ^ 4 / 24 - h ^ 6 / 720)
      with ((h ^ 2) ^ 2 * ((30 - h * h) / 720)) by field.
    apply Rmult_le_pos; [apply pow2_ge_0 | nra]. }
  lra.
Qed.

Lemma Rabs_le_inv (a b : R) : Rabs a <= b -> - b <= a <= b.
Proof. unfold Rabs. destruct (Rcase_abs a); lra. Qed.

(** The second-order remainder of the sine. *)
Lemma sin_remainder (E h : R) :
  Rabs h <= 1 -> Rabs (sin (E + h) - sin E - h * cos E) <= h ^ 2.
Proof.
  intros Hh. apply Rabs_le_inv in Hh.
  assert (Hcos : Rabs (cos h - 1) <= h ^ 2 / 2).
  { destruct (cos_small h) as [Hlo Hhi]; [lra |].
    apply Rabs_le. lra. }
  assert (Hsin : Rabs (sin h - h) <= h ^ 2 / 2).
  { destruct (Rle_dec 0 h) as [Hpos | Hneg].
    - destruct (sin_small h) as [Hlo Hhi]; [lra |].
      apply Rabs_le. nra.
    - destruct (sin_small (- h)) as [Hlo Hhi]; [lra |].
      rewrite sin_neg in Hlo, Hhi. apply Rabs_le. nra. }
  rewrite sin_plus.
  replace (sin E * cos h + cos E * sin h - sin E - h * cos E)
    with (sin E * (cos h - 1) + cos E * (sin h - h)) by ring.
  eapply Rle_trans; [apply Rabs_triang |].
  rewrite !Rabs_mult.
  pose proof (SIN_bound E) as HsE. pose proof (COS_bound E) as HcE.
  assert (HsE' : Rabs (sin E) <= 1) by (apply Rabs_le; lra).
  assert (HcE' : Rabs (cos E) <= 1) by (apply Rabs_le; lra).
  pose proof (Rabs_pos (cos h - 1)). pose proof (Rabs_pos (sin h - h)).
  pose proof (Rabs_pos (sin E)). pose proof (Rabs_pos (cos E)).
  nra.
Qed.

Lemma newtonStep_R (ecc M E : R) :
  newtonStep ecc M E = E - (E - ecc * sin E - M) / (1 - ecc * cos E).
Proof. reflexivity. Qed.

Lemma tolerance_R : tolerance (num := R) = 1 / 1000000000000.
Proof. unfold tolerance, dec; cbn. reflexivity. Qed.

(** One Newton step leaves a residual of second order in the step. *)
Lemma newton_residual (ecc M E : R) :
  0 <= ecc < 1 ->
  Rabs (newtonStep ecc M E - E) <= 1 ->
  Rabs (keplerResidual ecc M (newtonStep ecc M E))
  <= ecc * (newtonStep ecc M E - E) ^ 2.
Proof.
  intros [He0 He1] Hstep. rewrite newtonStep_R in *.
  pose proof (COS_bound E) as HcE.
  assert (HD : 0 < 1 - ecc * cos E) by nra.
  set (D := 1 - ecc * cos E) in *.
  set (h := - ((E - ecc * sin E - M) / D)).
  replace (E - (E - ecc * sin E - M) / D) with (E + h) in * by (unfold h; ring).
  replace (E + h - E) with h in * by ring.
  assert (Hf : E - ecc * sin E - M = - h * D) by (unfold h; field; lra).
  unfold keplerResidual.
  replace (E + h - ecc * sin (E + h) - M)
    with (- ecc * (sin (E + h) - sin E - h * cos E))
    by (unfold D in Hf; nra).
  rewrite Rabs_mult, Rabs_Ropp, (Rabs_pos_eq ecc) by lra.
  apply Rmult_le_compat_l; [lra |]. apply sin_remainder. exact Hstep.
Qed.

(** C5 as the code has it.  In exact arithmetic, for [0 <= e < 1] and
    every mean anomaly, when the loop is left with the last two iterates at
    most 1e-12 apart, and so whenever it is left before the 100th
    iteration, the eccentric anomaly it returns satisfies
    [|E - e sin E - M| < 1e-12]. *)
Theorem solveKepler_residual_converged (ecc M : R) :
  0 <= ecc < 1 ->
  let st := solveKepler ecc M in
  (iterations st < 100)%nat \/ Rabs (Ek st - Ek_prev st) <= 1 / 1000000000000 ->
  Rabs (keplerResidual ecc M (Ek st)) < 1 / 1000000000000.
Proof.
  intros Hecc st Hconv.
  destruct (solveKepler_left ecc M) as [Hstep [_ Hleft]]. fold st in Hstep, Hleft.
  clearbody st.
  assert (Htol : Rabs (Ek st - Ek_prev st) <= 1 / 1000000000000).
  { destruct Hconv as [Hit | Htol]; [| exact Htol].
    unfold loopTest in Hleft. apply andb_false_iff in Hleft.
    destruct Hleft as [Hgt | Hcap].
    - unfold gtb in Hgt. cbn [ltb RNumber Math_abs sub] in Hgt.
      apply Rltb_false in Hgt.
      rewrite tolerance_R in Hgt. exact Hgt.
    - apply Nat.ltb_ge in Hcap. lia. }
  rewrite Hstep in Htol |- *.
  pose proof (newton_residual ecc M (Ek_prev st) Hecc) as Hres.
  assert (Hsmall : Rabs (newtonStep ecc M (Ek_prev st) - Ek_prev st) <= 1) by lra.
  specialize (Hres Hsmall).
  set (h := newtonStep ecc M (Ek_prev st) - Ek_prev st) in *.
  apply Rabs_le_inv in Htol.
  assert (Hsq : h ^ 2 <= 1 / 1000000000000 * (1 / 1000000000000)) by nra.
  nra.
Qed.

(** ** Enclosures are sound *)

Lemma floor_spec (a d : Z) : (0 < d)%Z -> IZR (a / d) * IZR d <= IZR a.
Proof.
  intros Hd. rewrite <- mult_IZR. apply IZR_le.
  rewrite Z.mul_comm. apply Z.mul_div_le. exact Hd.
Qed.

Lemma ceil_spec (a d : Z) : (0 < d)%Z -> IZR a <= IZR (- (- a / d)) * IZR d.
Proof.
  intros Hd. rewrite <- mult_IZR. apply IZR_le.
  pose proof (Z.mul_div_le (- a) d Hd). nia.
Qed.

(** The product of two reals in given ranges lies between the products of
    the ends. *)
Lemma corner_lower (a b c d x y : R) :
  a <= x <= b -> c <= y <= d ->
  a * c <= x * y \/ a * d <= x * y \/ b * c <= x * y \/ b * d <= x * y.
Proof.
  intros [Hax Hxb] [Hcy Hyd].
  destruct (Rle_dec 0 y) as [Hy | Hy].
  - destruct (Rle_dec 0 a) as [Ha | Ha].
    + left. nra.
    + right. left. nra.
  - destruct (Rle_dec 0 b) as [Hb | Hb].
    + right. right. left. nra.
    + right. right. right. nra.
Qed.

Lemma corner_upper (a b c d x y : R) :
  a <= x <= b -> c <= y <= d ->
  x * y <= a * c \/ x * y <= a * d \/ x * y <= b * c \/ x * y <= b * d.
Proof.
  intros Hx [Hcy Hyd].
  assert (Hy : - d <= - y <= - c) by lra.
  destruct (corner_lower a b (- d) (- c) x (- y) Hx Hy) as [H | [H | [H | H]]].
  - right. left. nra.
  - left. nra.
  - right. right. right. nra.
  - right. right. left. nra.
Qed.

Lemma quotient_lower (q a x c y d U t : R) :
  0 < c -> c <= y <= d -> a <= x -> 0 < U -> t * y = x * U ->
  (0 <= a -> q * d <= a * U) ->
  (a < 0 -> q * c <= a * U) ->
  q <= t.
Proof.
  intros Hc [Hcy Hyd] Hax HU Ht Hpos Hneg.
  assert (Hy : 0 < y) by lra.
  apply Rmult_le_reg_r with y; [exact Hy |]. rewrite Ht.
  destruct (Rle_dec 0 a) as [Ha | Ha].
  - specialize (Hpos Ha). destruct (Rle_dec 0 q) as [Hq | Hq]; nra.
  - assert (Ha' : a < 0) by lra. specialize (Hneg Ha').
    assert (Hq : q < 0) by nra. nra.
Qed.

Lemma quotient_upper (q b x c y d U t : R) :
  0 < c -> c <= y <= d -> x <= b -> 0 < U -> t * y = x * U ->
  (0 <= b -> b * U <= q * c) ->
  (b < 0 -> b * U <= q * d) ->
  t <= q.
Proof.
  intros Hc Hy Hxb HU Ht Hpos Hneg.
  assert (H : - q <= - t); [| lra].
  apply (quotient_lower (- q) (- b) (- x) c y d U (- t) Hc Hy); try lra.
  intros Hb. assert (Hb' : b <= 0) by lra.
  destruct (Req_dec b 0) as [-> | Hb0].
  - specialize (Hpos (Rle_refl 0)). nra.
  - assert (Hlt : b < 0) by lra. specialize (Hneg Hlt). lra.
Qed.

Ltac to_Z :=
  cbn [lower upper];
  repeat rewrite ?BigZ.spec_add, ?BigZ.spec_sub, ?BigZ.spec_opp, ?BigZ.spec_mul,
    ?BigZ.spec_div, ?BigZ.spec_min, ?BigZ.spec_max, ?BigZ.spec_of_Z,
    ?BigZ.spec_leb, ?BigZ.spec_ltb;
  change (BigZ.to_Z 0) with 0%Z;
  change (BigZ.to_Z 2) with 2%Z;
  change (BigZ.to_Z 1000000000000) with 1000000000000%Z.

Section EnclosuresSound.
Variable scale : bigZ.
Hypothesis scale_pos : (0 < BigZ.to_Z scale)%Z.

Local Notation "'U'" := (IZR (BigZ.to_Z scale)) (at level 0).

Lemma U_pos : 0 < U.
Proof. apply IZR_lt. exact scale_pos. Qed.

Lemma point_sound (n : bigZ) (x : R) :
  x * U = IZR (BigZ.to_Z n) -> encloses scale (point n) x.
Proof. intros Hx. unfold encloses, point. cbn [lower upper]. lra. Qed.

Lemma ratio_sound (n d : Z) :
  (0 < d)%Z -> (d * (BigZ.to_Z scale / d) = BigZ.to_Z scale)%Z ->
  encloses scale (ratio scale n d) (IZR n / IZR d).
Proof.
  intros Hd Hdiv. apply point_sound. to_Z.
  rewrite <- Hdiv at 1. rewrite !mult_IZR.
  assert (0 < IZR d) by (apply IZR_lt; exact Hd). field. lra.
Qed.

Lemma eone_sound : encloses scale (eone scale) 1.
Proof. apply point_sound. lra. Qed.

Lemma eadd_sound (X Y : Enclosure) (x y : R) :
  encloses scale X x -> encloses scale Y y ->
  encloses scale (eadd X Y) (x + y).
Proof.
  unfold encloses, eadd. intros Hx Hy. to_Z. rewrite !plus_IZR. lra.
Qed.

Lemma esub_sound (X Y : Enclosure) (x y : R) :
  encloses scale X x -> encloses scale Y y ->
  encloses scale (esub X Y) (x - y).
Proof.
  unfold encloses, esub. intros Hx Hy. to_Z. rewrite !minus_IZR. lra.
Qed.

Lemma eopp_sound (X : Enclosure) (x : R) :
  encloses scale X x -> encloses scale (eopp X) (- x).
Proof.
  unfold encloses, eopp. intros Hx. to_Z. rewrite !opp_IZR. lra.
Qed.

Lemma edouble_sound (X : Enclosure) (x : R) :
  encloses scale X x -> encloses scale (edouble X) (2 * x).
Proof.
  unfold encloses, edouble. intros Hx. to_Z. rewrite !mult_IZR. lra.
Qed.

Lemma emul_sound (X Y : Enclosure) (x y : R) :
  encloses scale X x -> encloses scale Y y ->
  encloses scale (emul scale X Y) (x * y).
Proof.
  unfold encloses, emul, ceilDiv. intros Hx Hy. cbv zeta. to_Z.
  set (lx := BigZ.to_Z (lower X)) in *. set (hx := BigZ.to_Z (upper X)) in *.
  set (ly := BigZ.to_Z (lower Y)) in *. set (hy := BigZ.to_Z (upper Y)) in *.
  pose proof U_pos as HU.
  set (mn := Z.min (Z.min (lx * ly) (lx * hy)) (Z.min (hx * ly) (hx * hy))).
  set (mx := Z.max (Z.max (lx * ly) (lx * hy)) (Z.max (hx * ly) (hx * hy))).
  assert (Hmn : IZR mn <= (x * U) * (y * U)).
  { destruct (corner_lower _ _ _ _ _ _ Hx Hy) as [H | [H | [H | H]]];
      rewrite <- mult_IZR in H;
      (eapply Rle_trans; [apply IZR_le | exact H]); unfold mn; lia. }
  assert (Hmx : (x * U) * (y * U) <= IZR mx).
  { destruct (corner_upper _ _ _ _ _ _ Hx Hy) as [H | [H | [H | H]]];
      rewrite <- mult_IZR in H;
      (eapply Rle_trans; [exact H | apply IZR_le]); unfold mx; lia. }
  pose proof (floor_spec mn _ scale_pos) as Hfl.
  pose proof (ceil_spec mx _ scale_pos) as Hce.
  split; apply Rmult_le_reg_r with U; try exact HU; nra.
Qed.

Lemma edivc_sound (X : Enclosure) (d : bigZ) (x : R) :
  (0 < BigZ.to_Z d)%Z -> encloses scale X x ->
  encloses scale (edivc X d) (x / IZR (BigZ.to_Z d)).
Proof.
  unfold encloses, edivc, ceilDiv. intros Hd Hx. to_Z.
  pose proof (floor_spec (BigZ.to_Z (lower X)) _ Hd) as Hfl.
  pose proof (ceil_spec (BigZ.to_Z (upper X)) _ Hd) as Hce.
  assert (HD : 0 < IZR (BigZ.to_Z d)) by (apply IZR_lt; exact Hd).
  set (D := IZR (BigZ.to_Z d)) in *.
  replace (x / D * U) with (x * U / D) by (field; lra).
  split; apply Rmult_le_reg_r with D; try exact HD;
    unfold Rdiv; rewrite ?Rmult_assoc, ?Rinv_l, ?Rmult_1_r by lra; lra.
Qed.

Lemma ediv_sound (X Y : Enclosure) (x y : R) :
  (0 < BigZ.to_Z (lower Y))%Z -> encloses scale X x -> encloses scale Y y ->
  encloses scale (ediv scale X Y) (x / y).
Proof.
  unfold encloses, ediv, ceilDiv. intros Hpos Hx Hy. cbn [lower upper].
  rewrite !BigZ.spec_leb. change (BigZ.to_Z 0) with 0%Z.
  set (lx := BigZ.to_Z (lower X)) in *. set (hx := BigZ.to_Z (upper X)) in *.
  set (ly := BigZ.to_Z (lower Y)) in *. set (hy := BigZ.to_Z (upper Y)) in *.
  pose proof U_pos as HU.
  assert (Hly : 0 < IZR ly) by (apply IZR_lt; exact Hpos).
  assert (Hhy : (0 < hy)%Z) by (apply lt_IZR; lra).
  assert (HyU : 0 < y) by nra.
  assert (Ht : x / y * U * (y * U) = x * U * U) by (field; lra).
  split.
  - apply (quotient_lower _ (IZR lx) (x * U) (IZR ly) (y * U) (IZR hy) U);
      try lra; try exact Ht;
      intros Hlx; destruct (Z.leb_spec 0 lx) as [Hs | Hs];
      try (apply IZR_le in Hs; lra); try (apply IZR_lt in Hs; lra);
      to_Z; fold lx hy ly; rewrite <- (mult_IZR lx); apply floor_spec;
      assumption.
  - apply (quotient_upper _ (IZR hx) (x * U) (IZR ly) (y * U) (IZR hy) U);
      try lra; try exact Ht;
      intros Hhx; destruct (Z.leb_spec 0 hx) as [Hs | Hs];
      try (apply IZR_le in Hs; lra); try (apply IZR_lt in Hs; lra);
      to_Z; fold hx hy ly; rewrite <- (mult_IZR hx); apply ceil_spec;
      assumption.
Qed.
End EnclosuresSound.

(** *** The series of sine and cosine *)

Lemma seriesTerm_succ (a : R) (off i : nat) :
  seriesTerm a off (S i)
  = seriesTerm a off i * (a * a)
    / IZR (Z.of_nat ((2 * i + off + 1) * (2 * i + off + 2))).
Proof.
  unfold seriesTerm. rewrite <- INR_IZR_INZ.
  replace (2 * S i + off)%nat with (S (S (2 * i + off))) by lia.
  replace (2 * i + off + 1)%nat with (S (2 * i + off)) by lia.
  replace (2 * i + off + 2)%nat with (S (S (2 * i + off))) by lia.
  set (n := (2 * i + off)%nat).
  rewrite !fact_simpl, !mult_INR. cbn [pow].
  pose proof (INR_fact_neq_0 n). pose proof (not_0_INR (S n) (Nat.neq_succ_0 n)).
  pose proof (not_0_INR (S (S n)) (Nat.neq_succ_0 (S n))).
  field. auto.
Qed.

Lemma alternate_sign (i : nat) :
  (-1) ^ S i = if Nat.even i then -1 else 1.
Proof.
  destruct (Nat.even i) eqn:Hi.
  - apply Nat.even_spec in Hi. destruct Hi as [k ->]. apply pow_1_odd.
  - assert (Ho : Nat.odd i = true) by (rewrite <- Nat.negb_even, Hi; reflexivity).
    apply Nat.odd_spec in Ho. destruct Ho as [k ->].
    replace (S (2 * k + 1)) with (2 * (k + 1))%nat by lia. apply pow_1_even.
Qed.

Section SeriesSound.
Variable scale : bigZ.
Hypothesis scale_pos : (0 < BigZ.to_Z scale)%Z.

Lemma series_sound (a : R) (T2 : Enclosure) (off : nat) :
  encloses scale T2 (a * a) ->
  forall (n i : nat) (m acc : Enclosure),
    encloses scale m (seriesTerm a off i) ->
    encloses scale acc (seriesSum a off i) ->
    encloses scale (fst (series scale T2 off n i m acc)) (seriesTerm a off (i + n))
    /\ encloses scale (snd (series scale T2 off n i m acc)) (seriesSum a off (i + n)).
Proof.
  intros HT2. induction n as [| n IH]; intros i m acc Hm Hacc.
  - rewrite Nat.add_0_r. cbn [series fst snd]. auto.
  - cbn [series]. replace (i + S n)%nat with (S i + n)%nat by lia.
    set (d := BigZ.of_Z (Z.of_nat ((2 * i + off + 1) * (2 * i + off + 2)))).
    assert (Hd : (0 < BigZ.to_Z d)%Z).
    { unfold d. rewrite BigZ.spec_of_Z. lia. }
    assert (Hm' : encloses scale (edivc (emul scale m T2) d) (seriesTerm a off (S i))).
    { rewrite seriesTerm_succ.
      replace (Z.of_nat ((2 * i + off + 1) * (2 * i + off + 2))) with (BigZ.to_Z d)
        by (unfold d; apply BigZ.spec_of_Z).
      apply edivc_sound; [exact Hd |]. apply emul_sound; assumption. }
    apply IH; [exact Hm' |].
    unfold seriesSum. cbn [sum_f_R0]. fold (seriesSum a off i).
    rewrite alternate_sign. destruct (Nat.even i).
    + replace (seriesSum a off i + -1 * seriesTerm a off (S i))
        with (seriesSum a off i - seriesTerm a off (S i)) by ring.
      apply esub_sound; assumption.
    + replace (seriesSum a off i + 1 * seriesTerm a off (S i))
        with (seriesSum a off i + seriesTerm a off (S i)) by ring.
      apply eadd_sound; assumption.
Qed.

(** A value between the partial sums of odd and even index is enclosed. *)
Lemma alternating_sound (a v : R) (T2 first : Enclosure) (off terms : nat) :
  0 <= a ->
  encloses scale T2 (a * a) ->
  encloses scale first (seriesTerm a off 0) ->
  seriesSum a off (2 * terms + 1) <= v <= seriesSum a off (S (2 * terms + 1)) ->
  encloses scale (alternating scale T2 off terms first) v.
Proof.
  intros Ha HT2 Hfirst [Hlo Hhi]. unfold alternating.
  assert (Hsum0 : encloses scale first (seriesSum a off 0)).
  { unfold seriesSum. cbn [sum_f_R0 pow]. rewrite Rmult_1_l. exact Hfirst. }
  destruct (series_sound a T2 off HT2 (2 * terms + 1) 0 first first Hfirst Hsum0)
    as [Hm Hacc].
  destruct (series scale T2 off (2 * terms + 1) 0 first first) as [m acc].
  cbn [fst snd] in Hm, Hacc. cbn [Nat.add] in Hm, Hacc.
  set (i := (2 * terms + 1)%nat) in *.
  set (d := BigZ.of_Z (Z.of_nat ((2 * i + off + 1) * (2 * i + off + 2)))).
  assert (Hd : (0 < BigZ.to_Z d)%Z).
  { unfold d. rewrite BigZ.spec_of_Z. lia. }
  assert (Hm' : encloses scale (edivc (emul scale m T2) d) (seriesTerm a off (S i))).
  { rewrite seriesTerm_succ.
    replace (Z.of_nat ((2 * i + off + 1) * (2 * i + off + 2))) with (BigZ.to_Z d)
      by (unfold d; apply BigZ.spec_of_Z).
    apply edivc_sound; [exact Hd |]. apply emul_sound; assumption. }
  assert (Hnext : seriesSum a off (S i) = seriesSum a off i + seriesTerm a off (S i)).
  { unfold seriesSum. cbn [sum_f_R0]. rewrite alternate_sign.
    replace (Nat.even i) with false; [ring |].
    unfold i. rewrite Nat.add_1_r, Nat.even_succ, <- Nat.negb_even,
      Nat.even_mul. reflexivity. }
  rewrite Hnext in Hhi.
  pose proof (U_pos scale scale_pos) as HU.
  unfold encloses in *. cbn [lower upper]. rewrite BigZ.spec_add, plus_IZR.
  destruct Hacc as [Hacc0 Hacc1]. destruct Hm' as [_ Hm1].
  split; nra.
Qed.
End SeriesSound.

Lemma seriesSum_sin (a : R) (n : nat) : seriesSum a 1 n = sin_approx a n.
Proof. reflexivity. Qed.

Lemma seriesSum_cos (a : R) (n : nat) : seriesSum a 0 n = cos_approx a n.
Proof.
  unfold seriesSum, cos_approx. apply sum_eq. intros i _.
  unfold seriesTerm, cos_term. rewrite Nat.add_0_r. reflexivity.
Qed.

Section TrigonometrySound.
Variable scale : bigZ.
Hypothesis scale_pos : (0 < BigZ.to_Z scale)%Z.
Variables halvings terms : nat.

Local Notation "'U'" := (IZR (BigZ.to_Z scale)) (at level 0).

Lemma sinCosSmall_sound (T : Enclosure) (a : R) :
  0 <= a <= 1 -> encloses scale T a ->
  encloses scale (fst (sinCosSmall scale terms T)) (sin a) /\
  encloses scale (snd (sinCosSmall scale terms T)) (cos a).
Proof.
  intros [Ha0 Ha1] HT. unfold sinCosSmall. cbn [fst snd].
  assert (HT2 : encloses scale (emul scale T T) (a * a))
    by (apply emul_sound; assumption).
  split.
  - apply (alternating_sound scale scale_pos a); [exact Ha0 | exact HT2 | |].
    + unfold seriesTerm. cbn. replace (a * 1 / 1) with a by field. exact HT.
    + rewrite !seriesSum_sin.
      replace (S (2 * terms + 1)) with (2 * (terms + 1))%nat by lia.
      apply pre_sin_bound; lra.
  - apply (alternating_sound scale scale_pos a); [exact Ha0 | exact HT2 | |].
    + unfold seriesTerm. cbn. replace (1 / 1) with 1 by field.
      apply eone_sound.
    + rewrite !seriesSum_cos.
      replace (S (2 * terms + 1)) with (2 * (terms + 1))%nat by lia.
      apply pre_cos_bound; lra.
Qed.

Lemma doubleAngles_sound (k : nat) :
  forall (SC : Enclosure * Enclosure) (t : R),
    encloses scale (fst SC) (sin t) -> encloses scale (snd SC) (cos t) ->
    encloses scale (fst (doubleAngles scale k SC)) (sin (2 ^ k * t)) /\
    encloses scale (snd (doubleAngles scale k SC)) (cos (2 ^ k * t)).
Proof.
  induction k as [| k IH]; intros [si co] t Hs Hc; cbn [fst snd] in *.
  - cbn [doubleAngles pow fst snd]. rewrite Rmult_1_l. auto.
  - cbn [doubleAngles]. replace (2 ^ S k * t) with (2 ^ k * (2 * t))
      by (cbn [pow]; ring).
    apply IH; unfold doubleAngle; cbn [fst snd].
    + rewrite sin_2a. replace (2 * sin t * cos t) with (2 * (sin t * cos t)) by ring.
      apply edouble_sound, emul_sound; assumption.
    + rewrite cos_2a_sin.
      replace (1 - 2 * sin t * sin t) with (1 - 2 * (sin t * sin t)) by ring.
      apply esub_sound; [apply eone_sound |].
      apply edouble_sound, emul_sound; assumption.
Qed.

Lemma sinCosNonneg_sound (X : Enclosure) (x : R) (SC : Enclosure * Enclosure) :
  sinCosNonneg scale halvings terms X = Some SC ->
  encloses scale X x ->
  encloses scale (fst SC) (sin x) /\ encloses scale (snd SC) (cos x).
Proof.
  unfold sinCosNonneg. intros Hsome HX.
  set (d := BigZ.of_Z (2 ^ Z.of_nat halvings)) in *.
  assert (Hd : BigZ.to_Z d = (2 ^ Z.of_nat halvings)%Z) by apply BigZ.spec_of_Z.
  assert (Hdpos : (0 < BigZ.to_Z d)%Z) by (rewrite Hd; apply Z.pow_pos_nonneg; lia).
  pose proof (edivc_sound scale X d x Hdpos HX) as HT.
  set (T := edivc X d) in *.
  destruct ((0 <=? lower T)%bigZ && (upper T <=? scale)%bigZ) eqn:Hrange;
    [| discriminate].
  injection Hsome as <-.
  apply andb_true_iff in Hrange. rewrite !BigZ.spec_leb in Hrange.
  change (BigZ.to_Z 0) with 0%Z in Hrange.
  destruct Hrange as [Hlo Hhi]. apply Z.leb_le in Hlo, Hhi.
  apply IZR_le in Hlo, Hhi.
  pose proof (U_pos scale scale_pos) as HU.
  set (t := x / IZR (BigZ.to_Z d)) in *.
  assert (Ht : 0 <= t <= 1).
  { destruct HT as [HT0 HT1]. split; nra. }
  assert (Hx : x = 2 ^ halvings * t).
  { unfold t. rewrite Hd, <- pow_IZR.
    assert (0 < 2 ^ halvings) by (apply pow_lt; lra). field. lra. }
  rewrite Hx. apply doubleAngles_sound; apply sinCosSmall_sound; assumption.
Qed.

Lemma sinCos_sound (X : Enclosure) (x : R) (SC : Enclosure * Enclosure) :
  sinCos scale halvings terms X = Some SC ->
  encloses scale X x ->
  encloses scale (fst SC) (sin x) /\ encloses scale (snd SC) (cos x).
Proof.
  unfold sinCos. intros Hsome HX.
  destruct (0 <=? lower X)%bigZ.
  - exact (sinCosNonneg_sound X x SC Hsome HX).
  - destruct (upper X <=? 0)%bigZ; [| discriminate].
    destruct (sinCosNonneg scale halvings terms (eopp X)) as [[si co] |] eqn:Hneg;
      [| discriminate].
    injection Hsome as <-.
    destruct (sinCosNonneg_sound (eopp X) (- x) (si, co) Hneg (eopp_sound scale X x HX))
      as [Hs Hc].
    cbn [fst snd] in *. rewrite sin_neg in Hs. rewrite cos_neg in Hc.
    split; [| exact Hc].
    replace (sin x) with (- - sin x) by ring. apply eopp_sound. exact Hs.
Qed.

(** *** The Newton-Raphson loop *)

Variables (eccEnclosure MEnclosure : Enclosure) (ecc M : R).
Hypothesis ecc_enclosed : encloses scale eccEnclosure ecc.
Hypothesis M_enclosed : encloses scale MEnclosure M.

Lemma newtonEnclosure_sound (X Y : Enclosure) (x : R) :
  newtonEnclosure scale halvings terms eccEnclosure MEnclosure X = Some Y ->
  encloses scale X x ->
  encloses scale Y (newtonStep ecc M x).
Proof.
  unfold newtonEnclosure. intros Hsome HX.
  destruct (sinCos scale halvings terms X) as [[si co] |] eqn:Htrig; [| discriminate].
  destruct (sinCos_sound X x (si, co) Htrig HX) as [Hs Hc]. cbn [fst snd] in *.
  set (den := esub (eone scale) (emul scale eccEnclosure co)) in *.
  destruct (0 <? lower den)%bigZ eqn:Hden; [| discriminate].
  injection Hsome as <-.
  rewrite BigZ.spec_ltb in Hden. change (BigZ.to_Z 0) with 0%Z in Hden.
  apply Z.ltb_lt in Hden.
  rewrite newtonStep_R.
  apply esub_sound; [exact HX |].
  apply ediv_sound; [exact scale_pos | exact Hden | |].
  - apply esub_sound; [| exact M_enclosed].
    apply esub_sound; [exact HX |]. apply emul_sound; assumption.
  - apply esub_sound; [apply eone_sound |].
    apply emul_sound; assumption.
Qed.

Lemma apart_sound (Y X : Enclosure) (y x : R) :
  apart scale Y X = true -> encloses scale Y y -> encloses scale X x ->
  1 / 1000000000000 < Rabs (y - x).
Proof.
  unfold apart. intros Hfar HY HX.
  pose proof (esub_sound scale Y X y x HY HX) as [HD0 HD1].
  set (D := esub Y X) in *.
  pose proof (U_pos scale scale_pos) as HU.
  apply orb_true_iff in Hfar. rewrite !BigZ.spec_ltb in Hfar.
  rewrite BigZ.spec_opp, !BigZ.spec_mul in Hfar.
  change (BigZ.to_Z 1000000000000) with 1000000000000%Z in Hfar.
  destruct Hfar as [Hfar | Hfar]; apply Z.ltb_lt in Hfar; apply IZR_lt in Hfar;
    rewrite ?opp_IZR, mult_IZR in Hfar.
  - rewrite Rabs_pos_eq by nra.
    apply Rmult_lt_reg_r with U; [exact HU |]. lra.
  - rewrite Rabs_left by nra.
    apply Rmult_lt_reg_r with U; [exact HU |]. lra.
Qed.

Lemma within_sound (Y X : Enclosure) (y x : R) :
  within scale Y X = true -> encloses scale Y y -> encloses scale X x ->
  Rabs (y - x) <= 1 / 1000000000000.
Proof.
  unfold within. intros Hnear HY HX.
  pose proof (esub_sound scale Y X y x HY HX) as [HD0 HD1].
  set (D := esub Y X) in *.
  pose proof (U_pos scale scale_pos) as HU.
  apply andb_true_iff in Hnear. rewrite !BigZ.spec_leb in Hnear.
  rewrite BigZ.spec_opp, !BigZ.spec_mul in Hnear.
  change (BigZ.to_Z 1000000000000) with 1000000000000%Z in Hnear.
  destruct Hnear as [Hlo Hhi]. apply Z.leb_le in Hlo, Hhi.
  apply IZR_le in Hlo, Hhi. rewrite opp_IZR, mult_IZR in Hlo.
  rewrite mult_IZR in Hhi.
  apply Rabs_le. split; apply Rmult_le_reg_r with U; try exact HU; lra.
Qed.

(** What the loop on enclosures returns encloses the state in which
    [keplerLoop] is left. *)
Lemma loopEnclosure_sound (fuel : nat) :
  forall (X : Enclosure) (x : R) (iterations0 : nat) (r : LoopEnclosure),
    loopEnclosure scale halvings terms fuel eccEnclosure MEnclosure X iterations0
    = Some r ->
    encloses scale X x ->
    let st := keplerLoop fuel ecc M x iterations0 in
    encloses scale (lastEk r) (Ek st) /\
    encloses scale (lastEk_prev r) (Ek_prev st) /\
    iterations st = lastIterations r /\
    if converged r
    then Rabs (Ek st - Ek_prev st) <= 1 / 1000000000000
    else 1 / 1000000000000 < Rabs (Ek st - Ek_prev st).
Proof.
  induction fuel as [| fuel IH]; intros X x iterations0 r Hloop HX;
    cbv zeta; rewrite keplerLoop_unfold; cbv zeta;
    cbn [loopEnclosure] in Hloop;
    destruct (newtonEnclosure scale halvings terms eccEnclosure MEnclosure X)
      as [Y |] eqn:Hstep; try discriminate;
    pose proof (newtonEnclosure_sound X Y x Hstep HX) as HY;
    unfold loopTest, gtb; cbn [Ek Ek_prev iterations ltb sub Math_abs RNumber];
    rewrite tolerance_R;
    destruct (apart scale Y X) eqn:Hfar.
  - pose proof (apart_sound Y X _ x Hfar HY HX) as Hgt.
    replace (Rltb (1 / 1000000000000) (Rabs (newtonStep ecc M x - x))) with true
      by (symmetry; apply Rltb_true; exact Hgt).
    destruct (S iterations0 <? 100)%nat; cbn [andb];
      injection Hloop as <-; cbn [lastEk lastEk_prev lastIterations converged Ek Ek_prev iterations];
      auto.
  - destruct (within scale Y X) eqn:Hnear; [| discriminate].
    pose proof (within_sound Y X _ x Hnear HY HX) as Hle.
    replace (Rltb (1 / 1000000000000) (Rabs (newtonStep ecc M x - x))) with false
      by (symmetry; apply Rltb_false; exact Hle).
    cbn [andb]. injection Hloop as <-.
    cbn [lastEk lastEk_prev lastIterations converged Ek Ek_prev iterations]. auto.
  - pose proof (apart_sound Y X _ x Hfar HY HX) as Hgt.
    replace (Rltb (1 / 1000000000000) (Rabs (newtonStep ecc M x - x))) with true
      by (symmetry; apply Rltb_true; exact Hgt).
    destruct (S iterations0 <? 100)%nat; cbn [andb].
    + exact (IH Y _ (S iterations0) r Hloop HY).
    + injection Hloop as <-.
      cbn [lastEk lastEk_prev lastIterations converged Ek Ek_prev iterations]. auto.
  - destruct (within scale Y X) eqn:Hnear; [| discriminate].
    pose proof (within_sound Y X _ x Hnear HY HX) as Hle.
    replace (Rltb (1 / 1000000000000) (Rabs (newtonStep ecc M x - x))) with false
      by (symmetry; apply Rltb_false; exact Hle).
    cbn [andb]. injection Hloop as <-.
    cbn [lastEk lastEk_prev lastIterations converged Ek Ek_prev iterations]. auto.
Qed.

Lemma residualEnclosure_sound (X Y : Enclosure) (x : R) :
  residualEnclosure scale halvings terms eccEnclosure MEnclosure X = Some Y ->
  encloses scale X x ->
  encloses scale Y (keplerResidual ecc M x).
Proof.
  unfold residualEnclosure, keplerResidual. intros Hsome HX.
  destruct (sinCos scale halvings terms X) as [[si co] |] eqn:Htrig; [| discriminate].
  destruct (sinCos_sound X x (si, co) Htrig HX) as [Hs _]. cbn [fst] in Hs.
  injection Hsome as <-.
  apply esub_sound; [| exact M_enclosed].
  apply esub_sound; [exact HX |]. apply emul_sound; assumption.
Qed.
End TrigonometrySound.

(** *** The loop at given inputs *)

Lemma enclosureScale_pos : (0 < BigZ.to_Z enclosureScale)%Z.
Proof.
  unfold enclosureScale. rewrite BigZ.spec_of_Z. apply Z.pow_pos_nonneg; lia.
Qed.

Lemma enclosureScale_ratio (n : Z) (k : nat) :
  (k <= 800)%nat ->
  encloses enclosureScale (ratio enclosureScale n (2 ^ Z.of_nat k))
    (IZR n / IZR (2 ^ Z.of_nat k)).
Proof.
  intros Hk. apply ratio_sound.
  - apply Z.pow_pos_nonneg; lia.
  - unfold enclosureScale. rewrite BigZ.spec_of_Z.
    replace 800%Z with ((800 - Z.of_nat k) + Z.of_nat k)%Z by lia.
    rewrite Z.pow_add_r by lia.
    rewrite Z.div_mul by (apply Z.pow_nonzero; lia).
    apply Z.mul_comm.
Qed.

Section SolveKeplerEnclosure.
Variables (n m : Z) (k : nat).
Hypothesis k_small : (k <= 800)%nat.

Lemma solveKeplerEnclosure_sound (r : LoopEnclosure) :
  solveKeplerEnclosure n (2 ^ Z.of_nat k) m = Some r ->
  let st := solveKepler (IZR n / IZR (2 ^ Z.of_nat k)) (IZR m / IZR (2 ^ Z.of_nat k)) in
  encloses enclosureScale (lastEk r) (Ek st) /\
  iterations st = lastIterations r /\
  if converged r
  then Rabs (Ek st - Ek_prev st) <= 1 / 1000000000000
  else 1 / 1000000000000 < Rabs (Ek st - Ek_prev st).
Proof.
  unfold solveKeplerEnclosure, solveKepler. cbv zeta. intros Hloop.
  pose proof (enclosureScale_ratio n k k_small) as He.
  pose proof (enclosureScale_ratio m k k_small) as HM.
  destruct (loopEnclosure_sound enclosureScale enclosureScale_pos 12 13 _ _ _ _
              He HM 99 _ _ 0%nat r Hloop HM) as [HE [_ [Hit Htol]]].
  auto.
Qed.

(** The loop runs into the cap. *)
Lemma stalls_sound :
  stalls n (2 ^ Z.of_nat k) m = true ->
  let st := solveKepler (IZR n / IZR (2 ^ Z.of_nat k)) (IZR m / IZR (2 ^ Z.of_nat k)) in
  iterations st = 100%nat /\
  1 / 1000000000000 < Rabs (Ek st - Ek_prev st) /\
  1 / 10 < Rabs (keplerResidual (IZR n / IZR (2 ^ Z.of_nat k)) (IZR m / IZR (2 ^ Z.of_nat k)) (Ek st)).
Proof.
  unfold stalls. intros Hcheck.
  destruct (solveKeplerEnclosure n (2 ^ Z.of_nat k) m) as [r |] eqn:Hloop; [| discriminate].
  destruct (solveKeplerEnclosure_sound r Hloop) as [HE [Hit Htol]].
  cbv zeta. set (st := solveKepler (IZR n / IZR (2 ^ Z.of_nat k)) (IZR m / IZR (2 ^ Z.of_nat k))) in *.
  clearbody st.
  apply andb_true_iff in Hcheck. destruct Hcheck as [Hcheck Hres].
  apply andb_true_iff in Hcheck. destruct Hcheck as [Hcap Hconv].
  apply Nat.eqb_eq in Hcap. apply negb_true_iff in Hconv. rewrite Hconv in Htol.
  split; [congruence | split; [exact Htol |]].
  destruct (residualEnclosure enclosureScale 12 13 _ _ (lastEk r)) as [Y |] eqn:HY;
    [| discriminate].
  pose proof (residualEnclosure_sound enclosureScale enclosureScale_pos 12 13 _ _ _ _
                (enclosureScale_ratio n k k_small) (enclosureScale_ratio m k k_small)
                _ _ _ HY HE) as [HY0 HY1].
  pose proof (U_pos enclosureScale enclosureScale_pos) as HU.
  set (res := keplerResidual (IZR n / IZR (2 ^ Z.of_nat k)) (IZR m / IZR (2 ^ Z.of_nat k)) (Ek st)) in *.
  apply orb_true_iff in Hres. rewrite !BigZ.spec_ltb in Hres.
  rewrite BigZ.spec_opp, !BigZ.spec_mul in Hres.
  change (BigZ.to_Z 10) with 10%Z in Hres.
  destruct Hres as [Hres | Hres]; apply Z.ltb_lt in Hres; apply IZR_lt in Hres;
    rewrite ?opp_IZR, mult_IZR in Hres.
  - rewrite Rabs_left by nra.
    apply Rmult_lt_reg_r with (IZR (BigZ.to_Z enclosureScale)); [exact HU |]. lra.
  - rewrite Rabs_pos_eq by nra.
    apply Rmult_lt_reg_r with (IZR (BigZ.to_Z enclosureScale)); [exact HU |]. lra.
Qed.

(** The loop converges before the cap. *)
Lemma converges_sound :
  converges n (2 ^ Z.of_nat k) m = true ->
  let st := solveKepler (IZR n / IZR (2 ^ Z.of_nat k)) (IZR m / IZR (2 ^ Z.of_nat k)) in
  (iterations st < 100)%nat /\
  Rabs (Ek st - Ek_prev st) <= 1 / 1000000000000.
Proof.
  unfold converges. intros Hcheck.
  destruct (solveKeplerEnclosure n (2 ^ Z.of_nat k) m) as [r |] eqn:Hloop; [| discriminate].
  destruct (solveKeplerEnclosure_sound r Hloop) as [_ [Hit Htol]].
  cbv zeta. apply andb_true_iff in Hcheck. destruct Hcheck as [Hlt Hconv].
  apply Nat.ltb_lt in Hlt. rewrite Hconv in Htol. split; [lia | exact Htol].
Qed.
End SolveKeplerEnclosure.

(** ** The loop at the cap, from binary64 inputs *)

(** The eccentricity and the mean anomaly are binary64 numbers. *)
Lemma cycle_inputs_binary64 :
  cycleEccentricity = 0.9851869042449835%float /\
  cycleMeanAnomaly = 0.11421030151996092%float /\
  realValue cycleEccentricity = Some cycleE /\
  realValue cycleMeanAnomaly = Some cycleM.
Proof.
  split; [vm_compute; reflexivity | split; [vm_compute; reflexivity |]].
  unfold cycleE, cycleM, cycleEccentricity, cycleMeanAnomaly.
  split; real_value; cbn [div lit RNumber]; lra.
Qed.

Lemma cycle_inputs_range : 0 <= cycleE < 1 /\ 0 <= cycleM < 2 * PI.
Proof.
  pose proof PI_lower.
  unfold cycleE, cycleM, cycleEccentricity, cycleMeanAnomaly.
  cbn [div lit RNumber]. lra.
Qed.

Lemma cycle_stalls :
  stalls 1083224456750 (2 ^ Z.of_nat 40) 125575554533 = true.
Proof. vm_compute. reflexivity. Qed.

(** From [cycleM] the loop runs into the cap: 100 iterations, the last two
    iterates more than 1e-12 apart, and a residual above 1 / 10. *)
Lemma solveKepler_cycle :
  let st := solveKepler cycleE cycleM in
  iterations st = 100%nat /\
  1 / 1000000000000 < Rabs (Ek st - Ek_prev st) /\
  1 / 10 < Rabs (keplerResidual cycleE cycleM (Ek st)).
Proof.
  apply (stalls_sound 1083224456750 125575554533 40); [lia | exact cycle_stalls].
Qed.

(** ** The binary64 run of the loop at the cap *)

Lemma dyadic_value (x : float) (n : Z) (k : positive) :
  dyadic x = Some (n, k) ->
  realValue x = Some (IZR n / IZR (2 ^ Zpos k)) /\ ulp x = / IZR (2 ^ Zpos k).
Proof.
  unfold dyadic, realValue, ulp.
  destruct (Prim2SF x) as [s | s | | s m e]; try discriminate.
  destruct e as [| e | e]; try discriminate.
  intros Hsome. injection Hsome as <- <-.
  rewrite powerRZ_neg. split; [| reflexivity].
  f_equal. destruct s.
  - change (Z.neg m) with (- Z.pos m)%Z. rewrite opp_IZR.
    unfold Rdiv. ring.
  - unfold Rdiv. ring.
Qed.

Lemma halfUlpInside_sound (scale : bigZ) (X : Enclosure) (n : Z) (k : positive)
    (v : R) :
  (0 < BigZ.to_Z scale)%Z ->
  halfUlpInside scale X n k = true ->
  encloses scale X v ->
  Rabs (v - IZR n / IZR (2 ^ Zpos k)) * 2 <= / IZR (2 ^ Zpos k).
Proof.
  intros Hscale Hcheck [Hlo Hhi].
  unfold halfUlpInside in Hcheck. cbv zeta in Hcheck.
  apply andb_prop in Hcheck as [Hcheck Hupper].
  apply andb_prop in Hcheck as [Hexact Hlower].
  rewrite BigZ.spec_eqb in Hexact. apply Z.eqb_eq in Hexact.
  rewrite BigZ.spec_leb in Hlower, Hupper.
  apply Z.leb_le in Hlower, Hupper.
  rewrite BigZ.spec_mul, BigZ.spec_of_Z in Hexact, Hlower, Hupper.
  rewrite BigZ.spec_div, BigZ.spec_of_Z in Hexact, Hlower, Hupper.
  set (half := (BigZ.to_Z scale / 2 ^ (Z.pos k + 1))%Z) in *.
  assert (Hpow : (2 ^ (Z.pos k + 1) = 2 * 2 ^ Z.pos k)%Z).
  { rewrite Z.pow_add_r by lia. change (2 ^ 1)%Z with 2%Z. lia. }
  rewrite Hpow in Hexact.
  assert (Hp : (0 < 2 ^ Z.pos k)%Z) by (apply Z.pow_pos_nonneg; lia).
  assert (Hhalf : (0 < half)%Z) by nia.
  apply IZR_lt in Hp, Hhalf. apply IZR_le in Hlower, Hupper.
  rewrite <- Hexact in Hlo, Hhi.
  rewrite !mult_IZR in Hlo, Hhi.
  rewrite mult_IZR, minus_IZR, mult_IZR in Hlower.
  rewrite mult_IZR, plus_IZR, mult_IZR in Hupper.
  set (P := IZR (2 ^ Z.pos k)) in *. set (h := IZR half) in *.
  assert (Hl : (2 * IZR n - 1) * h <= v * (2 * P * h)) by lra.
  assert (Hu : v * (2 * P * h) <= (2 * IZR n + 1) * h) by lra.
  assert (Hl' : 2 * IZR n - 1 <= v * (2 * P)) by nra.
  assert (Hu' : v * (2 * P) <= 2 * IZR n + 1) by nra.
  assert (Hequal : (v - IZR n / P) * 2 = (v * (2 * P) - 2 * IZR n) / P)
    by (field; lra).
  assert (Hinv : 0 < / P) by (apply Rinv_0_lt_compat; exact Hp).
  replace (Rabs (v - IZR n / P) * 2) with (Rabs ((v - IZR n / P) * 2))
    by (rewrite Rabs_mult, (Rabs_pos_eq 2) by lra; reflexivity).
  rewrite Hequal. unfold Rdiv.
  rewrite Rabs_mult, (Rabs_pos_eq (/ P)) by lra.
  assert (Hone : Rabs (v * (2 * P) - 2 * IZR n) <= 1) by (apply Rabs_le; lra).
  nra.
Qed.

Lemma nearSample_sound (x s c : float) :
  nearSample (x, (s, c)) = true ->
  exists r : R,
    realValue x = Some r /\ roundsTo (sin r) s /\ roundsTo (cos r) c.
Proof.
  unfold nearSample.
  destruct (dyadic x) as [[n k] |] eqn:Hx; [| discriminate].
  destruct (dyadic s) as [[ns ks] |] eqn:Hs; [| discriminate].
  destruct (dyadic c) as [[nc kc] |] eqn:Hc; [| discriminate].
  intros Hcheck. apply andb_prop in Hcheck as [Hk Hcheck].
  apply Nat.leb_le in Hk.
  destruct (sinCos enclosureScale 12 13 _) as [[si co] |] eqn:Htrig;
    [| discriminate].
  apply andb_prop in Hcheck as [Hsin Hcos].
  destruct (dyadic_value x n k Hx) as [Hvalue _].
  destruct (dyadic_value s ns ks Hs) as [Hsvalue Hsulp].
  destruct (dyadic_value c nc kc Hc) as [Hcvalue Hculp].
  pose proof (enclosureScale_ratio n (Pos.to_nat k) Hk) as Hratio.
  destruct (sinCos_sound enclosureScale enclosureScale_pos 12 13 _ _ _ Htrig Hratio)
    as [Hsi Hco].
  rewrite positive_nat_Z in Hsi, Hco.
  exists (IZR n / IZR (2 ^ Z.pos k)). split; [exact Hvalue |]. split.
  - exists (IZR ns / IZR (2 ^ Z.pos ks)). split; [exact Hsvalue |].
    rewrite Hsulp.
    exact (halfUlpInside_sound enclosureScale si ns ks _ enclosureScale_pos Hsin Hsi).
  - exists (IZR nc / IZR (2 ^ Z.pos kc)). split; [exact Hcvalue |].
    rewrite Hculp.
    exact (halfUlpInside_sound enclosureScale co nc kc _ enclosureScale_pos Hcos Hco).
Qed.

(** The sines and cosines listed are the correctly rounded ones. *)
Lemma cycleSamples_rounded (x s c : float) :
  In (x, (s, c)) cycleSamples ->
  exists r : R,
    realValue x = Some r /\ roundsTo (sin r) s /\ roundsTo (cos r) c.
Proof.
  intros Hin. apply nearSample_sound.
  assert (Hall : forallb nearSample cycleSamples = true)
    by (vm_compute; reflexivity).
  rewrite forallb_forall in Hall. exact (Hall _ Hin).
Qed.

Section Binary64Run.
Variable engine : MathLib float.
Hypothesis engine_sampled : sampled engine cycleSamples.

(** One Newton step at a sampled double, with the arithmetic of binary64. *)
Lemma sampled_step (x s c y : float) :
  In (x, (s, c)) cycleSamples ->
  sub x (div (sub (sub x (mul cycleEccentricity s)) cycleMeanAnomaly)
             (sub (lit 1) (mul cycleEccentricity c))) = y ->
  newtonStep cycleEccentricity cycleMeanAnomaly x = y.
Proof.
  intros Hin Hy. destruct (engine_sampled x s c Hin) as [Hs Hc].
  unfold newtonStep. rewrite Hs, Hc. exact Hy.
Qed.

Lemma keplerLoop_again (fuel iterations0 : nat) (x y : float) :
  newtonStep cycleEccentricity cycleMeanAnomaly x = y ->
  gtb (Math_abs (sub y x)) tolerance = true ->
  (S iterations0 < 100)%nat ->
  keplerLoop (S fuel) cycleEccentricity cycleMeanAnomaly x iterations0
  = keplerLoop fuel cycleEccentricity cycleMeanAnomaly y (S iterations0).
Proof.
  intros Hstep Hfar Hit. rewrite keplerLoop_unfold. cbv zeta.
  unfold loopTest. cbn [Ek Ek_prev iterations]. rewrite Hstep, Hfar.
  apply Nat.ltb_lt in Hit. rewrite Hit. reflexivity.
Qed.

Lemma keplerLoop_capped (fuel : nat) (x y : float) :
  newtonStep cycleEccentricity cycleMeanAnomaly x = y ->
  keplerLoop fuel cycleEccentricity cycleMeanAnomaly x 99
  = {| Ek := y; Ek_prev := x; iterations := 100 |}.
Proof.
  intros Hstep. rewrite keplerLoop_unfold. cbv zeta.
  unfold loopTest. cbn [Ek Ek_prev iterations]. rewrite Hstep.
  change (100 <? 100)%nat with false. rewrite andb_false_r. reflexivity.
Qed.

Ltac step_at_sample :=
  eapply sampled_step;
  [ cbn [In cycleSamples]; repeat (first [left; reflexivity | right])
  | vm_compute; reflexivity ].

(** The two doubles between which the binary64 loop alternates. *)
Lemma cycle_upper_step :
  newtonStep cycleEccentricity cycleMeanAnomaly 0x1.ed721d58e3e20p+2%float
  = 0x1.bbed400000000p-31%float.
Proof. step_at_sample. Qed.

Lemma cycle_lower_step :
  newtonStep cycleEccentricity cycleMeanAnomaly 0x1.bbed400000000p-31%float
  = 0x1.ed721d58e3e20p+2%float.
Proof. step_at_sample. Qed.

Lemma keplerLoop_cycle (pairs : nat) :
  forall iterations0 : nat,
    (iterations0 + 2 * pairs = 99)%nat ->
    keplerLoop (2 * pairs) cycleEccentricity cycleMeanAnomaly
      0x1.ed721d58e3e20p+2%float iterations0
    = {| Ek := 0x1.bbed400000000p-31%float;
         Ek_prev := 0x1.ed721d58e3e20p+2%float;
         iterations := 100 |}.
Proof.
  induction pairs as [| pairs IH]; intros iterations0 Hsum.
  - replace iterations0 with 99%nat by lia.
    apply keplerLoop_capped, cycle_upper_step.
  - replace (2 * S pairs)%nat with (S (S (2 * pairs))) by lia.
    rewrite (keplerLoop_again _ _ _ _ cycle_upper_step)
      by (try lia; vm_compute; reflexivity).
    rewrite (keplerLoop_again _ _ _ _ cycle_lower_step)
      by (try lia; vm_compute; reflexivity).
    apply IH. lia.
Qed.

(** The binary64 loop from [cycleMeanAnomaly]: seven steps onto the two
    doubles, then back and forth up to the cap. *)
Lemma solveKepler_binary64 :
  solveKepler (num := float) cycleEccentricity cycleMeanAnomaly
  = {| Ek := 0x1.bbed400000000p-31%float;
       Ek_prev := 0x1.ed721d58e3e20p+2%float;
       iterations := 100 |}.
Proof.
  unfold solveKepler.
  replace (cycleMeanAnomaly : float) with 0x1.d3ce2e5e50000p-4%float at 2
    by (vm_compute; reflexivity).
  rewrite (keplerLoop_again 98 0 _ 0x1.59bf40f1206cdp+2%float)
    by (try lia; try step_at_sample; vm_compute; reflexivity).
  rewrite (keplerLoop_again 97 1 _ (-0x1.5a0a8f9bc910ep+3)%float)
    by (try lia; try step_at_sample; vm_compute; reflexivity).
  rewrite (keplerLoop_again 96 2 _ (-0x1.6e4cdf482be30p-1)%float)
    by (try lia; try step_at_sample; vm_compute; reflexivity).
  rewrite (keplerLoop_again 95 3 _ 0x1.9998040000000p-26%float)
    by (try lia; try step_at_sample; vm_compute; reflexivity).
  rewrite (keplerLoop_again 94 4 _ 0x1.ed721d58e3d5dp+2%float)
    by (try lia; try step_at_sample; vm_compute; reflexivity).
  rewrite (keplerLoop_again 93 5 _ 0x1.bb17c00000000p-31%float)
    by (try lia; try step_at_sample; vm_compute; reflexivity).
  rewrite (keplerLoop_again 92 6 _ 0x1.ed721d58e3e20p+2%float)
    by (try lia; try step_at_sample; vm_compute; reflexivity).
  apply (keplerLoop_cycle 46). reflexivity.
Qed.
End Binary64Run.

(** Such an engine exists: one that answers from the list. *)
Lemma sampled_engine : exists engine : MathLib float, sampled engine cycleSamples.
Proof.
  pose (answer := fun x : float =>
          match find (fun sample => PrimFloat.eqb (fst sample) x) cycleSamples with
          | Some (_, answers) => answers
          | None => (nan, nan)
          end).
  exists {| Math_PI := 0x1.921fb54442d18p+1%float;
            Math_sin := fun x => fst (answer x);
            Math_cos := fun x => snd (answer x);
            Math_atan2 := fun _ _ => nan;
            Math_log10 := fun _ => nan;
            Math_pow := fun _ _ => nan;
            Math_floor := fun _ => nan;
            fmod := fun _ _ => nan |}.
  intros x s c Hin. cbn [In cycleSamples] in Hin.
  repeat (destruct Hin as [Hin | Hin];
          [injection Hin as <- <- <-; split; vm_compute; reflexivity |]).
  contradiction.
Qed.

(** The residual of the double the binary64 loop returns. *)
Lemma cycle_binary64_residual :
  exists E : R,
    realValue 0x1.bbed400000000p-31 = Some E /\
    1 / 10 < Rabs (keplerResidual cycleE cycleM E).
Proof.
  exists (454581 / 562949953421312). split.
  - real_value. lra.
  - set (E := 454581 / 562949953421312).
    assert (HE : 0 <= E <= 1 / 1000000) by (unfold E; lra).
    destruct (sin_small E) as [Hlo Hhi]; [lra |].
    assert (Hcube : 0 <= E ^ 3 / 6 <= E) by nra.
    destruct cycle_inputs_range as [[He0 He1] _].
    assert (HM : 1 / 9 < cycleM).
    { unfold cycleM, cycleMeanAnomaly. cbn [div lit RNumber]. lra. }
    unfold keplerResidual. rewrite Rabs_left1 by nra. nra.
Qed.

(** ** The remainder operator on the reals *)

Lemma Int_part_unit (x : R) (k : Z) : IZR k <= x < IZR k + 1 -> Int_part x = k.
Proof. intros [Hlo Hhi]. symmetry. apply Int_part_spec. lra. Qed.

Lemma Rfmod_small (a b : R) : 0 < b -> 0 <= a < b -> Rfmod a b = a.
Proof.
  intros Hb [Ha0 Ha1]. unfold Rfmod, Rtrunc.
  assert (Hq : 0 <= a / b < 1).
  { split.
    - apply Rmult_le_pos; [lra | left; apply Rinv_0_lt_compat; lra].
    - apply Rmult_lt_reg_r with b; [lra |].
      unfold Rdiv. rewrite Rmult_assoc, Rinv_l by lra. lra. }
  destruct (Rle_dec 0 (a / b)) as [_ | Hneg]; [| lra].
  rewrite (Int_part_unit (a / b) 0) by (cbn; lra). lra.
Qed.

Lemma Rfmod_wrap (a b : R) : 0 < b -> 0 <= a < b -> Rfmod (a + b) b = a.
Proof.
  intros Hb [Ha0 Ha1]. unfold Rfmod, Rtrunc.
  assert (Hq : 1 <= (a + b) / b < 2).
  { replace ((a + b) / b) with (a / b + 1) by (field; lra).
    assert (0 <= a / b < 1); [| lra]. split.
    - apply Rmult_le_pos; [lra | left; apply Rinv_0_lt_compat; lra].
    - apply Rmult_lt_reg_r with b; [lra |].
      unfold Rdiv. rewrite Rmult_assoc, Rinv_l by lra. lra. }
  destruct (Rle_dec 0 ((a + b) / b)) as [_ | Hneg]; [| lra].
  rewrite (Int_part_unit ((a + b) / b) 1) by (cbn; lra). lra.
Qed.

(** ** Propagation on the cycle input *)

Lemma cycle_timeFromEphemeris :
  timeFromEphemeris cycleOrbitalParameters gpsEpoch = 0.
Proof.
  unfold timeFromEphemeris, gpsEpoch, gtb,
    GPS_SECONDS_PER_WEEK, UNIX_TO_GPS_EPOCH_SECONDS.
  cbn [lit div sub add neg ltb RNumber Math_floor fmod RMath toe
       cycleOrbitalParameters].
  replace (315964800000 / 1000 - 315964800) with 0 by lra.
  rewrite (Rfmod_small 0 604800) by lra.
  replace (0 - 0) with 0 by ring.
  assert (H1 : Rltb (604800 / 2) 0 = false) by (apply Rltb_false; lra).
  assert (H2 : Rltb 0 (- (604800 / 2)) = false) by (apply Rltb_false; lra).
  rewrite H1, H2. reflexivity.
Qed.

Lemma cycle_meanAnomaly : meanAnomaly cycleOrbitalParameters 0 = cycleM.
Proof.
  unfold meanAnomaly.
  cbn [lit div sub add mul RNumber Math_PI fmod RMath m0 deltaN
       cycleOrbitalParameters].
  pose proof cycle_inputs_range as [_ [HM0 HM1]].
  match goal with
  | |- Rfmod (Rfmod ?Mk _ + _) _ = _ => replace Mk with cycleM by ring
  end.
  rewrite (Rfmod_small cycleM (2 * PI)) by lra.
  apply Rfmod_wrap; lra.
Qed.

Lemma cycle_propagation :
  calculateSatellitePosition (satelliteArgs cycleRinexData "B01" gpsEpoch)
  = Ok (positionFromAnomaly cycleOrbitalParameters 0
          (Ek (solveKepler cycleE cycleM))).
Proof.
  assert (HB : "B01"%string <> EmptyString) by discriminate.
  rewrite (calculateSatellitePosition_eq cycleRinexData "B01" HB gpsEpoch).
  cbv beta iota delta [findSatellite cycleRinexData satellites find sat_id
                       orbitalParameters timeParameters outsideValidity].
  change (String.eqb "B01" "B01") with true. cbv beta iota.
  unfold propagate. cbv zeta.
  rewrite cycle_timeFromEphemeris, cycle_meanAnomaly. reflexivity.
Qed.

(** ** The iteration cap *)

(** C2, counterexample.  For the entry [cycleOrbitalParameters], whose
    eccentricity and mean anomaly are the binary64 numbers
    0.9851869042449835 and 0.11421030151996092, at the GPS epoch: the loop
    is left at the cap, after 100 iterations, with the last two iterates
    more than 1e-12 apart, and [calculateSatellitePosition] returns the
    position computed from the last iterate; it does not fail.  So it is
    in exact arithmetic; and the binary64 loop runs into the cap as well,
    for every engine whose [Math.sin] and [Math.cos] return, at the nine
    doubles that the loop goes through, the doubles of [cycleSamples],
    each within half a unit in the last place of the sine or cosine
    ([cycleSamples_rounded]). *)
Lemma cap_reached_position_returned :
  let orbitalParams := cycleOrbitalParameters in
  let tk := timeFromEphemeris orbitalParams gpsEpoch in
  let st := solveKepler (e orbitalParams) (meanAnomaly orbitalParams tk) in
  realValue cycleEccentricity = Some (e orbitalParams) /\
  realValue cycleMeanAnomaly = Some (m0 orbitalParams) /\
  0 <= e orbitalParams < 1 /\
  iterations st = 100%nat /\
  1 / 1000000000000 < Rabs (Ek st - Ek_prev st) /\
  calculateSatellitePosition (satelliteArgs cycleRinexData "B01" gpsEpoch)
    = Ok (positionFromAnomaly orbitalParams tk (Ek st)) /\
  (forall engine : MathLib float,
      sampled engine cycleSamples ->
      let run := solveKepler (num := float) cycleEccentricity cycleMeanAnomaly in
      iterations run = 100%nat /\
      gtb (Math_abs (sub (Ek run) (Ek_prev run))) tolerance = true).
Proof.
  cbv zeta. rewrite cycle_timeFromEphemeris, cycle_meanAnomaly.
  change (e cycleOrbitalParameters) with cycleE.
  change (m0 cycleOrbitalParameters) with cycleM.
  destruct cycle_inputs_binary64 as [_ [_ [HE HM]]].
  destruct cycle_inputs_range as [He _].
  destruct solveKepler_cycle as [Hit [Hfar _]].
  split; [exact HE | split; [exact HM | split; [exact He |]]].
  split; [exact Hit | split; [exact Hfar | split; [exact cycle_propagation |]]].
  intros engine Hsampled. cbv zeta.
  rewrite (solveKepler_binary64 engine Hsampled).
  split; [reflexivity | vm_compute; reflexivity].
Qed.

(** C2 as the code has it.  In any arithmetic the solver takes between 1
    and 100 Newton steps and is left with the [while] test false, by the
    tolerance or by the cap, and its last iterate is used whichever it was:
    whenever the checks before the loop pass, [calculateSatellitePosition]
    returns the position computed from that iterate. *)
Theorem solveKepler_capped_no_error {num : Type} `{MathLib num} :
  (forall ecc normalizedMk : num,
      let st := solveKepler ecc normalizedMk in
      (1 <= iterations st <= 100)%nat /\
      Ek st = newtonStep ecc normalizedMk (Ek_prev st) /\
      loopTest st = false) /\
  (forall (rinex : RinexData num) (id : string) (sat : SatelliteEntry num)
          (orbitalParams : OrbitalParameters num) (t : Date),
      id <> EmptyString ->
      findSatellite rinex id = Some sat ->
      orbitalParameters sat = Some orbitalParams ->
      outsideValidity (timeParameters sat) t = false ->
      let tk := timeFromEphemeris orbitalParams t in
      let st := solveKepler (e orbitalParams) (meanAnomaly orbitalParams tk) in
      calculateSatellitePosition (satelliteArgs rinex id t)
      = Ok (positionFromAnomaly orbitalParams tk (Ek st))).
Proof.
  split.
  - intros ecc normalizedMk.
    destruct (solveKepler_left ecc normalizedMk) as [Hstep [Hbound Hleft]].
    cbv zeta. auto.
  - intros rinex id sat orbitalParams t Hid Hfind Hop Hvalid.
    cbv zeta.
    rewrite (calculateSatellitePosition_eq rinex id Hid t), Hfind, Hop, Hvalid.
    reflexivity.
Qed.

Lemma solveKepler_capped_no_error_witness :
  "B01"%string <> EmptyString /\
  loopTest (solveKepler cycleE cycleM) = false /\
  iterations (solveKepler cycleE cycleM) = 100%nat /\
  calculateSatellitePosition (satelliteArgs cycleRinexData "B01" gpsEpoch)
  = Ok (positionFromAnomaly cycleOrbitalParameters
          (timeFromEphemeris cycleOrbitalParameters gpsEpoch)
          (Ek (solveKepler (e cycleOrbitalParameters)
                 (meanAnomaly cycleOrbitalParameters
                    (timeFromEphemeris cycleOrbitalParameters gpsEpoch))))).
Proof.
  assert (HB : "B01"%string <> EmptyString) by discriminate.
  destruct (solveKepler_capped_no_error (num := R)) as [Hloop Hpos].
  split; [exact HB | split; [| split]].
  - exact (proj2 (proj2 (Hloop cycleE cycleM))).
  - exact (proj1 solveKepler_cycle).
  - exact (Hpos cycleRinexData "B01"%string
             {| sat_id := "B01"%string;
                orbitalParameters := Some cycleOrbitalParameters;
                timeParameters := None |}
             cycleOrbitalParameters gpsEpoch HB eq_refl eq_refl eq_refl).
Defined.

(** C5, counterexample.  The eccentricity [cycleE] lies in [0, 1) and the
    mean anomaly [cycleM] in [0, 2 PI), and both are binary64 numbers; the
    solver runs into the cap and the eccentric anomaly it returns has a
    residual above 1 / 10.  So it is in exact arithmetic; and the double
    that the binary64 loop returns, about 8.07e-10, has a residual above
    1e-12 as well, for every engine whose [Math.sin] and [Math.cos]
    return, at the nine doubles that the loop goes through, the doubles of
    [cycleSamples], each within half a unit in the last place of the sine
    or cosine ([cycleSamples_rounded]). *)
Lemma residual_at_cap :
  realValue cycleEccentricity = Some cycleE /\
  realValue cycleMeanAnomaly = Some cycleM /\
  0 <= cycleE < 1 /\
  0 <= cycleM < 2 * PI /\
  iterations (solveKepler cycleE cycleM) = 100%nat /\
  ~ Rabs (keplerResidual cycleE cycleM (Ek (solveKepler cycleE cycleM)))
    < 1 / 1000000000000 /\
  (forall engine : MathLib float,
      sampled engine cycleSamples ->
      exists E : R,
        realValue (Ek (solveKepler (num := float) cycleEccentricity
                         cycleMeanAnomaly)) = Some E /\
        ~ Rabs (keplerResidual cycleE cycleM E) < 1 / 1000000000000).
Proof.
  destruct cycle_inputs_binary64 as [_ [_ [HE HM]]].
  destruct cycle_inputs_range as [He HMr].
  destruct solveKepler_cycle as [Hit [_ Hres]].
  split; [exact HE | split; [exact HM | split; [exact He |]]].
  split; [exact HMr | split; [exact Hit | split; [lra |]]].
  intros engine Hsampled.
  rewrite (solveKepler_binary64 engine Hsampled). cbn [Ek].
  destruct cycle_binary64_residual as [E [Hvalue Hfar]].
  exists E. split; [exact Hvalue | lra].
Qed.

(** From [M = 1 / 2] with [e = 1 / 2] the loop converges. *)
Lemma half_converges : converges 1 (2 ^ Z.of_nat 1) 1 = true.
Proof. vm_compute. reflexivity. Qed.

Lemma solveKepler_residual_converged_witness :
  0 <= 1 / 2 < 1 /\
  (iterations (solveKepler (1 / 2)%R (1 / 2)%R) < 100)%nat /\
  Rabs (keplerResidual (1 / 2) (1 / 2) (Ek (solveKepler (1 / 2) (1 / 2))))
  < 1 / 1000000000000.
Proof.
  assert (He : 0 <= 1 / 2 < 1) by lra.
  assert (Hit : (iterations (solveKepler (1 / 2)%R (1 / 2)%R) < 100)%nat).
  { apply (converges_sound 1 1 1); [lia | exact half_converges]. }
  split; [exact He | split; [exact Hit |]].
  exact (solveKepler_residual_converged (1 / 2) (1 / 2) He (or_introl Hit)).
Defined.

(** * Further properties *)

(** ** occlusionChecker: the solid Earth *)

(** A quadratic that is nonpositive somewhere in [0, 1] and nonnegative at
    an end of the interval has a root in it. *)
Lemma quadratic_crossing_left (A B C t0 : R) :
  0 < A -> 0 <= t0 <= 1 -> A * t0 * t0 + B * t0 + C <= 0 -> 0 <= C ->
  exists t, 0 <= t <= 1 /\ A * t * t + B * t + C = 0.
Proof.
  intros HA [Ht0 Ht1] Hneg HC.
  assert (Hu : (2 * A * t0 + B) ^ 2 <= B * B - 4 * A * C) by nra.
  assert (HD : 0 <= B * B - 4 * A * C)
    by (pose proof (pow2_ge_0 (2 * A * t0 + B)); lra).
  set (s := sqrt (B * B - 4 * A * C)).
  assert (Hs : s * s = B * B - 4 * A * C) by (apply sqrt_sqrt; exact HD).
  assert (Hs0 : 0 <= s) by apply sqrt_pos.
  assert (Hlo : - s <= 2 * A * t0 + B) by nra.
  assert (Hhi : 2 * A * t0 + B <= s) by nra.
  destruct (Rle_dec 0 (- B - s)) as [Hr2 | Hr2].
  - exists ((- B - s) / (2 * A)). split.
    + split.
      * apply Rmult_le_reg_r with (2 * A); [lra |].
        unfold Rdiv. rewrite Rmult_assoc, Rinv_l by lra. lra.
      * apply Rmult_le_reg_r with (2 * A); [lra |].
        unfold Rdiv. rewrite Rmult_assoc, Rinv_l by lra. nra.
    + apply (quadratic_roots A B C _ HA HD). right. reflexivity.
  - assert (Hr1 : - B + s <= 0) by nra.
    assert (Hzero : - B + s = 0) by nra.
    exists 0. split; [lra |]. nra.
Qed.

Lemma quadratic_crossing (A B C t0 : R) :
  0 < A -> 0 <= t0 <= 1 -> A * t0 * t0 + B * t0 + C <= 0 ->
  0 <= C \/ 0 <= A + B + C ->
  exists t, 0 <= t <= 1 /\ A * t * t + B * t + C = 0.
Proof.
  intros HA Ht0 Hneg [HC | HC].
  - exact (quadratic_crossing_left A B C t0 HA Ht0 Hneg HC).
  - destruct (quadratic_crossing_left A (- (2 * A + B)) (A + B + C) (1 - t0))
      as [t [Ht Hroot]]; try lra; try nra.
    exists (1 - t). split; [lra | nra].
Qed.

Lemma segment_quadratic_value (p1 p2 : Vec3 R) (t : R) :
  normSq (segmentPoint p1 p2 t) - earthRadiusSq
  = ((vx p2 - vx p1) * (vx p2 - vx p1) + (vy p2 - vy p1) * (vy p2 - vy p1)
     + (vz p2 - vz p1) * (vz p2 - vz p1)) * t * t
    + 2 * (vx p1 * (vx p2 - vx p1) + vy p1 * (vy p2 - vy p1)
           + vz p1 * (vz p2 - vz p1)) * t
    + (normSq p1 - earthRadiusSq).
Proof.
  destruct p1 as [ox oy oz], p2 as [tx ty tz].
  unfold normSq, segmentPoint, dot, earthRadiusSq; cbn [vx vy vz]. ring.
Qed.

Lemma distinct_direction {p1 p2 : Vec3 R} :
  p1 <> p2 ->
  0 < (vx p2 - vx p1) * (vx p2 - vx p1) + (vy p2 - vy p1) * (vy p2 - vy p1)
      + (vz p2 - vz p1) * (vz p2 - vz p1).
Proof.
  destruct p1 as [ox oy oz], p2 as [tx ty tz]. cbn [vx vy vz]. intros Hne.
  apply sum_squares_pos.
  destruct (Req_dec ox tx) as [-> |]; [| left; lra].
  destruct (Req_dec oy ty) as [-> |]; [| right; left; lra].
  destruct (Req_dec oz tz) as [-> |]; [| right; right; lra].
  now elim Hne.
Qed.

Lemma segmentMeetsEarth_value (p1 p2 : Vec3 R) :
  segmentMeetsEarth p1 p2 <->
  exists t, 0 <= t <= 1 /\ normSq (segmentPoint p1 p2 t) - earthRadiusSq = 0.
Proof.
  unfold segmentMeetsEarth, normSq, earthRadiusSq.
  split; intros [t [Ht Heq]]; exists t; (split; [exact Ht | lra]).
Qed.

(** X1.  When the observer or the target lies on or outside the sphere, the
    test is that of the solid Earth: the result is [true] exactly when the
    two points differ and some point of the segment is at most 6378137 m
    from the centre. *)
Theorem occluded_solid_earth (observer target : Vec3 R) :
  earthRadiusSq <= normSq observer \/ earthRadiusSq <= normSq target ->
  (occluded observer target = true <->
   observer <> target /\ segmentEntersEarth observer target).
Proof.
  intros Hout. rewrite occluded_spec, <- segment_quadratic.
  split; intros [Hne Hseg]; (split; [exact Hne |]).
  - destruct Hseg as [t [Ht Heq]]. exists t. split; [exact Ht |].
    unfold normSq, earthRadiusSq. lra.
  - destruct Hseg as [t0 [Ht0 Hin]].
    apply segmentMeetsEarth_value.
    pose proof (distinct_direction Hne) as HA.
    pose proof (segment_quadratic_value observer target t0) as Hv0.
    pose proof (segment_quadratic_value observer target 1) as Hv1.
    assert (Hend : normSq (segmentPoint observer target 1) = normSq target).
    { destruct observer as [ox oy oz], target as [tx ty tz].
      unfold normSq, segmentPoint, dot; cbn [vx vy vz].
      ring. }
    set (A := (vx target - vx observer) * (vx target - vx observer)
              + (vy target - vy observer) * (vy target - vy observer)
              + (vz target - vz observer) * (vz target - vz observer)) in *.
    set (B := 2 * (vx observer * (vx target - vx observer)
                   + vy observer * (vy target - vy observer)
                   + vz observer * (vz target - vz observer))) in *.
    set (C := normSq observer - earthRadiusSq) in *.
    assert (HC : C = normSq observer - earthRadiusSq) by reflexivity.
    destruct (quadratic_crossing A B C t0 HA Ht0) as [t [Ht Hroot]];
      [lra | destruct Hout; [left | right]; lra |].
    exists t. split; [exact Ht |].
    rewrite (segment_quadratic_value observer target t). fold A B C. exact Hroot.
Qed.

Lemma occluded_solid_earth_witness :
  (earthRadiusSq <= normSq throughEarthObserver
   \/ earthRadiusSq <= normSq throughEarthTarget) /\
  (occluded (num := R) throughEarthObserver throughEarthTarget = true <->
   (throughEarthObserver : Vec3 R) <> throughEarthTarget
   /\ segmentEntersEarth throughEarthObserver throughEarthTarget).
Proof.
  assert (Hout : earthRadiusSq <= normSq throughEarthObserver
                 \/ earthRadiusSq <= normSq throughEarthTarget).
  { left. unfold earthRadiusSq, normSq, dot, throughEarthObserver; cbn. lra. }
  split; [exact Hout |].
  exact (occluded_solid_earth throughEarthObserver throughEarthTarget Hout).
Defined.

(** X2.  Two points strictly inside the sphere are never reported as
    occluded, although the whole segment lies inside the Earth. *)
Theorem occluded_both_inside (observer target : Vec3 R) :
  normSq observer < earthRadiusSq -> normSq target < earthRadiusSq ->
  occluded observer target = false /\ segmentEntersEarth observer target.
Proof.
  intros Hin1 Hin2. split.
  - destruct (occluded observer target) eqn:Hocc; [| reflexivity].
    exfalso. apply occluded_spec in Hocc. destruct Hocc as [Hne Hroot].
    apply segment_quadratic, segmentMeetsEarth_value in Hroot.
    destruct Hroot as [t [Ht Hzero]].
    pose proof (distinct_direction Hne) as HA.
    pose proof (segment_quadratic_value observer target t) as Hv.
    pose proof (segment_quadratic_value observer target 1) as Hv1.
    assert (Hend : normSq (segmentPoint observer target 1) = normSq target).
    { destruct observer as [ox oy oz], target as [tx ty tz].
      unfold normSq, segmentPoint, dot; cbn [vx vy vz].
      ring. }
    set (A := (vx target - vx observer) * (vx target - vx observer)
              + (vy target - vy observer) * (vy target - vy observer)
              + (vz target - vz observer) * (vz target - vz observer)) in *.
    set (B := 2 * (vx observer * (vx target - vx observer)
                   + vy observer * (vy target - vy observer)
                   + vz observer * (vz target - vz observer))) in *.
    set (C := normSq observer - earthRadiusSq) in *.
    assert (Hconvex : A * t * t + B * t + C
                      = (1 - t) * C + t * (A + B + C) - A * t * (1 - t)) by ring.
    assert (H1 : A + B + C < 0) by lra.
    assert (H0 : C < 0) by (unfold C; lra).
    assert (Hp1 : 0 <= A * t * (1 - t))
      by (rewrite Rmult_assoc; apply Rmult_le_pos; [lra | apply Rmult_le_pos; lra]).
    destruct (Req_dec t 1) as [-> | Hlt].
    + lra.
    + assert (Hp2 : (1 - t) * C < 0) by (apply Rmult_pos_neg; lra).
      assert (Hp3 : t * (A + B + C) <= 0)
        by (apply Rmult_le_0_l_neg || nra).
      lra.
  - exists 0. split; [lra |].
    replace (segmentPoint observer target 0) with observer; [lra |].
    destruct observer as [ox oy oz], target as [tx ty tz].
    unfold segmentPoint; cbn [vx vy vz]. f_equal; ring.
Qed.

Lemma occluded_both_inside_witness :
  normSq tunnelEntry < earthRadiusSq /\ normSq tunnelExit < earthRadiusSq /\
  occluded tunnelEntry tunnelExit = false /\
  segmentEntersEarth tunnelEntry tunnelExit.
Proof.
  assert (H1 : normSq tunnelEntry < earthRadiusSq)
    by (unfold normSq, dot, earthRadiusSq, tunnelEntry; cbn; lra).
  assert (H2 : normSq tunnelExit < earthRadiusSq)
    by (unfold normSq, dot, earthRadiusSq, tunnelExit; cbn; lra).
  split; [exact H1 | split; [exact H2 |]].
  exact (occluded_both_inside tunnelEntry tunnelExit H1 H2).
Defined.

Lemma segmentMeetsEarth_sym (p1 p2 : Vec3 R) :
  segmentMeetsEarth p1 p2 -> segmentMeetsEarth p2 p1.
Proof.
  destruct p1 as [ox oy oz], p2 as [tx ty tz].
  unfold segmentMeetsEarth, segmentPoint, dot; cbn [vx vy vz].
  intros [t [Ht Heq]]. exists (1 - t). split; [lra |].
  rewrite <- Heq. ring.
Qed.

(** X3.  The test does not depend on which end is the observer. *)
Theorem occluded_symmetric (observer target : Vec3 R) :
  occluded observer target = occluded target observer.
Proof.
  assert (Himp : forall p1 p2 : Vec3 R,
             occluded p1 p2 = true -> occluded p2 p1 = true).
  { intros p1 p2 Hocc. apply occluded_spec in Hocc. destruct Hocc as [Hne Hroot].
    apply occluded_spec. split; [congruence |].
    apply segment_quadratic, segmentMeetsEarth_sym, segment_quadratic. exact Hroot. }
  destruct (occluded observer target) eqn:H1, (occluded target observer) eqn:H2;
    try reflexivity.
  - apply Himp in H1. congruence.
  - apply Himp in H2. congruence.
Qed.

(** X4.  From a point outside the sphere, a target further out on the same
    ray from the Earth's centre is never occluded. *)
Theorem occluded_radial_clear (observer : Vec3 R) (k : R) :
  earthRadiusSq < normSq observer -> 1 <= k ->
  occluded observer (scale k observer) = false.
Proof.
  intros Hout Hk.
  destruct (occluded observer (scale k observer)) eqn:Hocc; [| reflexivity].
  exfalso. apply occluded_spec in Hocc. destruct Hocc as [_ Hroot].
  apply segment_quadratic in Hroot. destruct Hroot as [t [Ht Heq]].
  assert (Hpoint : dot (segmentPoint observer (scale k observer) t)
                       (segmentPoint observer (scale k observer) t)
                   = (1 + t * (k - 1)) ^ 2 * normSq observer).
  { destruct observer as [ox oy oz].
    unfold segmentPoint, scale, normSq, dot; cbn [vx vy vz]. ring. }
  rewrite Hpoint in Heq.
  assert (Hu : 0 <= t * (k - 1)) by (apply Rmult_le_pos; lra).
  assert (Hgrow : 1 <= (1 + t * (k - 1)) ^ 2).
  { generalize dependent (t * (k - 1)). intros u _ Hu. nra. }
  assert (Hpos : 0 < normSq observer) by (unfold earthRadiusSq in Hout; lra).
  unfold earthRadiusSq in Hout. nra.
Qed.

Lemma occluded_radial_clear_witness :
  earthRadiusSq < normSq (mkVec3 0 0 6388137) /\ 1 <= 4 /\
  occluded (mkVec3 0 0 6388137) (scale 4 (mkVec3 0 0 6388137)) = false.
Proof.
  assert (Hout : earthRadiusSq < normSq (mkVec3 0 0 6388137))
    by (unfold normSq, dot, earthRadiusSq; cbn; lra).
  assert (Hk : 1 <= 4) by lra.
  split; [exact Hout | split; [exact Hk |]].
  exact (occluded_radial_clear (mkVec3 0 0 6388137) 4 Hout Hk).
Defined.

(** ** signalStrengthCalculator: distance and the link budget *)

Lemma euclideanDistance_nonneg (p q : Vec3 R) : 0 <= euclideanDistance p q.
Proof. apply sqrt_pos. Qed.

Lemma euclideanDistance_zero (p q : Vec3 R) :
  euclideanDistance p q <= 0 <-> p = q.
Proof.
  destruct p as [px py pz], q as [qx qy qz].
  unfold euclideanDistance; cbn [vx vy vz].
  set (s := (px - qx) ^ 2 + (py - qy) ^ 2 + (pz - qz) ^ 2).
  assert (Hs : 0 <= s)
    by (unfold s; pose proof (pow2_ge_0 (px - qx)); pose proof (pow2_ge_0 (py - qy));
        pose proof (pow2_ge_0 (pz - qz)); lra).
  split.
  - intros Hle.
    assert (Hz : sqrt s = 0) by (pose proof (sqrt_pos s); lra).
    apply sqrt_eq_0 in Hz; [| exact Hs].
    pose proof (pow2_ge_0 (px - qx)). pose proof (pow2_ge_0 (py - qy)).
    pose proof (pow2_ge_0 (pz - qz)). unfold s in Hz.
    assert (Hx : Rsqr (px - qx) = 0) by (unfold Rsqr; lra).
    assert (Hy : Rsqr (py - qy) = 0) by (unfold Rsqr; lra).
    assert (Hzz : Rsqr (pz - qz) = 0) by (unfold Rsqr; lra).
    apply Rsqr_0_uniq in Hx, Hy, Hzz.
    f_equal; lra.
  - intros Heq. injection Heq as -> -> ->.
    replace s with 0 by (unfold s; ring). rewrite sqrt_0. lra.
Qed.

Lemma euclideanDistance_sym (p q : Vec3 R) :
  euclideanDistance p q = euclideanDistance q p.
Proof. unfold euclideanDistance. f_equal. ring. Qed.

(** X5.  [calculateDistance] is a metric: it is never negative, zero only
    between equal points, symmetric, and satisfies the triangle
    inequality. *)
Theorem calculateDistance_metric (p q r : Vec3 R) :
  0 <= calculateDistance p q /\
  (calculateDistance p q = 0 <-> p = q) /\
  calculateDistance p q = calculateDistance q p /\
  calculateDistance p r <= calculateDistance p q + calculateDistance q r.
Proof.
  rewrite !calculateDistance_euclidean.
  split; [apply euclideanDistance_nonneg |].
  split.
  { rewrite <- euclideanDistance_zero. pose proof (euclideanDistance_nonneg p q).
    split; lra. }
  split; [apply euclideanDistance_sym |].
  destruct p as [px py pz], q as [qx qy qz], r as [rx ry rz].
  unfold euclideanDistance; cbn [vx vy vz].
  set (ux := px - qx). set (uy := py - qy). set (uz := pz - qz).
  set (wx := qx - rx). set (wy := qy - ry). set (wz := qz - rz).
  replace (px - rx) with (ux + wx) by (unfold ux, wx; ring).
  replace (py - ry) with (uy + wy) by (unfold uy, wy; ring).
  replace (pz - rz) with (uz + wz) by (unfold uz, wz; ring).
  set (b := ux ^ 2 + uy ^ 2 + uz ^ 2). set (c := wx ^ 2 + wy ^ 2 + wz ^ 2).
  assert (Hb : 0 <= b) by (unfold b; nra).
  assert (Hc : 0 <= c) by (unfold c; nra).
  pose proof (sqrt_pos b) as Hsb. pose proof (sqrt_pos c) as Hsc.
  pose proof (sqrt_sqrt b Hb) as Hbb. pose proof (sqrt_sqrt c Hc) as Hcc.
  assert (Hcs : ux * wx + uy * wy + uz * wz <= sqrt b * sqrt c).
  { destruct (Rle_dec (ux * wx + uy * wy + uz * wz) 0) as [Hneg | Hpos].
    - pose proof (Rmult_le_pos _ _ Hsb Hsc). lra.
    - apply Rnot_le_lt in Hpos.
      assert (Hsq : (ux * wx + uy * wy + uz * wz) ^ 2 <= (sqrt b * sqrt c) ^ 2).
      { replace ((sqrt b * sqrt c) ^ 2) with ((sqrt b * sqrt b) * (sqrt c * sqrt c))
          by ring.
        rewrite Hbb, Hcc. unfold b, c.
        assert (Hlagrange :
                  (ux ^ 2 + uy ^ 2 + uz ^ 2) * (wx ^ 2 + wy ^ 2 + wz ^ 2)
                  - (ux * wx + uy * wy + uz * wz) ^ 2
                  = (ux * wy - uy * wx) ^ 2 + (ux * wz - uz * wx) ^ 2
                    + (uy * wz - uz * wy) ^ 2) by ring.
        pose proof (pow2_ge_0 (ux * wy - uy * wx)).
        pose proof (pow2_ge_0 (ux * wz - uz * wx)).
        pose proof (pow2_ge_0 (uy * wz - uz * wy)). lra. }
      pose proof (Rmult_le_pos _ _ Hsb Hsc) as Hprod.
      apply Rsqr_incr_0_var; [unfold Rsqr; lra | exact Hprod]. }
  rewrite <- (sqrt_square (sqrt b + sqrt c)) by lra.
  apply sqrt_le_1_alt.
  replace ((sqrt b + sqrt c) * (sqrt b + sqrt c))
    with (sqrt b * sqrt b + sqrt c * sqrt c + 2 * (sqrt b * sqrt c)) by ring.
  rewrite Hbb, Hcc.
  replace ((ux + wx) ^ 2 + (uy + wy) ^ 2 + (uz + wz) ^ 2)
    with (b + c + 2 * (ux * wx + uy * wy + uz * wz)) by (unfold b, c; ring).
  lra.
Qed.

(** X6.  With the required parameters present, the result is the sentinel
    [-Infinity] exactly when the two positions coincide or the frequency is
    not positive. *)
Theorem calculateSignalStrength_sentinel_iff
    (observer target : Vec3 R) (transmitPowerDbw frequencyHz : R)
    (satGain rxGain : option R) :
  calculateSignalStrength
    (signalArgs observer target transmitPowerDbw frequencyHz satGain rxGain)
  = Ok NegativeInfinity
  <-> observer = target \/ frequencyHz <= 0.
Proof.
  rewrite calculateSignalStrength_eq, <- euclideanDistance_zero.
  destruct (Rleb (euclideanDistance observer target) 0 || Rleb frequencyHz 0)
    eqn:Hguard.
  - apply orb_true_iff in Hguard. rewrite !Rleb_true in Hguard. tauto.
  - apply orb_false_iff in Hguard. rewrite !Rleb_false in Hguard.
    split; [discriminate | lra].
Qed.

Lemma Rlog10_increasing (a b : R) : 0 < a -> a < b -> Rlog10 a < Rlog10 b.
Proof.
  intros Ha Hab. unfold Rlog10.
  assert (Hln10 : 0 < ln 10) by (rewrite <- ln_1; apply ln_increasing; lra).
  apply Rmult_lt_compat_r; [apply Rinv_0_lt_compat; exact Hln10 |].
  apply ln_increasing; assumption.
Qed.

Lemma Rlog10_div (a b : R) : 0 < a -> 0 < b -> Rlog10 (b / a) = Rlog10 b - Rlog10 a.
Proof.
  intros Ha Hb. unfold Rlog10.
  change (b / a) with (b * / a).
  rewrite ln_mult, ln_Rinv by (try apply Rinv_0_lt_compat; assumption).
  assert (Hln10 : 0 < ln 10) by (rewrite <- ln_1; apply ln_increasing; lra).
  field. lra.
Qed.

(** X7.  The inverse-square law: between two links with the same transmit
    power and antenna gains, with positive distances [d1], [d2] and
    positive frequencies [f1], [f2], the received strength differs by
    [- 20 log10 (d2 / d1) - 20 log10 (f2 / f1)] dB. *)
Theorem calculateSignalStrength_link_law
    (observer1 target1 observer2 target2 : Vec3 R) (transmitPowerDbw f1 f2 : R)
    (satGain rxGain : option R) :
  0 < euclideanDistance observer1 target1 ->
  0 < euclideanDistance observer2 target2 ->
  0 < f1 -> 0 < f2 ->
  exists v1 v2 : R,
    calculateSignalStrength
      (signalArgs observer1 target1 transmitPowerDbw f1 satGain rxGain)
    = Ok (Dbm v1) /\
    calculateSignalStrength
      (signalArgs observer2 target2 transmitPowerDbw f2 satGain rxGain)
    = Ok (Dbm v2) /\
    v2 - v1 = - 20 * Rlog10 (euclideanDistance observer2 target2
                             / euclideanDistance observer1 target1)
              - 20 * Rlog10 (f2 / f1).
Proof.
  intros Hd1 Hd2 Hf1 Hf2.
  rewrite !calculateSignalStrength_eq.
  rewrite (proj2 (Rleb_false _ 0) Hd1), (proj2 (Rleb_false _ 0) Hd2),
          (proj2 (Rleb_false _ 0) Hf1), (proj2 (Rleb_false _ 0) Hf2).
  cbn [orb]. eexists. eexists. split; [reflexivity | split; [reflexivity |]].
  rewrite !Rlog10_div by assumption. unfold FSPL. ring.
Qed.

Lemma testLinkHigh_distance :
  euclideanDistance testAircraft testSatelliteHigh = 39990000.
Proof.
  unfold euclideanDistance, testAircraft, testSatelliteHigh; cbn [vx vy vz].
  match goal with
  | |- sqrt ?a = _ => replace a with (39990000 * 39990000) by ring
  end.
  apply sqrt_square. lra.
Qed.

Lemma calculateSignalStrength_link_law_witness :
  0 < euclideanDistance testAircraft testSatellite /\
  0 < euclideanDistance testAircraft testSatelliteHigh /\
  0 < testFrequency /\
  exists v1 v2 : R,
    calculateSignalStrength
      (signalArgs testAircraft testSatellite 20 testFrequency None None)
    = Ok (Dbm v1) /\
    calculateSignalStrength
      (signalArgs testAircraft testSatelliteHigh 20 testFrequency None None)
    = Ok (Dbm v2) /\
    v2 - v1 = - 20 * Rlog10 (euclideanDistance testAircraft testSatelliteHigh
                             / euclideanDistance testAircraft testSatellite)
              - 20 * Rlog10 (testFrequency / testFrequency).
Proof.
  assert (Hd1 : 0 < euclideanDistance testAircraft testSatellite)
    by (rewrite testLink_distance; lra).
  assert (Hd2 : 0 < euclideanDistance testAircraft testSatelliteHigh)
    by (rewrite testLinkHigh_distance; lra).
  assert (Hf : 0 < testFrequency) by (unfold testFrequency; lra).
  split; [exact Hd1 | split; [exact Hd2 | split; [exact Hf |]]].
  exact (calculateSignalStrength_link_law testAircraft testSatellite
           testAircraft testSatelliteHigh 20 testFrequency testFrequency
           None None Hd1 Hd2 Hf Hf).
Defined.

(** X8.  Monotonic decay: with the same transmit power, frequency and
    gains, the longer of two links of positive length is strictly weaker;
    and on the same link a higher frequency is strictly weaker. *)
Theorem calculateSignalStrength_decay
    (observer1 target1 observer2 target2 : Vec3 R) (transmitPowerDbw f1 f2 : R)
    (satGain rxGain : option R) :
  0 < euclideanDistance observer1 target1 ->
  euclideanDistance observer1 target1 <= euclideanDistance observer2 target2 ->
  0 < f1 -> f1 <= f2 ->
  euclideanDistance observer1 target1 < euclideanDistance observer2 target2
  \/ f1 < f2 ->
  exists v1 v2 : R,
    calculateSignalStrength
      (signalArgs observer1 target1 transmitPowerDbw f1 satGain rxGain)
    = Ok (Dbm v1) /\
    calculateSignalStrength
      (signalArgs observer2 target2 transmitPowerDbw f2 satGain rxGain)
    = Ok (Dbm v2) /\
    v2 < v1.
Proof.
  intros Hd1 Hd Hf1 Hf Hstrict.
  assert (Hd2 : 0 < euclideanDistance observer2 target2) by lra.
  assert (Hf2 : 0 < f2) by lra.
  rewrite !calculateSignalStrength_eq.
  rewrite (proj2 (Rleb_false _ 0) Hd1), (proj2 (Rleb_false _ 0) Hd2),
          (proj2 (Rleb_false _ 0) Hf1), (proj2 (Rleb_false _ 0) Hf2).
  cbn [orb]. eexists. eexists. split; [reflexivity | split; [reflexivity |]].
  unfold FSPL.
  assert (Hld : Rlog10 (euclideanDistance observer1 target1)
                <= Rlog10 (euclideanDistance observer2 target2)).
  { destruct Hd as [Hlt | Heq];
      [left; apply Rlog10_increasing; assumption | rewrite Heq; lra]. }
  assert (Hlf : Rlog10 f1 <= Rlog10 f2).
  { destruct Hf as [Hlt | Heq];
      [left; apply Rlog10_increasing; assumption | rewrite Heq; lra]. }
  destruct Hstrict as [Hlt | Hlt].
  - pose proof (Rlog10_increasing _ _ Hd1 Hlt). lra.
  - pose proof (Rlog10_increasing _ _ Hf1 Hlt). lra.
Qed.

Lemma calculateSignalStrength_decay_witness :
  0 < euclideanDistance testAircraft testSatellite /\
  euclideanDistance testAircraft testSatellite
    < euclideanDistance testAircraft testSatelliteHigh /\
  0 < testFrequency /\
  exists v1 v2 : R,
    calculateSignalStrength
      (signalArgs testAircraft testSatellite 20 testFrequency None None)
    = Ok (Dbm v1) /\
    calculateSignalStrength
      (signalArgs testAircraft testSatelliteHigh 20 testFrequency None None)
    = Ok (Dbm v2) /\
    v2 < v1.
Proof.
  assert (Hd1 : 0 < euclideanDistance testAircraft testSatellite)
    by (rewrite testLink_distance; lra).
  assert (Hlt : euclideanDistance testAircraft testSatellite
                < euclideanDistance testAircraft testSatelliteHigh)
    by (rewrite testLink_distance, testLinkHigh_distance; lra).
  assert (Hf : 0 < testFrequency) by (unfold testFrequency; lra).
  split; [exact Hd1 | split; [exact Hlt | split; [exact Hf |]]].
  exact (calculateSignalStrength_decay testAircraft testSatellite
           testAircraft testSatelliteHigh 20 testFrequency testFrequency
           None None Hd1 (Rlt_le _ _ Hlt) Hf (Rle_refl _) (or_introl Hlt)).
Defined.

(** X9.  Swapping the aircraft and the satellite position does not change
    the result. *)
Theorem calculateSignalStrength_swap
    (observer target : Vec3 R) (transmitPowerDbw frequencyHz : R)
    (satGain rxGain : option R) :
  calculateSignalStrength
    (signalArgs observer target transmitPowerDbw frequencyHz satGain rxGain)
  = calculateSignalStrength
      (signalArgs target observer transmitPowerDbw frequencyHz satGain rxGain).
Proof.
  rewrite !calculateSignalStrength_eq, (euclideanDistance_sym observer target).
  reflexivity.
Qed.

(** ** satelliteCalculator: time and mean anomaly *)

Lemma Rfmod_nonneg (a b : R) : 0 < b -> 0 <= a -> 0 <= Rfmod a b < b.
Proof.
  intros Hb Ha. unfold Rfmod, Rtrunc.
  assert (Hq : 0 <= a / b)
    by (apply Rmult_le_pos; [lra | left; apply Rinv_0_lt_compat; lra]).
  destruct (Rle_dec 0 (a / b)) as [_ | Hneg]; [| lra].
  destruct (base_Int_part (a / b)) as [Hlo Hhi].
  assert (Ha' : a = b * (a / b)) by (field; lra).
  set (n := IZR (Int_part (a / b))) in *.
  split; nra.
Qed.

Lemma Rfmod_neg (a b : R) : 0 < b -> a < 0 -> - b < Rfmod a b <= 0.
Proof.
  intros Hb Ha. unfold Rfmod, Rtrunc.
  assert (Hq : a / b < 0).
  { apply Rmult_lt_reg_r with b; [lra |].
    unfold Rdiv. rewrite Rmult_assoc, Rinv_l by lra. lra. }
  destruct (Rle_dec 0 (a / b)) as [Hpos | _]; [lra |].
  destruct (base_Int_part (- (a / b))) as [Hlo Hhi].
  assert (Ha' : a = b * (a / b)) by (field; lra).
  set (n := IZR (Int_part (- (a / b)))) in *.
  split; nra.
Qed.

Lemma Rfmod_congruent (a b : R) : exists k : Z, Rfmod a b = a - b * IZR k.
Proof.
  unfold Rfmod, Rtrunc. destruct (Rle_dec 0 (a / b)).
  - eexists. reflexivity.
  - exists (- Int_part (- (a / b)))%Z. rewrite opp_IZR. reflexivity.
Qed.

Lemma timeFromEphemeris_R (orbitalParams : OrbitalParameters R) (t : Date) :
  timeFromEphemeris orbitalParams t
  = let tk := Rfmod (IZR t / 1000 - 315964800) 604800 - toe orbitalParams in
    if Rltb (604800 / 2) tk then tk - 604800
    else if Rltb tk (- (604800 / 2)) then tk + 604800
    else tk.
Proof. reflexivity. Qed.

(** X10.  For a reference time [toe] within the week and a timestamp at or
    after the GPS epoch, the time from ephemeris is within half a week,
    [|tk| <= 302400], and differs from the GPS time minus [toe] by a whole
    number of weeks. *)
Theorem timeFromEphemeris_half_week (orbitalParams : OrbitalParameters R)
    (t : Date) :
  0 <= toe orbitalParams <= 604800 ->
  (315964800000 <= t)%Z ->
  - 302400 <= timeFromEphemeris orbitalParams t <= 302400 /\
  exists k : Z,
    timeFromEphemeris orbitalParams t
    = IZR t / 1000 - 315964800 - toe orbitalParams - 604800 * IZR k.
Proof.
  intros Htoe Ht. rewrite timeFromEphemeris_R. cbv zeta.
  assert (Hgps : 0 <= IZR t / 1000 - 315964800).
  { apply IZR_le in Ht. lra. }
  destruct (Rfmod_nonneg (IZR t / 1000 - 315964800) 604800) as [Hs0 Hs1];
    [lra | exact Hgps |].
  destruct (Rfmod_congruent (IZR t / 1000 - 315964800) 604800) as [k Hk].
  set (t_sow := Rfmod (IZR t / 1000 - 315964800) 604800) in *.
  destruct (Rltb (604800 / 2) (t_sow - toe orbitalParams)) eqn:Hhigh.
  - apply Rltb_true in Hhigh. split; [lra |].
    exists (k + 1)%Z. rewrite plus_IZR. lra.
  - apply Rltb_false in Hhigh.
    destruct (Rltb (t_sow - toe orbitalParams) (- (604800 / 2))) eqn:Hlow.
    + apply Rltb_true in Hlow. split; [lra |].
      exists (k - 1)%Z. rewrite minus_IZR. lra.
    + apply Rltb_false in Hlow. split; [lra |].
      exists k. lra.
Qed.

Lemma timeFromEphemeris_half_week_witness :
  0 <= toe exampleOrbitalParameters <= 604800 /\
  (315964800000 <= exampleValidFrom)%Z /\
  - 302400 <= timeFromEphemeris exampleOrbitalParameters exampleValidFrom
            <= 302400.
Proof.
  assert (Htoe : 0 <= toe exampleOrbitalParameters <= 604800) by (cbn; lra).
  assert (Ht : (315964800000 <= exampleValidFrom)%Z)
    by (unfold exampleValidFrom; lia).
  split; [exact Htoe | split; [exact Ht |]].
  exact (proj1 (timeFromEphemeris_half_week exampleOrbitalParameters
                  exampleValidFrom Htoe Ht)).
Defined.

Lemma meanAnomaly_R (orbitalParams : OrbitalParameters R) (tk : R) :
  meanAnomaly orbitalParams tk
  = let Mk := m0 orbitalParams
              + (sqrt (398600441800000 / rootA orbitalParams ^ 6)
                 + deltaN orbitalParams) * tk in
    Rfmod (Rfmod Mk (2 * PI) + 2 * PI) (2 * PI).
Proof. reflexivity. Qed.

(** X11.  The normalised mean anomaly always lies in [0, 2 PI) and differs
    from [m0 + n tk] by a whole number of turns. *)
Theorem meanAnomaly_normalised (orbitalParams : OrbitalParameters R) (tk : R) :
  0 <= meanAnomaly orbitalParams tk < 2 * PI /\
  exists k : Z,
    meanAnomaly orbitalParams tk
    = m0 orbitalParams
      + (sqrt (398600441800000 / rootA orbitalParams ^ 6)
         + deltaN orbitalParams) * tk
      - 2 * PI * IZR k.
Proof.
  rewrite meanAnomaly_R. cbv zeta.
  set (Mk := m0 orbitalParams
             + (sqrt (398600441800000 / rootA orbitalParams ^ 6)
                + deltaN orbitalParams) * tk).
  pose proof PI_RGT_0 as Hpi.
  assert (Hfirst : - (2 * PI) < Rfmod Mk (2 * PI) < 2 * PI).
  { destruct (Rle_dec 0 Mk) as [Hpos | Hneg].
    - destruct (Rfmod_nonneg Mk (2 * PI)); lra.
    - destruct (Rfmod_neg Mk (2 * PI)); lra. }
  split.
  - apply Rfmod_nonneg; lra.
  - destruct (Rfmod_congruent Mk (2 * PI)) as [k1 Hk1].
    destruct (Rfmod_congruent (Rfmod Mk (2 * PI) + 2 * PI) (2 * PI)) as [k2 Hk2].
    exists (k1 + k2 - 1)%Z. rewrite Hk2, Hk1, minus_IZR, plus_IZR. ring.
Qed.

(** ** satelliteCalculator: the position *)

Lemma positionFromAnomaly_normSq (orbitalParams : OrbitalParameters R)
    (tk E : R) :
  exists phik : R,
    normSq (positionFromAnomaly orbitalParams tk E)
    = (rootA orbitalParams ^ 2 * (1 - e orbitalParams * cos E)
       + (crs orbitalParams * sin (2 * phik)
          + crc orbitalParams * cos (2 * phik))) ^ 2.
Proof.
  unfold positionFromAnomaly. cbv zeta.
  cbn [lit add sub mul div RNumber Math_sqrt Math_sin Math_cos Math_atan2
       Math_pow RMath].
  match goal with
  | |- context [Ratan2 ?b ?a + omega orbitalParams] =>
      exists (Ratan2 b a + omega orbitalParams);
      generalize (Ratan2 b a + omega orbitalParams)
  end.
  intros phik. unfold normSq, dot; cbn [vx vy vz].
  set (rk := rootA orbitalParams ^ 2 * (1 - e orbitalParams * cos E)
             + (crs orbitalParams * sin (2 * phik)
                + crc orbitalParams * cos (2 * phik))).
  match goal with
  | |- context [rk * cos ?u] =>
      generalize (sin2_cos2 u); generalize (sin u); generalize (cos u)
  end.
  intros cu su Hu. unfold Rsqr in Hu.
  match goal with
  | |- context [cos ?o] =>
      match o with
      | context [omega0 orbitalParams] =>
          generalize (sin2_cos2 o); generalize (sin o); generalize (cos o)
      end
  end.
  intros cO sO HO. unfold Rsqr in HO.
  match goal with
  | |- context [rk * su * sin ?i] =>
      generalize (sin2_cos2 i); generalize (sin i); generalize (cos i)
  end.
  intros ci si Hi. unfold Rsqr in Hi.
  generalize dependent rk. intros rk.
  transitivity
    (rk ^ 2
     + (sO * sO + cO * cO - 1) * (rk ^ 2 * cu * cu + rk ^ 2 * su * su * ci * ci)
     + rk ^ 2 * su * su * (si * si + ci * ci - 1)
     + rk ^ 2 * (su * su + cu * cu - 1));
    [ring | rewrite Hu, HO, Hi; ring].
Qed.

(** X12.  Whatever the eccentric anomaly the solver ends with, the returned
    position lies in the shell of the orbit: its distance [rk] from the
    Earth's centre is between [a (1 - |e|)] and [a (1 + |e|)], [a = rootA^2],
    up to the amplitude [|crs| + |crc|] of the radius correction. *)
Theorem propagate_shell (orbitalParams : OrbitalParameters R) (t : Date) :
  exists rk : R,
    normSq (propagate orbitalParams t) = rk ^ 2 /\
    rootA orbitalParams ^ 2 * (1 - Rabs (e orbitalParams))
      - (Rabs (crs orbitalParams) + Rabs (crc orbitalParams))
    <= rk
    <= rootA orbitalParams ^ 2 * (1 + Rabs (e orbitalParams))
       + (Rabs (crs orbitalParams) + Rabs (crc orbitalParams)).
Proof.
  unfold propagate. cbv zeta.
  generalize (Ek (solveKepler (e orbitalParams)
                    (meanAnomaly orbitalParams
                       (timeFromEphemeris orbitalParams t)))).
  intros E.
  destruct (positionFromAnomaly_normSq orbitalParams
              (timeFromEphemeris orbitalParams t) E) as [phik Hnorm].
  eexists. split; [exact Hnorm |].
  assert (Ha : 0 <= rootA orbitalParams ^ 2) by apply pow2_ge_0.
  assert (Hecos : Rabs (e orbitalParams * cos E) <= Rabs (e orbitalParams)).
  { rewrite Rabs_mult. pose proof (COS_bound E) as Hc.
    assert (Rabs (cos E) <= 1) by (apply Rabs_le; lra).
    pose proof (Rabs_pos (e orbitalParams)). nra. }
  assert (Hs : Rabs (crs orbitalParams * sin (2 * phik))
               <= Rabs (crs orbitalParams)).
  { rewrite Rabs_mult. pose proof (SIN_bound (2 * phik)) as Hb.
    assert (Rabs (sin (2 * phik)) <= 1) by (apply Rabs_le; lra).
    pose proof (Rabs_pos (crs orbitalParams)). nra. }
  assert (Hc : Rabs (crc orbitalParams * cos (2 * phik))
               <= Rabs (crc orbitalParams)).
  { rewrite Rabs_mult. pose proof (COS_bound (2 * phik)) as Hb.
    assert (Rabs (cos (2 * phik)) <= 1) by (apply Rabs_le; lra).
    pose proof (Rabs_pos (crc orbitalParams)). nra. }
  apply Rabs_le_inv in Hecos, Hs, Hc.
  set (ec := e orbitalParams * cos E) in *.
  set (ds := crs orbitalParams * sin (2 * phik)) in *.
  set (dc := crc orbitalParams * cos (2 * phik)) in *.
  clearbody ec ds dc. clear Hnorm.
  split; nra.
Qed.

(** ** satelliteCalculator: the checks *)

(** X13.  The parameter check: [calculateSatellitePosition] throws the
    missing-parameter error exactly when the parameter object, the
    ephemeris data, the satellite id or the timestamp is absent, or the id
    is the empty string; the lookup and the validity check never do. *)
Theorem calculateSatellitePosition_missing_parameter
    {num : Type} `{MathLib num} (params : option (SatelliteParams num)) :
  calculateSatellitePosition params = Throw MissingParameter <->
  match params with
  | None => True
  | Some p => rinexData p = None \/ satelliteId p = None
              \/ satelliteId p = Some EmptyString \/ timestamp p = None
  end.
Proof.
  unfold calculateSatellitePosition.
  destruct params as [p |]; [| tauto].
  destruct (rinexData p) as [rinex |]; [| cbn; tauto].
  destruct (satelliteId p) as [id |]; [| cbn; tauto].
  unfold truthyString.
  destruct (String.eqb id EmptyString) eqn:Hid.
  - apply String.eqb_eq in Hid. subst id. tauto.
  - apply String.eqb_neq in Hid.
    destruct (timestamp p) as [t |]; [| tauto].
    split.
    + intros Hthrow. exfalso.
      destruct (findSatellite rinex id) as [sat |]; [| discriminate].
      destruct (orbitalParameters sat); [| discriminate].
      destruct (outsideValidity (timeParameters sat) t); discriminate.
    + intros [Hc | [Hc | [Hc | Hc]]]; try discriminate.
      injection Hc as ->. now elim Hid.
Qed.

(** X14.  With a validity window present, the timestamps rejected are
    exactly those before [validFrom] or after [validTo]; every other
    timestamp is propagated.  A window with [validTo < validFrom] rejects
    every timestamp. *)
Theorem calculateSatellitePosition_window
    {num : Type} `{MathLib num} (rinex : RinexData num) (id : string)
    (sat : SatelliteEntry num) (orbitalParams : OrbitalParameters num)
    (timeParams : TimeParameters) (from to t : Date) :
  id <> EmptyString ->
  findSatellite rinex id = Some sat ->
  orbitalParameters sat = Some orbitalParams ->
  timeParameters sat = Some timeParams ->
  validFrom timeParams = Some from ->
  validTo timeParams = Some to ->
  (calculateSatellitePosition (satelliteArgs rinex id t)
     = Throw OutOfValidityRange <-> (t < from \/ to < t)%Z) /\
  (calculateSatellitePosition (satelliteArgs rinex id t)
     = Ok (propagate orbitalParams t) <-> (from <= t <= to)%Z) /\
  ((to < from)%Z ->
   calculateSatellitePosition (satelliteArgs rinex id t)
     = Throw OutOfValidityRange).
Proof.
  intros Hid Hfind Hop Htp Hfrom Hto.
  rewrite (calculateSatellitePosition_eq rinex id Hid t), Hfind, Hop, Htp.
  cbn [outsideValidity]. rewrite Hfrom, Hto.
  destruct ((t <? from)%Z || (t >? to)%Z) eqn:Hout.
  - apply orb_true_iff in Hout. rewrite Z.ltb_lt, Z.gtb_ltb, Z.ltb_lt in Hout.
    repeat split; try tauto; try discriminate; intros; lia.
  - apply orb_false_iff in Hout. rewrite Z.ltb_ge, Z.gtb_ltb, Z.ltb_ge in Hout.
    repeat split; try tauto; try discriminate; intros; lia.
Qed.

Lemma calculateSatellitePosition_window_witness :
  "B01"%string <> EmptyString /\
  findSatellite exampleRinexData "B01" = Some exampleEntry /\
  (calculateSatellitePosition
     (satelliteArgs exampleRinexData "B01" (exampleValidFrom - 1)%Z)
   = Throw OutOfValidityRange <->
   (exampleValidFrom - 1 < exampleValidFrom
    \/ exampleValidTo < exampleValidFrom - 1)%Z).
Proof.
  assert (HB : "B01"%string <> EmptyString) by discriminate.
  split; [exact HB | split; [reflexivity |]].
  exact (proj1 (calculateSatellitePosition_window
                  exampleRinexData "B01" exampleEntry exampleOrbitalParameters
                  {| validFrom := Some exampleValidFrom;
                     validTo := Some exampleValidTo |}
                  exampleValidFrom exampleValidTo (exampleValidFrom - 1)%Z
                  HB eq_refl eq_refl eq_refl eq_refl eq_refl)).
Defined.

(** X15.  The early revision fails exactly like the later one, except that
    it has no validity check: where the later one returns a position or
    rejects the timestamp, the early one returns its fixed position. *)
Theorem calculateSatellitePosition_revisions
    {num : Type} `{MathLib num} (params : option (SatelliteParams num)) :
  SatelliteCalculatorStub.calculateSatellitePosition params
  = match calculateSatellitePosition params with
    | Ok _ | Throw OutOfValidityRange => Ok stubPosition
    | Throw err => Throw err
    end.
Proof.
  unfold SatelliteCalculatorStub.calculateSatellitePosition,
    calculateSatellitePosition.
  destruct params as [p |]; [| reflexivity].
  destruct (rinexData p) as [rinex |]; [| reflexivity].
  destruct (truthyString (satelliteId p)) as [id |]; [| reflexivity].
  destruct (timestamp p) as [t |]; [| reflexivity].
  destruct (findSatellite rinex id) as [sat |]; [| reflexivity].
  destruct (orbitalParameters sat); [| reflexivity].
  destruct (outsideValidity (timeParameters sat) t); reflexivity.
Qed.

(** X16.  On a circular orbit, and at perigee or apogee of any orbit with
    [0 <= e < 1], the solver stops after one iteration with [E = M], which
    solves Kepler's equation exactly. *)
Theorem solveKepler_immediate (ecc M : R) :
  0 <= ecc < 1 ->
  ecc = 0 \/ sin M = 0 ->
  solveKepler ecc M = {| Ek := M; Ek_prev := M; iterations := 1%nat |} /\
  keplerResidual ecc M M = 0.
Proof.
  intros Hecc Hflat.
  assert (Hzero : ecc * sin M = 0) by (destruct Hflat as [-> | ->]; ring).
  assert (Hstep : newtonStep ecc M M = M).
  { rewrite newtonStep_R.
    pose proof (COS_bound M) as Hc.
    assert (HD : 1 - ecc * cos M <> 0) by nra.
    replace (M - ecc * sin M - M) with 0 by lra. field. exact HD. }
  split.
  - unfold solveKepler. rewrite keplerLoop_unfold. cbv zeta.
    rewrite Hstep. unfold loopTest, gtb.
    cbn [Ek Ek_prev iterations ltb sub Math_abs RNumber].
    rewrite tolerance_R.
    replace (Rltb (1 / 1000000000000) (Rabs (M - M))) with false; [reflexivity |].
    symmetry. apply Rltb_false. rewrite Rminus_diag, Rabs_R0. lra.
  - unfold keplerResidual. lra.
Qed.

Lemma solveKepler_immediate_witness :
  0 <= 0 < 1 /\ (0 = 0 \/ sin 1 = 0) /\
  solveKepler 0 1 = {| Ek := 1 : R; Ek_prev := 1 : R; iterations := 1%nat |}.
Proof.
  assert (He : 0 <= 0 < 1) by lra.
  assert (Hflat : 0 = 0 \/ sin 1 = 0) by (left; reflexivity).
  split; [exact He | split; [exact Hflat |]].
  exact (proj1 (solveKepler_immediate 0 1 He Hflat)).
Defined.

(** ** trajectorySimulator *)

Lemma validPhase_includes (flightPhase : string) :
  validPhase flightPhase <> None <->
  In flightPhase ["takeoff"; "cruise"; "landing"]%string.
Proof.
  unfold validPhase. cbn [In].
  destruct (String.eqb_spec flightPhase "takeoff") as [-> | H1];
    [split; [auto | discriminate] |].
  destruct (String.eqb_spec flightPhase "cruise") as [-> | H2];
    [split; [auto | discriminate] |].
  destruct (String.eqb_spec flightPhase "landing") as [-> | H3];
    [split; [auto | discriminate] |].
  split; [congruence |]. intros [Hc | [Hc | [Hc | []]]]; congruence.
Qed.

Lemma generateTrajectory_eq (fuel : nat) (now : Z) (phaseName : string)
    (d i : R) :
  phaseName <> EmptyString ->
  generateTrajectory fuel now (trajectoryArgs phaseName d i)
  = match validPhase phaseName with
    | None => Raised InvalidFlightPhase
    | Some phase =>
      if Rleb d 0 || Rleb i 0 then Raised NonPositiveDuration
      else match trajectoryLoop fuel phase d i (IZR now) 0 with
           | Some trajectory => Done trajectory
           | None => Unfinished
           end
    end.
Proof.
  intros Hne. unfold generateTrajectory, trajectoryArgs.
  cbn [flightPhase duration interval].
  rewrite (truthyString_nonempty Hne). reflexivity.
Qed.

(** X17.  The checks of [generateTrajectory], in their order: a phase
    outside [validPhases] is rejected whatever the duration and interval
    are, and for a valid phase a duration or interval that is not positive
    is rejected. *)
Theorem generateTrajectory_rejects (fuel : nat) (now : Z) (flightPhase : string)
    (duration interval : R) :
  flightPhase <> EmptyString ->
  (~ In flightPhase ["takeoff"; "cruise"; "landing"]%string ->
   generateTrajectory fuel now (trajectoryArgs flightPhase duration interval)
   = Raised InvalidFlightPhase) /\
  (In flightPhase ["takeoff"; "cruise"; "landing"]%string ->
   (generateTrajectory fuel now (trajectoryArgs flightPhase duration interval)
    = Raised NonPositiveDuration
    <-> duration <= 0 \/ interval <= 0)).
Proof.
  intros Hne. rewrite (generateTrajectory_eq fuel now flightPhase duration interval Hne).
  rewrite <- validPhase_includes.
  destruct (validPhase flightPhase) as [phase |].
  - split; [intros Hc; exfalso; apply Hc; discriminate |]. intros _.
    destruct (Rleb duration 0 || Rleb interval 0) eqn:Hguard.
    + apply orb_true_iff in Hguard. rewrite !Rleb_true in Hguard. tauto.
    + apply orb_false_iff in Hguard. rewrite !Rleb_false in Hguard.
      split; [| lra].
      destruct (trajectoryLoop fuel phase duration interval (IZR now) 0);
        discriminate.
  - split; [reflexivity |]. intros Hc. now elim Hc.
Qed.

Lemma generateTrajectory_rejects_witness :
  "hover"%string <> EmptyString /\
  ~ In "hover"%string ["takeoff"; "cruise"; "landing"]%string /\
  generateTrajectory 0 0 (trajectoryArgs "hover" (-1) 0)
  = Raised InvalidFlightPhase.
Proof.
  assert (Hne : "hover"%string <> EmptyString) by discriminate.
  assert (Hout : ~ In "hover"%string ["takeoff"; "cruise"; "landing"]%string).
  { intros [Hc | [Hc | [Hc | []]]]; discriminate. }
  split; [exact Hne | split; [exact Hout |]].
  exact (proj1 (generateTrajectory_rejects 0 0 "hover" (-1) 0 Hne) Hout).
Defined.

(** The number of samples: the least [n] with [duration <= n * interval]. *)
Lemma sample_count (duration interval : R) :
  0 < duration -> 0 < interval ->
  exists n : nat,
    (0 < n)%nat /\ (INR n - 1) * interval < duration <= INR n * interval.
Proof.
  intros Hd Hi.
  set (q := duration / interval).
  assert (Hq : duration = q * interval) by (unfold q; field; lra).
  assert (Hqpos : 0 < q) by (unfold q; apply Rdiv_lt_0_compat; lra).
  destruct (base_Int_part (- q)) as [Hlo Hhi].
  set (z := (- Int_part (- q))%Z).
  assert (Hz : IZR z - 1 < q <= IZR z).
  { unfold z. rewrite opp_IZR. lra. }
  assert (Hzpos : (0 < z)%Z) by (apply lt_IZR; lra).
  exists (Z.to_nat z).
  rewrite INR_IZR_INZ, Z2Nat.id by lia.
  split; [lia |]. rewrite Hq. split; nra.
Qed.

Lemma trajectoryLoop_samples (phase : FlightPhase) (duration interval start : R)
    (n : nat) :
  0 < interval ->
  (INR n - 1) * interval < duration <= INR n * interval ->
  forall (m k fuel : nat),
    (k + m = n)%nat ->
    trajectoryLoop fuel phase duration interval start (INR k * interval)
    = if (m <=? fuel)%nat
      then Some (map (trajectoryPoint phase duration start)
                     (map (fun j => INR j * interval) (seq k m)))
      else None.
Proof.
  intros Hi [Hlo Hhi]. induction m as [| m IH]; intros k fuel Hsum.
  - assert (Hk : k = n) by lia. subst k.
    assert (Hstop : Rltb (INR n * interval) duration = false)
      by (apply Rltb_false; lra).
    destruct fuel; cbn [trajectoryLoop ltb RNumber]; rewrite Hstop; reflexivity.
  - assert (Hk : INR k <= INR n - 1).
    { assert (Hle : (k + 1 <= n)%nat) by lia.
      apply le_INR in Hle. rewrite plus_INR in Hle. cbn [INR] in Hle. lra. }
    assert (Hgo : Rltb (INR k * interval) duration = true)
      by (apply Rltb_true; nra).
    destruct fuel as [| fuel].
    + cbn [trajectoryLoop ltb RNumber]. rewrite Hgo. reflexivity.
    + cbn [trajectoryLoop ltb RNumber add]. rewrite Hgo.
      replace (INR k * interval + interval) with (INR (S k) * interval)
        by (rewrite S_INR; ring).
      rewrite (IH (S k) fuel) by lia.
      change (S m <=? S fuel)%nat with (m <=? fuel)%nat.
      destruct (m <=? fuel)%nat; reflexivity.
Qed.

(** The run of the loop for a given number of samples. *)
Lemma generateTrajectory_run (now : Z) (phaseName : string)
    (phase : FlightPhase) (d i : R) (n fuel : nat) :
  validPhase phaseName = Some phase ->
  0 < d -> 0 < i ->
  (INR n - 1) * i < d <= INR n * i ->
  generateTrajectory fuel now (trajectoryArgs phaseName d i)
  = if (n <=? fuel)%nat
    then Done (map (trajectoryPoint phase d (IZR now)) (sampleTimes n i))
    else Unfinished.
Proof.
  intros Hphase Hd Hi Hbounds.
  assert (Hne : phaseName <> EmptyString).
  { intros ->. discriminate. }
  rewrite (generateTrajectory_eq fuel now phaseName d i Hne), Hphase.
  rewrite (proj2 (Rleb_false d 0) Hd), (proj2 (Rleb_false i 0) Hi).
  cbn [orb].
  replace 0 with (INR 0 * i) at 1 by (cbn [INR]; ring).
  rewrite (trajectoryLoop_samples phase d i (IZR now) n Hi Hbounds n 0 fuel)
    by reflexivity.
  unfold sampleTimes. destruct (n <=? fuel)%nat; reflexivity.
Qed.

(** The loop runs its body at the values of [t], in their order. *)
Lemma trajectoryLoop_times {num : Type} `{MathLib num} (phase : FlightPhase)
    (d i start : num) (fuel : nat) :
  forall t : num,
    trajectoryLoop fuel phase d i start t
    = match loopTimes fuel d i t with
      | Some times => Some (map (trajectoryPoint phase d start) times)
      | None => None
      end.
Proof.
  induction fuel as [| fuel IH]; intros t; cbn [trajectoryLoop loopTimes];
    destruct (ltb t d); try reflexivity.
  rewrite IH. destruct (loopTimes fuel d i (add t i)); reflexivity.
Qed.

(** The values of [t] in exact arithmetic. *)
Lemma loopTimes_R (duration interval : R) (n : nat) :
  0 < interval ->
  (INR n - 1) * interval < duration <= INR n * interval ->
  forall (m k fuel : nat),
    (k + m = n)%nat ->
    loopTimes fuel duration interval (INR k * interval)
    = if (m <=? fuel)%nat
      then Some (map (fun j => INR j * interval) (seq k m))
      else None.
Proof.
  intros Hi [Hlo Hhi]. induction m as [| m IH]; intros k fuel Hsum.
  - assert (Hk : k = n) by lia. subst k.
    assert (Hstop : Rltb (INR n * interval) duration = false)
      by (apply Rltb_false; lra).
    destruct fuel; cbn [loopTimes ltb RNumber]; rewrite Hstop; reflexivity.
  - assert (Hk : INR k <= INR n - 1).
    { assert (Hle : (k + 1 <= n)%nat) by lia.
      apply le_INR in Hle. rewrite plus_INR in Hle. cbn [INR] in Hle. lra. }
    assert (Hgo : Rltb (INR k * interval) duration = true)
      by (apply Rltb_true; nra).
    destruct fuel as [| fuel].
    + cbn [loopTimes ltb RNumber]. rewrite Hgo. reflexivity.
    + cbn [loopTimes ltb RNumber add]. rewrite Hgo.
      replace (INR k * interval + interval) with (INR (S k) * interval)
        by (rewrite S_INR; ring).
      rewrite (IH (S k) fuel) by lia.
      change (S m <=? S fuel)%nat with (m <=? fuel)%nat.
      destruct (m <=? fuel)%nat; reflexivity.
Qed.

(** X18.  For a valid phase and a duration and an interval that pass the
    check, in any arithmetic: the trajectory is the loop body at the values
    that [t] takes, 0 and then the running sums [t + interval] as the
    arithmetic computes them, as long as they are below the duration.  In
    exact arithmetic a duration of 1 and an interval of 1 / 10 give the ten
    times 0, 1/10, ..., 9/10; in binary64 the running sums are rounded and
    the same call returns eleven points, the last at
    0.9999999999999999. *)
Theorem generateTrajectory_samples :
  (forall (num : Type) (N : Number num) (engine : MathLib num)
          (fuel : nat) (now : Z) (flightPhase : string) (phase : FlightPhase)
          (duration interval : num),
      validPhase flightPhase = Some phase ->
      leb duration (lit 0) || leb interval (lit 0) = false ->
      generateTrajectory fuel now (trajectoryArgs flightPhase duration interval)
      = match loopTimes fuel duration interval (lit 0) with
        | Some times =>
            Done (map (trajectoryPoint phase duration (lit now)) times)
        | None => Unfinished
        end) /\
  loopTimes (num := R) 10 (lit 1) (dec 1 1) (lit 0)
  = Some (sampleTimes 10 (1 / 10)) /\
  loopTimes (num := float) 11 (lit 1) (dec 1 1) (lit 0)
  = Some [0; 0.1; 0.2; 0.30000000000000004; 0.4; 0.5; 0.6; 0.7;
          0.7999999999999999; 0.8999999999999999; 0.9999999999999999]%float.
Proof.
  split; [| split].
  - intros num N engine fuel now phaseName phase d i Hphase Hcheck.
    assert (Hne : phaseName <> EmptyString).
    { intros ->. discriminate. }
    unfold generateTrajectory, trajectoryArgs.
    cbn [flightPhase duration interval].
    rewrite (truthyString_nonempty Hne), Hphase, Hcheck.
    rewrite trajectoryLoop_times.
    destruct (loopTimes fuel d i (lit 0)); reflexivity.
  - change (dec 1 1 : R) with (1 / 10). change (lit 1 : R) with 1.
    change (lit 0 : R) with 0.
    replace 0 with (INR 0 * (1 / 10)) at 1 by (cbn [INR]; ring).
    rewrite (loopTimes_R 1 (1 / 10) 10) with (m := 10%nat);
      [reflexivity | lra | | reflexivity].
    rewrite (INR_lit 10 10) by reflexivity. lra.
  - vm_compute. reflexivity.
Qed.

Lemma generateTrajectory_samples_witness :
  validPhase "cruise" = Some Cruise /\
  leb (60 : R) (lit 0) || leb (10 : R) (lit 0) = false /\
  generateTrajectory 6 0 (trajectoryArgs "cruise" 60 10)
  = match loopTimes 6 60 10 (lit 0) with
    | Some times => Done (map (trajectoryPoint Cruise 60 (lit 0)) times)
    | None => Unfinished
    end.
Proof.
  assert (Hcheck : leb (60 : R) (lit 0) || leb (10 : R) (lit 0) = false).
  { cbn [leb lit RNumber].
    rewrite (proj2 (Rleb_false 60 0)), (proj2 (Rleb_false 10 0)) by lra.
    reflexivity. }
  split; [reflexivity | split; [exact Hcheck |]].
  exact (proj1 generateTrajectory_samples R RNumber RMath 6%nat 0%Z "cruise"%string
           Cruise 60 10 eq_refl Hcheck).
Defined.

(** What a returned trajectory is. *)
Lemma generateTrajectory_done (fuel : nat) (now : Z) (phaseName : string)
    (d i : R) (trajectory : list (TrajectoryPoint R)) :
  generateTrajectory fuel now (trajectoryArgs phaseName d i) = Done trajectory ->
  exists (phase : FlightPhase) (n : nat),
    validPhase phaseName = Some phase /\ 0 < d /\ 0 < i /\ (0 < n)%nat /\
    (INR n - 1) * i < d <= INR n * i /\
    trajectory = map (trajectoryPoint phase d (IZR now)) (sampleTimes n i).
Proof.
  intros Hdone.
  assert (Hne : phaseName <> EmptyString).
  { intros ->. discriminate. }
  pose proof Hdone as Hrun.
  rewrite (generateTrajectory_eq fuel now phaseName d i Hne) in Hrun.
  destruct (validPhase phaseName) as [phase |] eqn:Hphase; [| discriminate].
  destruct (Rleb d 0 || Rleb i 0) eqn:Hguard; [discriminate |].
  apply orb_false_iff in Hguard. rewrite !Rleb_false in Hguard.
  destruct Hguard as [Hd Hi]. clear Hrun.
  destruct (sample_count d i Hd Hi) as [n [Hn Hbounds]].
  rewrite (generateTrajectory_run now phaseName phase d i n fuel
             Hphase Hd Hi Hbounds) in Hdone.
  destruct (n <=? fuel)%nat; [| discriminate].
  injection Hdone as <-.
  exists phase, n. auto 10.
Qed.

Lemma sampleTimes_nth (n : nat) (i : R) (k : nat) (t : R) :
  nth_error (sampleTimes n i) k = Some t -> (k < n)%nat /\ t = INR k * i.
Proof.
  unfold sampleTimes. intros Hnth.
  rewrite nth_error_map, nth_error_seq in Hnth.
  destruct (k <? n)%nat eqn:Hlt; [| discriminate].
  apply Nat.ltb_lt in Hlt.
  cbn in Hnth. injection Hnth as <-. auto.
Qed.

Lemma trajectory_nth (phase : FlightPhase) (d start i : R) (n k : nat)
    (pt : TrajectoryPoint R) :
  nth_error (map (trajectoryPoint phase d start) (sampleTimes n i)) k = Some pt ->
  (k < n)%nat /\ pt = trajectoryPoint phase d start (INR k * i).
Proof.
  rewrite nth_error_map.
  destruct (nth_error (sampleTimes n i) k) as [t |] eqn:Hnth; [| discriminate].
  cbn. intros Hpt. injection Hpt as <-.
  apply sampleTimes_nth in Hnth. destruct Hnth as [Hk ->]. auto.
Qed.

Lemma sample_in_range (d i : R) (n k : nat) :
  0 < i -> (INR n - 1) * i < d -> (k < n)%nat ->
  0 <= INR k * i < d.
Proof.
  intros Hi Hlo Hk.
  assert (Hk0 : 0 <= INR k) by apply pos_INR.
  assert (Hk1 : INR k <= INR n - 1).
  { assert (Hle : (k + 1 <= n)%nat) by lia.
    apply le_INR in Hle. rewrite plus_INR in Hle. cbn [INR] in Hle. lra. }
  split; nra.
Qed.

Lemma fraction_in_unit (t d : R) : 0 < d -> 0 <= t < d -> 0 <= t / d < 1.
Proof.
  intros Hd [Ht0 Ht1]. split.
  - apply Rmult_le_pos; [lra | left; apply Rinv_0_lt_compat; lra].
  - apply Rmult_lt_reg_r with d; [lra |].
    unfold Rdiv. rewrite Rmult_assoc, Rinv_l by lra. lra.
Qed.

(** X19.  Every point of a returned trajectory stays in the flight
    envelope: altitude between 0 and 10000 m, latitude 39.9093, longitude
    in [116.3974, 116.4974), roll within 2 degrees, pitch in (-3, 15],
    yaw 0. *)
Theorem generateTrajectory_envelope (fuel : nat) (now : Z) (phaseName : string)
    (d i : R) (trajectory : list (TrajectoryPoint R)) (pt : TrajectoryPoint R) :
  generateTrajectory fuel now (trajectoryArgs phaseName d i) = Done trajectory ->
  In pt trajectory ->
  0 <= altitude (pt_position pt) <= 10000 /\
  latitude (pt_position pt) = 399093 / 10000 /\
  1163974 / 10000 <= longitude (pt_position pt) < 1163974 / 10000 + 1 / 10 /\
  Rabs (roll (pt_attitude pt)) <= 2 /\
  - 3 < pitch (pt_attitude pt) <= 15 /\
  yaw (pt_attitude pt) = 0.
Proof.
  intros Hdone Hin.
  destruct (generateTrajectory_done fuel now phaseName d i trajectory Hdone)
    as [phase [n [_ [Hd [Hi [_ [[Hlo _] ->]]]]]]].
  apply In_nth_error in Hin. destruct Hin as [k Hnth].
  apply trajectory_nth in Hnth. destruct Hnth as [Hk ->].
  pose proof (sample_in_range d i n k Hi Hlo Hk) as Ht.
  pose proof (fraction_in_unit (INR k * i) d Hd Ht) as [Hr0 Hr1].
  set (r := INR k * i / d) in *.
  destruct phase; unfold trajectoryPoint;
    change (dec 1163974 4) with (1163974 / 10000);
    change (dec 399093 4) with (399093 / 10000);
    change (dec 1 1) with (1 / 10);
    cbn [pt_position pt_attitude altitude latitude longitude roll pitch yaw
         lit add sub mul div RNumber Math_sin RMath];
    fold r.
  - repeat split; try lra; try nra. rewrite Rabs_R0. lra.
  - repeat split; try lra; try nra.
    rewrite Rabs_mult, (Rabs_pos_eq 2) by lra.
    pose proof (SIN_bound (INR k * i / 10)) as Hs.
    assert (Rabs (sin (INR k * i / 10)) <= 1) by (apply Rabs_le; lra). lra.
  - repeat split; try lra; try nra. rewrite Rabs_R0. lra.
Qed.

Lemma cruise_run :
  generateTrajectory 6 0 (trajectoryArgs "cruise" 60 10)
  = Done (map (trajectoryPoint Cruise 60 0) (sampleTimes 6 10)).
Proof.
  assert (Hd : 0 < 60) by lra. assert (Hi : 0 < 10) by lra.
  assert (Hbounds : (INR 6 - 1) * 10 < 60 <= INR 6 * 10).
  { rewrite (INR_lit 6 6 eq_refl). lra. }
  exact (generateTrajectory_run 0 "cruise" Cruise 60 10 6 6 eq_refl Hd Hi Hbounds).
Qed.

Lemma generateTrajectory_envelope_witness :
  let trajectory := map (trajectoryPoint Cruise 60 0) (sampleTimes 6 10) in
  let pt := trajectoryPoint Cruise 60 0 (INR 1 * 10) in
  generateTrajectory 6 0 (trajectoryArgs "cruise" 60 10) = Done trajectory /\
  In pt trajectory /\
  0 <= altitude (pt_position pt) <= 10000 /\
  latitude (pt_position pt) = 399093 / 10000 /\
  1163974 / 10000 <= longitude (pt_position pt) < 1163974 / 10000 + 1 / 10 /\
  Rabs (roll (pt_attitude pt)) <= 2 /\
  - 3 < pitch (pt_attitude pt) <= 15 /\
  yaw (pt_attitude pt) = 0.
Proof.
  intros trajectory pt.
  assert (Hin : In pt trajectory) by (right; left; reflexivity).
  split; [exact cruise_run | split; [exact Hin |]].
  exact (generateTrajectory_envelope 6 0 "cruise" 60 10 trajectory pt
           cruise_run Hin).
Defined.

(** ** Order along the trajectory *)

Lemma timeClip_R (v : R) : timeClip v = Rtrunc v.
Proof.
  unfold timeClip. cbn [sub fmod lit RNumber RMath]. unfold Rfmod.
  replace (v / 1) with v by field. ring.
Qed.

Lemma Int_part_nonneg (x : R) : 0 <= x -> (0 <= Int_part x)%Z.
Proof.
  intros Hx. destruct (base_Int_part x) as [_ Hhi].
  assert (Hlt : IZR (-1) < IZR (Int_part x)) by lra.
  apply lt_IZR in Hlt. lia.
Qed.

Lemma Int_part_le (x y : R) : x <= y -> (Int_part x <= Int_part y)%Z.
Proof.
  intros Hxy. destruct (base_Int_part x) as [Hx _].
  destruct (base_Int_part y) as [_ Hy].
  assert (Hlt : IZR (Int_part x) < IZR (Int_part y + 1))
    by (rewrite plus_IZR; lra).
  apply lt_IZR in Hlt. lia.
Qed.

Lemma Rtrunc_le (a b : R) : a <= b -> Rtrunc a <= Rtrunc b.
Proof.
  intros Hab. unfold Rtrunc.
  destruct (Rle_dec 0 a) as [Ha | Ha], (Rle_dec 0 b) as [Hb | Hb]; try lra.
  - apply IZR_le, Int_part_le, Hab.
  - assert (H1 : (0 <= Int_part (- a))%Z) by (apply Int_part_nonneg; lra).
    assert (H2 : (0 <= Int_part b)%Z) by (apply Int_part_nonneg; lra).
    apply IZR_le in H1, H2. lra.
  - assert (H1 : (Int_part (- b) <= Int_part (- a))%Z)
      by (apply Int_part_le; lra).
    apply IZR_le in H1. lra.
Qed.

Lemma Rtrunc_IZR (z : Z) : Rtrunc (IZR z) = IZR z.
Proof.
  unfold Rtrunc. destruct (Rle_dec 0 (IZR z)).
  - rewrite (Int_part_unit (IZR z) z) by lra. reflexivity.
  - rewrite <- (opp_IZR z), (Int_part_unit (IZR (- z)) (- z)) by lra.
    rewrite opp_IZR. ring.
Qed.

Lemma sample_order (i : R) (j k : nat) :
  0 < i -> (j < k)%nat -> INR j * i < INR k * i.
Proof.
  intros Hi Hjk. apply lt_INR in Hjk. nra.
Qed.

Lemma fraction_order (s t d : R) : 0 < d -> s < t -> s / d < t / d.
Proof.
  intros Hd Hst. unfold Rdiv.
  apply Rmult_lt_compat_r; [apply Rinv_0_lt_compat; lra | exact Hst].
Qed.

(** X20.  Along a returned trajectory the profile of the phase is strictly
    monotone: in takeoff the altitude rises and the pitch falls, in cruise
    the longitude grows at constant altitude, in landing the altitude and
    the pitch fall. *)
Theorem generateTrajectory_profile (fuel : nat) (now : Z) (phaseName : string)
    (d i : R) (trajectory : list (TrajectoryPoint R))
    (j k : nat) (p q : TrajectoryPoint R) :
  generateTrajectory fuel now (trajectoryArgs phaseName d i) = Done trajectory ->
  nth_error trajectory j = Some p ->
  nth_error trajectory k = Some q ->
  (j < k)%nat ->
  (phaseName = "takeoff"%string ->
   altitude (pt_position p) < altitude (pt_position q) /\
   pitch (pt_attitude q) < pitch (pt_attitude p)) /\
  (phaseName = "cruise"%string ->
   longitude (pt_position p) < longitude (pt_position q) /\
   altitude (pt_position p) = altitude (pt_position q)) /\
  (phaseName = "landing"%string ->
   altitude (pt_position q) < altitude (pt_position p) /\
   pitch (pt_attitude q) < pitch (pt_attitude p)).
Proof.
  intros Hdone Hp Hq Hjk.
  destruct (generateTrajectory_done fuel now phaseName d i trajectory Hdone)
    as [phase [n [Hphase [Hd [Hi [_ [_ ->]]]]]]].
  apply trajectory_nth in Hp, Hq.
  destruct Hp as [_ ->], Hq as [_ ->].
  pose proof (fraction_order (INR j * i) (INR k * i) d Hd
                (sample_order i j k Hi Hjk)) as Hr.
  set (r := INR j * i / d) in *. set (r' := INR k * i / d) in *.
  split; [| split]; intros ->; injection Hphase as <-;
    unfold trajectoryPoint;
    cbn [pt_position pt_attitude altitude latitude longitude roll pitch yaw
         lit add sub mul div RNumber];
    fold r r'; try change (dec 1 1) with (1 / 10); split; lra.
Qed.

Lemma generateTrajectory_profile_witness :
  let trajectory := map (trajectoryPoint Cruise 60 0) (sampleTimes 6 10) in
  let p := trajectoryPoint Cruise 60 0 (INR 0 * 10) in
  let q := trajectoryPoint Cruise 60 0 (INR 1 * 10) in
  generateTrajectory 6 0 (trajectoryArgs "cruise" 60 10) = Done trajectory /\
  nth_error trajectory 0 = Some p /\
  nth_error trajectory 1 = Some q /\
  longitude (pt_position p) < longitude (pt_position q) /\
  altitude (pt_position p) = altitude (pt_position q).
Proof.
  intros trajectory p q.
  split; [exact cruise_run | split; [reflexivity | split; [reflexivity |]]].
  exact (proj1 (proj2 (generateTrajectory_profile 6 0 "cruise" 60 10 trajectory
                         0 1 p q cruise_run eq_refl eq_refl (Nat.lt_0_succ 0)))
               eq_refl).
Defined.

(** X21.  A returned trajectory is not empty; its first point carries the
    reading of the clock as its time stamp, and the time stamps, which are
    whole numbers of milliseconds, never decrease along the trajectory. *)
Theorem generateTrajectory_timestamps (fuel : nat) (now : Z)
    (phaseName : string) (d i : R) (trajectory : list (TrajectoryPoint R)) :
  generateTrajectory fuel now (trajectoryArgs phaseName d i) = Done trajectory ->
  (exists first rest, trajectory = first :: rest /\
                      pt_timestamp first = IZR now) /\
  (forall pt, In pt trajectory -> exists ms : Z, pt_timestamp pt = IZR ms) /\
  (forall j k p q,
     nth_error trajectory j = Some p -> nth_error trajectory k = Some q ->
     (j <= k)%nat -> pt_timestamp p <= pt_timestamp q).
Proof.
  intros Hdone.
  destruct (generateTrajectory_done fuel now phaseName d i trajectory Hdone)
    as [phase [n [_ [Hd [Hi [Hn [_ ->]]]]]]].
  assert (Hstamp : forall t, pt_timestamp (trajectoryPoint phase d (IZR now) t)
                             = Rtrunc (IZR now + t * 1000)).
  { intros t. destruct phase; cbn [trajectoryPoint pt_timestamp];
      rewrite timeClip_R; reflexivity. }
  split; [| split].
  - destruct n as [| n]; [lia |].
    unfold sampleTimes. cbn [seq map].
    eexists; eexists. split; [reflexivity |].
    rewrite Hstamp. cbn [INR].
    replace (IZR now + 0 * i * 1000) with (IZR now) by ring.
    apply Rtrunc_IZR.
  - intros pt Hin. apply in_map_iff in Hin. destruct Hin as [t [<- _]].
    rewrite Hstamp. unfold Rtrunc.
    destruct (Rle_dec 0 (IZR now + t * 1000)).
    + eexists. reflexivity.
    + eexists. rewrite <- opp_IZR. reflexivity.
  - intros j k p q Hp Hq Hjk.
    apply trajectory_nth in Hp, Hq.
    destruct Hp as [_ ->], Hq as [_ ->].
    rewrite !Hstamp. apply Rtrunc_le.
    apply le_INR in Hjk. nra.
Qed.

Lemma generateTrajectory_timestamps_witness :
  let trajectory := map (trajectoryPoint Cruise 60 0) (sampleTimes 6 10) in
  generateTrajectory 6 0 (trajectoryArgs "cruise" 60 10) = Done trajectory /\
  exists first rest, trajectory = first :: rest /\ pt_timestamp first = 0.
Proof.
  intros trajectory.
  split; [exact cruise_run |].
  exact (proj1 (generateTrajectory_timestamps 6 0 "cruise" 60 10 trajectory
                  cruise_run)).
Defined.

(** ** rinexParser *)

(** *** [trim] *)

Lemma trimEnd_blank (s : string) : blank s = true -> trimEnd s = EmptyString.
Proof.
  induction s as [| c s IH]; [reflexivity |]. cbn [blank trimEnd].
  intros Hb. apply andb_true_iff in Hb. destruct Hb as [Hc Hs].
  rewrite (IH Hs), Hc. reflexivity.
Qed.

Lemma trimEnd_nonblank (s : string) : blank s = false -> trimEnd s <> EmptyString.
Proof.
  induction s as [| c s IH]; [discriminate |]. cbn [blank trimEnd].
  intros Hb. destruct (trimEnd s) as [| d t] eqn:Ht; [| discriminate].
  destruct (isWhiteSpace c); [| discriminate].
  cbn [andb] in Hb. elim (IH Hb). reflexivity.
Qed.

Lemma blank_trimStart (s : string) : blank (trimStart s) = blank s.
Proof.
  induction s as [| c s IH]; [reflexivity |]. cbn [trimStart].
  destruct (isWhiteSpace c) eqn:Hc; [| reflexivity].
  cbn [blank]. rewrite Hc, IH. reflexivity.
Qed.

Lemma trim_blank (s : string) : String.eqb (trim s) EmptyString = blank s.
Proof.
  unfold trim. destruct (blank s) eqn:Hb.
  - rewrite trimEnd_blank by (rewrite blank_trimStart; exact Hb). reflexivity.
  - apply String.eqb_neq, trimEnd_nonblank. rewrite blank_trimStart. exact Hb.
Qed.

Lemma trimStart_length (s : string) : (String.length (trimStart s) <= String.length s)%nat.
Proof.
  induction s as [| c s IH]; [apply Nat.le_refl |]. cbn [trimStart].
  destruct (isWhiteSpace c); cbn [String.length]; lia.
Qed.

Lemma trimEnd_length (s : string) : (String.length (trimEnd s) <= String.length s)%nat.
Proof.
  induction s as [| c s IH]; [apply Nat.le_refl |]. cbn [trimEnd].
  destruct (trimEnd s) as [| d t].
  - destruct (isWhiteSpace c); cbn [String.length]; lia.
  - cbn [String.length] in *. lia.
Qed.

Lemma trim_length (s : string) : (String.length (trim s) <= String.length s)%nat.
Proof.
  unfold trim. pose proof (trimEnd_length (trimStart s)).
  pose proof (trimStart_length s). lia.
Qed.

Lemma substring_length (n m : nat) (s : string) :
  (String.length (substring n m s) <= m)%nat.
Proof.
  revert n m. induction s as [| c s IH]; intros n m.
  - destruct n, m; cbn; lia.
  - destruct n as [| n].
    + destruct m as [| m]; cbn [substring String.length]; [lia |].
      pose proof (IH 0%nat m). lia.
    + cbn [substring]. apply IH.
Qed.

Lemma trimEnd_idempotent (s : string) : trimEnd (trimEnd s) = trimEnd s.
Proof.
  induction s as [| c s IH]; [reflexivity |]. cbn [trimEnd].
  destruct (trimEnd s) as [| d t] eqn:Ht.
  - destruct (isWhiteSpace c) eqn:Hc; [reflexivity |].
    cbn [trimEnd]. rewrite Hc. reflexivity.
  - cbn [trimEnd] in *. rewrite IH. reflexivity.
Qed.

Lemma trimStart_trim (s : string) : trimStart (trim s) = trim s.
Proof.
  unfold trim. induction s as [| c s IH]; [reflexivity |]. cbn [trimStart].
  destruct (isWhiteSpace c) eqn:Hc; [exact IH |].
  cbn [trimEnd]. destruct (trimEnd s); rewrite ?Hc; cbn [trimStart]; rewrite Hc;
    reflexivity.
Qed.

(** *** [split] *)

Lemma splitLines_plain_char (c : Ascii.ascii) (rest : string) :
  Ascii.eqb c LF = false -> Ascii.eqb c CR = false ->
  splitLines (String c rest)
  = match splitLines rest with
    | line :: lines => String c line :: lines
    | [] => [String c EmptyString]
    end.
Proof.
  intros Hlf Hcr. cbn [splitLines]. rewrite Hlf, Hcr. cbn [andb].
  destruct rest; reflexivity.
Qed.

Lemma splitLines_nonempty (s : string) : splitLines s <> [].
Proof.
  induction s as [| c s IH]; [discriminate |]. cbn [splitLines].
  destruct (Ascii.eqb c LF); [discriminate |].
  destruct s as [| c' s']; [discriminate |].
  destruct (Ascii.eqb c CR && Ascii.eqb c' LF); [discriminate |].
  destruct (splitLines (String c' s')); discriminate.
Qed.

(** *** The loop *)

Section RinexParserFacts.
Context {num : Type}.
Variable parseFloat : string -> num.

Lemma parseLines_app (l1 l2 : list string) (st : ParserState num) :
  parseLines parseFloat (l1 ++ l2) st
  = parseLines parseFloat l2 (parseLines parseFloat l1 st).
Proof. apply fold_left_app. Qed.

Lemma parseRinex_eq (content : string) :
  parseRinex parseFloat (Some content)
  = if blank content then ParseError EmptyRinexContent
    else
      let st := parseLines parseFloat (splitLines content) initialState in
      Parsed {| header := st_header st; parsedSatellites := st_satellites st |}.
Proof.
  unfold parseRinex, truthyString.
  destruct (String.eqb_spec content EmptyString) as [-> | Hne]; [reflexivity |].
  rewrite trim_blank. reflexivity.
Qed.

(** Where the entries of the result come from. *)
Lemma parseLine_satellites (st : ParserState num) (line : string) :
  st_satellites (parseLine parseFloat st line) = st_satellites st \/
  (st_skip st = 0%nat /\ st_inHeader st = false /\
   trim (substring 0 3 line) <> EmptyString /\
   st_satellites (parseLine parseFloat st line)
   = st_satellites st ++ [satelliteData (trim (substring 0 3 line))]).
Proof.
  unfold parseLine. destruct (st_skip st) eqn:Hskip; [| auto].
  destruct (st_inHeader st) eqn:Hin.
  - destruct (includes _ line); [auto |]. destruct (includes _ line); auto.
  - destruct (String.eqb_spec (trim (substring 0 3 line)) EmptyString); auto.
Qed.

Lemma parseLines_satellites (lines : list string) (st : ParserState num)
    (sat : SatelliteEntry num) :
  In sat (st_satellites (parseLines parseFloat lines st)) ->
  In sat (st_satellites st) \/
  exists line, In line lines /\ trim (substring 0 3 line) <> EmptyString /\
               sat = satelliteData (trim (substring 0 3 line)).
Proof.
  revert st. induction lines as [| line lines IH]; intros st Hin; [auto |].
  cbn [parseLines fold_left] in Hin. apply IH in Hin.
  destruct Hin as [Hin | [l [Hl Hsat]]].
  - destruct (parseLine_satellites st line) as [Heq | [_ [_ [Hne Heq]]]];
      rewrite Heq in Hin; [auto |].
    apply in_app_or in Hin. destruct Hin as [Hin | [<- | []]]; [auto |].
    right. exists line. cbn [In]. auto.
  - right. exists l. cbn [In]. auto.
Qed.

(** While the header lasts no entry is added. *)
Lemma parseLines_header (lines : list string) (st : ParserState num) :
  st_inHeader st = true ->
  (forall line, In line lines -> includes "END OF HEADER" line = true ->
                includes "RINEX VERSION / TYPE" line = true) ->
  st_inHeader (parseLines parseFloat lines st) = true /\
  st_satellites (parseLines parseFloat lines st) = st_satellites st /\
  (st_skip (parseLines parseFloat lines st) <= st_skip st)%nat.
Proof.
  revert st. induction lines as [| line lines IH]; intros st Hin Hall.
  - cbn. auto.
  - cbn [parseLines fold_left].
    assert (Hstep : st_inHeader (parseLine parseFloat st line) = true /\
                    st_satellites (parseLine parseFloat st line) = st_satellites st /\
                    (st_skip (parseLine parseFloat st line) <= st_skip st)%nat).
    { unfold parseLine. destruct (st_skip st) eqn:Hskip.
      - rewrite Hin.
        destruct (includes "RINEX VERSION / TYPE" line) eqn:Hv; [cbn; auto |].
        destruct (includes "END OF HEADER" line) eqn:He.
        + rewrite (Hall line (or_introl eq_refl) He) in Hv. discriminate.
        + rewrite Hin, Hskip. auto.
      - cbn. auto. }
    destruct Hstep as [Hin' [Hsats Hskip]].
    destruct (IH (parseLine parseFloat st line) Hin') as [H1 [H2 H3]].
    { intros l Hl. apply Hall. right. exact Hl. }
    fold (parseLines parseFloat lines (parseLine parseFloat st line)).
    split; [exact H1 | split; [congruence | lia]].
Qed.

(** The number of entries that the lines still to come can add. *)
Lemma parseLines_count (lines : list string) (st : ParserState num) :
  (8 * List.length (st_satellites (parseLines parseFloat lines st))
   <= 8 * List.length (st_satellites st)
      + (List.length lines + (if st_inHeader st then 6 else 7) - st_skip st))%nat.
Proof.
  revert st. induction lines as [| line lines IH]; intros st.
  - cbn [parseLines fold_left]. lia.
  - cbn [parseLines fold_left].
    fold (parseLines parseFloat lines (parseLine parseFloat st line)).
    specialize (IH (parseLine parseFloat st line)). revert IH.
    unfold parseLine. destruct (st_skip st) as [| skip] eqn:Hskip.
    + destruct (st_inHeader st) eqn:Hin.
      * destruct (includes "RINEX VERSION / TYPE" line);
          [cbn [st_satellites st_inHeader st_skip List.length]; lia |].
        destruct (includes "END OF HEADER" line);
          [cbn [st_satellites st_inHeader st_skip List.length]; lia |].
        rewrite Hin, Hskip. cbn [List.length]. lia.
      * destruct (String.eqb (trim (substring 0 3 line)) EmptyString).
        -- rewrite Hin, Hskip. cbn [List.length]. lia.
        -- cbn [st_satellites st_inHeader st_skip List.length].
           rewrite length_app. cbn [List.length]. lia.
    + cbn [st_satellites st_inHeader st_skip List.length].
      destruct (st_inHeader st); lia.
Qed.

(** X22.  [parseRinex] throws exactly when the content is absent, empty or
    made of white space only; otherwise it returns. *)
Theorem parseRinex_rejects_blank (rinexContent : option string) :
  (parseRinex parseFloat rinexContent = ParseError EmptyRinexContent <->
   match rinexContent with Some content => blank content = true | None => True end) /\
  ((exists parsed, parseRinex parseFloat rinexContent = Parsed parsed) <->
   exists content, rinexContent = Some content /\ blank content = false).
Proof.
  destruct rinexContent as [content |].
  - rewrite parseRinex_eq. destruct (blank content) eqn:Hb.
    + split; [tauto |]. split.
      * intros [parsed Hp]. discriminate.
      * intros [c [Hc Hbc]]. injection Hc as <-. congruence.
    + split; [split; discriminate |]. split.
      * intros _. exists content. auto.
      * intros _. eexists. reflexivity.
  - cbn. split; [tauto |]. split.
    + intros [parsed Hp]. discriminate.
    + intros [c [Hc _]]. discriminate.
Qed.

(** X23.  Without a line that holds [END OF HEADER] and does not hold
    [RINEX VERSION / TYPE] the header never ends, and no satellite is
    read whatever the lines look like. *)
Theorem parseRinex_header_never_ends (content : string)
    (parsed : ParsedRinex num) :
  (forall line, In line (splitLines content) ->
                includes "END OF HEADER" line = true ->
                includes "RINEX VERSION / TYPE" line = true) ->
  parseRinex parseFloat (Some content) = Parsed parsed ->
  parsedSatellites parsed = [].
Proof.
  intros Hall Hparse. rewrite parseRinex_eq in Hparse.
  destruct (blank content); [discriminate |].
  injection Hparse as <-. cbn [parsedSatellites].
  apply (parseLines_header (splitLines content) initialState eq_refl Hall).
Qed.

(** X24.  Every satellite of the result has an identifier that is the
    trimmed first three characters of a line of the content: it is not
    empty, has at most three characters and no white space at either end;
    and the entry has neither orbital parameters nor time parameters. *)
Theorem parseRinex_identifiers (content : string) (parsed : ParsedRinex num)
    (sat : SatelliteEntry num) :
  parseRinex parseFloat (Some content) = Parsed parsed ->
  In sat (parsedSatellites parsed) ->
  (exists line, In line (splitLines content) /\
                sat_id sat = trim (substring 0 3 line)) /\
  sat_id sat <> EmptyString /\
  (String.length (sat_id sat) <= 3)%nat /\
  trimStart (sat_id sat) = sat_id sat /\
  trimEnd (sat_id sat) = sat_id sat /\
  orbitalParameters sat = None /\
  timeParameters sat = None.
Proof.
  intros Hparse Hin. rewrite parseRinex_eq in Hparse.
  destruct (blank content); [discriminate |].
  injection Hparse as <-. cbn [parsedSatellites] in Hin.
  apply parseLines_satellites in Hin.
  destruct Hin as [[] | [line [Hline [Hne ->]]]].
  cbn [satelliteData sat_id orbitalParameters timeParameters].
  split; [exists line; auto |]. split; [exact Hne |]. split.
  - pose proof (trim_length (substring 0 3 line)).
    pose proof (substring_length 0 3 line). lia.
  - split; [apply trimStart_trim |].
    split; [apply trimEnd_idempotent | auto].
Qed.

(** X25.  A satellite takes eight lines, the last one perhaps fewer, and
    at least one line belongs to the header: with [n] satellites read,
    [8 n <= lines + 6]. *)
Theorem parseRinex_count (content : string) (parsed : ParsedRinex num) :
  parseRinex parseFloat (Some content) = Parsed parsed ->
  (8 * List.length (parsedSatellites parsed)
   <= List.length (splitLines content) + 6)%nat.
Proof.
  intros Hparse. rewrite parseRinex_eq in Hparse.
  destruct (blank content); [discriminate |].
  injection Hparse as <-. cbn [parsedSatellites].
  pose proof (parseLines_count (splitLines content) initialState) as Hc.
  cbn [initialState st_satellites st_inHeader st_skip List.length] in Hc. lia.
Qed.
End RinexParserFacts.

Lemma parseRinex_header_never_ends_witness :
  (forall line, In line (splitLines mixedMarkerContent) ->
                includes "END OF HEADER" line = true ->
                includes "RINEX VERSION / TYPE" line = true) /\
  exists parsed,
    parseRinex noFloat (Some mixedMarkerContent) = Parsed parsed /\
    parsedSatellites parsed = [].
Proof.
  assert (Hall : forall line, In line (splitLines mixedMarkerContent) ->
                   includes "END OF HEADER" line = true ->
                   includes "RINEX VERSION / TYPE" line = true).
  { intros line [<- | [<- | []]]; [reflexivity | discriminate]. }
  split; [exact Hall |].
  eexists. split; [reflexivity |].
  exact (parseRinex_header_never_ends noFloat mixedMarkerContent _ Hall eq_refl).
Defined.

Lemma parseRinex_identifiers_witness :
  exists parsed,
    parseRinex noFloat (Some twoSatellites) = Parsed parsed /\
    In (satelliteData "C0") (parsedSatellites parsed) /\
    (String.length "C0" <= 3)%nat.
Proof.
  eexists. split; [reflexivity |].
  assert (Hin : In (satelliteData (num := R) "C0")
                   [satelliteData "G01"; satelliteData "C0"])
    by (right; left; reflexivity).
  split; [exact Hin |].
  exact (proj1 (proj2 (proj2 (parseRinex_identifiers noFloat twoSatellites _
                                (satelliteData "C0") eq_refl Hin)))).
Defined.

Lemma parseRinex_count_witness :
  exists parsed,
    parseRinex noFloat (Some twoSatellites) = Parsed parsed /\
    (8 * List.length (parsedSatellites parsed)
     <= List.length (splitLines twoSatellites) + 6)%nat.
Proof.
  eexists. split; [reflexivity |].
  exact (parseRinex_count noFloat twoSatellites _ eq_refl).
Defined.

(** *** The parsed file as ephemeris data *)

(** X26.  The satellite calculator, in both revisions, returns no position
    from a file that [parseRinex] has parsed: the identifier of a parsed
    satellite lacks its orbital parameters, any other is not found, and
    the empty one is a missing parameter. *)
Theorem parseRinex_not_propagated {num : Type} `{MathLib num}
    (parseFloat : string -> num) (rinexContent : option string)
    (parsed : ParsedRinex num) (id : string) (t : Date) :
  parseRinex parseFloat rinexContent = Parsed parsed ->
  exists err : Thrown,
    calculateSatellitePosition (satelliteArgs (asRinexData parsed) id t)
    = Throw err /\
    SatelliteCalculatorStub.calculateSatellitePosition
      (satelliteArgs (asRinexData parsed) id t) = Throw err /\
    err = if String.eqb id EmptyString then MissingParameter
          else if existsb (String.eqb id) (map sat_id (parsedSatellites parsed))
               then MissingOrbitalParameters id
               else SatelliteNotFound id.
Proof.
  intros Hparse.
  destruct (String.eqb_spec id EmptyString) as [-> | Hne].
  { exists MissingParameter. auto. }
  rewrite (calculateSatellitePosition_eq (asRinexData parsed) id Hne t),
          (stub_calculateSatellitePosition_eq (asRinexData parsed) id Hne t).
  destruct rinexContent as [content |]; [| discriminate].
  rewrite parseRinex_eq in Hparse.
  destruct (blank content); [discriminate |]. injection Hparse as <-.
  unfold findSatellite, asRinexData. cbn [satellites parsedSatellites].
  set (sats := st_satellites (parseLines parseFloat (splitLines content) initialState)).
  assert (Hnone : forall sat, In sat sats -> orbitalParameters sat = None).
  { intros sat Hin. apply parseLines_satellites in Hin.
    destruct Hin as [[] | [line [_ [_ ->]]]]. reflexivity. }
  destruct (find (fun sat => String.eqb (sat_id sat) id) sats) as [sat |] eqn:Hfind.
  - apply find_some in Hfind. destruct Hfind as [Hin Hid].
    rewrite (Hnone sat Hin). eexists. split; [reflexivity | split; [reflexivity |]].
    replace (existsb (String.eqb id) (map sat_id sats)) with true; [reflexivity |].
    symmetry. apply existsb_exists. exists (sat_id sat).
    split; [apply in_map, Hin | rewrite String.eqb_sym; exact Hid].
  - eexists. split; [reflexivity | split; [reflexivity |]].
    replace (existsb (String.eqb id) (map sat_id sats)) with false; [reflexivity |].
    symmetry. apply not_true_is_false. intros Hex.
    apply existsb_exists in Hex. destruct Hex as [x [Hx Heq]].
    apply in_map_iff in Hx. destruct Hx as [sat [<- Hin]].
    pose proof (find_none _ _ Hfind sat Hin) as Hno. cbn in Hno.
    rewrite String.eqb_sym in Hno. congruence.
Qed.

Lemma parseRinex_not_propagated_witness :
  exists parsed,
    parseRinex noFloat (Some twoSatellites) = Parsed parsed /\
    calculateSatellitePosition (satelliteArgs (asRinexData parsed) "G01" gpsEpoch)
    = Throw (MissingOrbitalParameters "G01").
Proof.
  eexists. split; [reflexivity |].
  destruct (parseRinex_not_propagated noFloat (Some twoSatellites) _ "G01" gpsEpoch
              eq_refl) as [err [Hcalc [_ Herr]]].
  rewrite Hcalc, Herr. reflexivity.
Defined.

(** *** Lines and line ends *)

Lemma splitLines_line (line : string) :
  plainLine line = true -> splitLines line = [line].
Proof.
  induction line as [| c line IH]; [reflexivity |]. cbn [plainLine].
  intros Hp. apply andb_true_iff in Hp. destruct Hp as [Hc Hline].
  apply andb_true_iff in Hc. destruct Hc as [Hlf Hcr].
  apply negb_true_iff in Hlf, Hcr.
  rewrite (splitLines_plain_char c line Hlf Hcr), (IH Hline). reflexivity.
Qed.

Lemma splitLines_eol (eol rest : string) :
  eol = unixEol \/ eol = dosEol ->
  splitLines (eol ++ rest) = EmptyString :: splitLines rest.
Proof. intros [-> | ->]; reflexivity. Qed.

Lemma splitLines_append (eol line rest : string) :
  eol = unixEol \/ eol = dosEol ->
  plainLine line = true ->
  splitLines (line ++ eol ++ rest) = line :: splitLines rest.
Proof.
  intros Heol. induction line as [| c line IH]; intros Hp.
  - apply (splitLines_eol eol rest Heol).
  - cbn [plainLine] in Hp. apply andb_true_iff in Hp. destruct Hp as [Hc Hline].
    apply andb_true_iff in Hc. destruct Hc as [Hlf Hcr].
    apply negb_true_iff in Hlf, Hcr.
    cbn [String.append].
    rewrite (splitLines_plain_char c _ Hlf Hcr), (IH Hline). reflexivity.
Qed.

(** [split] undoes [join]. *)
Lemma splitLines_joinLines (eol : string) (lines : list string) :
  eol = unixEol \/ eol = dosEol ->
  lines <> [] ->
  Forall (fun line => plainLine line = true) lines ->
  splitLines (joinLines eol lines) = lines.
Proof.
  intros Heol Hne Hall. induction Hall as [| line lines Hline Hall IH];
    [congruence |].
  destruct lines as [| line' lines'].
  - cbn [joinLines]. apply splitLines_line, Hline.
  - change (joinLines eol (line :: line' :: lines'))
      with (line ++ eol ++ joinLines eol (line' :: lines'))%string.
    rewrite (splitLines_append eol line _ Heol Hline), IH by discriminate.
    reflexivity.
Qed.

Lemma blank_append (s t : string) : blank (s ++ t) = blank s && blank t.
Proof.
  induction s as [| c s IH]; [reflexivity |].
  cbn [String.append blank]. rewrite IH, andb_assoc. reflexivity.
Qed.

Lemma blank_prefix (p s : string) :
  String.prefix p s = true -> blank s = true -> blank p = true.
Proof.
  revert s. induction p as [| c p IH]; intros s Hpre Hb; [reflexivity |].
  destruct s as [| d s]; [discriminate |]. cbn [String.prefix] in Hpre.
  destruct (Ascii.ascii_dec c d) as [<- | Hcd]; [| discriminate].
  cbn [blank] in *. apply andb_true_iff in Hb. destruct Hb as [Hc Hs].
  rewrite Hc, (IH s Hpre Hs). reflexivity.
Qed.

Lemma blank_includes (p s : string) :
  includes p s = true -> blank s = true -> blank p = true.
Proof.
  induction s as [| c s IH]; cbn [includes]; intros Hinc Hb.
  - rewrite orb_false_r in Hinc. exact (blank_prefix p _ Hinc Hb).
  - apply orb_true_iff in Hinc. destruct Hinc as [Hpre | Hinc].
    + exact (blank_prefix p _ Hpre Hb).
    + cbn [blank] in Hb. apply andb_true_iff in Hb. apply IH; tauto.
Qed.

Lemma blank_joinLines (eol : string) (lines : list string) (line : string) :
  In line lines -> blank line = false -> blank (joinLines eol lines) = false.
Proof.
  intros Hin Hline. induction lines as [| l lines IH]; [elim Hin |].
  destruct lines as [| l' lines'].
  - destruct Hin as [-> | []]. exact Hline.
  - change (joinLines eol (l :: l' :: lines'))
      with (l ++ eol ++ joinLines eol (l' :: lines'))%string.
    rewrite !blank_append. destruct Hin as [-> | Hin].
    + rewrite Hline. reflexivity.
    + rewrite (IH Hin), !andb_false_r. reflexivity.
Qed.

Section RinexRecords.
Context {num : Type}.
Variable parseFloat : string -> num.

(** The lines that [i += 7] jumps over. *)
Lemma parseLines_skip (lines : list string) (st : ParserState num) :
  List.length lines = st_skip st ->
  parseLines parseFloat lines st
  = {| st_inHeader := st_inHeader st; st_header := st_header st;
       st_satellites := st_satellites st; st_skip := 0 |}.
Proof.
  revert st. induction lines as [| line lines IH]; intros st Hlen.
  - cbn [List.length] in Hlen. destruct st. cbn in *. congruence.
  - cbn [List.length] in Hlen. cbn [parseLines fold_left].
    fold (parseLines parseFloat lines (parseLine parseFloat st line)).
    unfold parseLine. rewrite <- Hlen. rewrite IH by (cbn; reflexivity).
    reflexivity.
Qed.

Lemma parseLines_record (r : NavRecord) (st : ParserState num) :
  st_inHeader st = false -> st_skip st = 0%nat ->
  List.length (orbitLines r) = 7%nat -> recordId r <> EmptyString ->
  parseLines parseFloat (recordLines r) st
  = {| st_inHeader := false; st_header := st_header st;
       st_satellites := st_satellites st ++ [satelliteData (recordId r)];
       st_skip := 0 |}.
Proof.
  intros Hin Hskip Hlen Hid. unfold recordLines. cbn [parseLines fold_left].
  fold (parseLines parseFloat (orbitLines r) (parseLine parseFloat st (epochLine r))).
  unfold parseLine. rewrite Hskip, Hin. fold (recordId r).
  apply String.eqb_neq in Hid. rewrite Hid.
  rewrite parseLines_skip by (cbn; exact Hlen). reflexivity.
Qed.

Lemma parseLines_records (records : list NavRecord) (st : ParserState num) :
  st_inHeader st = false -> st_skip st = 0%nat ->
  Forall (fun r => List.length (orbitLines r) = 7%nat /\
                   recordId r <> EmptyString) records ->
  st_satellites (parseLines parseFloat (List.concat (map recordLines records)) st)
  = st_satellites st ++ map (fun r => satelliteData (recordId r)) records.
Proof.
  intros Hin Hskip Hall. revert st Hin Hskip.
  induction Hall as [| r records [Hlen Hid] Hall IH]; intros st Hin Hskip.
  - cbn. rewrite app_nil_r. reflexivity.
  - cbn [map List.concat]. rewrite parseLines_app.
    rewrite (parseLines_record r st Hin Hskip Hlen Hid).
    rewrite IH by reflexivity. cbn [st_satellites].
    rewrite <- app_assoc. reflexivity.
Qed.

(** X27.  A file of header lines, a line that ends the header, and
    records of eight lines each, joined by line feeds or by carriage
    return and line feed, parses to the identifiers of the records, one
    satellite a record, in the order of the file. *)
Theorem parseRinex_records (eol : string) (headerLines : list string)
    (endLine : string) (records : list NavRecord) :
  eol = unixEol \/ eol = dosEol ->
  Forall (fun line => plainLine line = true /\
                      includes "END OF HEADER" line = false) headerLines ->
  plainLine endLine = true ->
  includes "END OF HEADER" endLine = true ->
  includes "RINEX VERSION / TYPE" endLine = false ->
  Forall (fun r => Forall (fun line => plainLine line = true) (recordLines r) /\
                   List.length (orbitLines r) = 7%nat /\
                   recordId r <> EmptyString) records ->
  exists parsed,
    parseRinex parseFloat
      (Some (joinLines eol
               (headerLines ++ endLine :: List.concat (map recordLines records))))
    = Parsed parsed /\
    parsedSatellites parsed = map (fun r => satelliteData (recordId r)) records.
Proof.
  intros Heol Hheader Hplain Hend Hversion Hrecords.
  set (lines := headerLines ++ endLine :: List.concat (map recordLines records)).
  assert (Hlines : Forall (fun line => plainLine line = true) lines).
  { unfold lines. apply Forall_app. split.
    - eapply Forall_impl; [| exact Hheader]. cbn. tauto.
    - constructor; [exact Hplain |].
      clear - Hrecords. induction Hrecords as [| r records [Hr _] _ IH];
        [constructor |].
      cbn [map List.concat]. apply Forall_app. auto. }
  assert (Hne : lines <> []).
  { unfold lines. destruct headerLines; discriminate. }
  assert (Hblank : blank (joinLines eol lines) = false).
  { apply (blank_joinLines eol lines endLine).
    - unfold lines. apply in_or_app. right. left. reflexivity.
    - apply not_true_is_false. intros Hb.
      pose proof (blank_includes _ _ Hend Hb). discriminate. }
  rewrite parseRinex_eq, Hblank, (splitLines_joinLines eol lines Heol Hne Hlines).
  eexists. split; [reflexivity |]. cbn [parsedSatellites].
  unfold lines. rewrite parseLines_app.
  destruct (parseLines_header parseFloat headerLines initialState eq_refl)
    as [Hin [Hsats Hskip]].
  { intros line Hl He. rewrite Forall_forall in Hheader.
    destruct (Hheader line Hl) as [_ Hno]. congruence. }
  set (st := parseLines parseFloat headerLines initialState) in *.
  cbn [initialState st_skip st_satellites] in Hsats, Hskip.
  assert (Hskip0 : st_skip st = 0%nat) by lia.
  cbn [parseLines fold_left].
  fold (parseLines parseFloat (List.concat (map recordLines records))
          (parseLine parseFloat st endLine)).
  assert (Hstep : parseLine parseFloat st endLine
                  = {| st_inHeader := false; st_header := st_header st;
                       st_satellites := st_satellites st; st_skip := 0 |}).
  { unfold parseLine. rewrite Hskip0, Hin, Hversion, Hend. reflexivity. }
  rewrite Hstep, parseLines_records; cbn [st_inHeader st_skip st_satellites];
    try reflexivity.
  - rewrite Hsats. reflexivity.
  - eapply Forall_impl; [| exact Hrecords]. cbn. tauto.
Qed.

(** X28.  The line ends do not matter: a content without carriage returns
    and the same content with a carriage return before every line feed
    parse to the same result. *)
Theorem parseRinex_line_ends (content : string) :
  unixText content = true ->
  parseRinex parseFloat (Some (withCarriageReturns content))
  = parseRinex parseFloat (Some content).
Proof.
  intros Hunix. rewrite !parseRinex_eq.
  assert (Hblank : blank (withCarriageReturns content) = blank content).
  { clear Hunix. induction content as [| c s IH]; [reflexivity |].
    cbn [withCarriageReturns]. destruct (Ascii.eqb_spec c LF) as [-> | Hc].
    - cbn [blank]. rewrite IH. reflexivity.
    - cbn [blank]. rewrite IH. reflexivity. }
  assert (Hsplit : splitLines (withCarriageReturns content) = splitLines content).
  { clear Hblank. induction content as [| c s IH]; [reflexivity |].
    cbn [unixText] in Hunix. apply andb_true_iff in Hunix.
    destruct Hunix as [Hcr Hs]. apply negb_true_iff in Hcr.
    cbn [withCarriageReturns]. destruct (Ascii.eqb c LF) eqn:Hlf.
    - apply Ascii.eqb_eq in Hlf. subst c.
      change (splitLines (String CR (String LF (withCarriageReturns s))))
        with (EmptyString :: splitLines (withCarriageReturns s)).
      change (splitLines (String LF s)) with (EmptyString :: splitLines s).
      rewrite (IH Hs). reflexivity.
    - rewrite !(splitLines_plain_char c _ Hlf Hcr), (IH Hs). reflexivity. }
  rewrite Hblank, Hsplit. reflexivity.
Qed.
End RinexRecords.

Lemma parseRinex_records_witness :
  exists parsed,
    parseRinex noFloat (Some twoSatellites) = Parsed parsed /\
    parsedSatellites parsed = [satelliteData "G01"; satelliteData "C0"].
Proof.
  assert (Hheader : Forall (fun line => plainLine line = true /\
                                        includes "END OF HEADER" line = false)
                           shortHeader).
  { repeat constructor. }
  assert (Hrecords :
            Forall (fun r => Forall (fun line => plainLine line = true)
                                    (recordLines r) /\
                             List.length (orbitLines r) = 7%nat /\
                             recordId r <> EmptyString)
                   [recordG01; recordC02]).
  { repeat constructor; discriminate. }
  exact (parseRinex_records noFloat unixEol shortHeader endOfHeader
           [recordG01; recordC02] (or_introl eq_refl) Hheader eq_refl eq_refl
           eq_refl Hrecords).
Defined.

Lemma parseRinex_line_ends_witness :
  unixText twoSatellites = true /\
  parseRinex noFloat (Some (withCarriageReturns twoSatellites))
  = parseRinex noFloat (Some twoSatellites).
Proof.
  split; [reflexivity |].
  exact (parseRinex_line_ends noFloat twoSatellites eq_refl).
Defined.

(** *** The header *)

Section RinexHeaderFacts.
Context {num : Type}.
Variable parseFloat : string -> num.

Lemma parseLines_header_fields (lines : list string) (st : ParserState num) :
  st_header (parseLines parseFloat lines st) = st_header st \/
  exists line, In line lines /\
               includes "RINEX VERSION / TYPE" line = true /\
               st_header (parseLines parseFloat lines st)
               = {| version := Some (parseFloat (substring 0 9 line));
                    type := Some (substring 20 1 line);
                    system := Some (substring 40 1 line) |}.
Proof.
  revert st. induction lines as [| line lines IH]; intros st; [auto |].
  cbn [parseLines fold_left].
  fold (parseLines parseFloat lines (parseLine parseFloat st line)).
  destruct (IH (parseLine parseFloat st line)) as [Heq | [l [Hl [Hinc Heq]]]].
  - rewrite Heq. unfold parseLine. destruct (st_skip st); [| auto].
    destruct (st_inHeader st).
    + destruct (includes "RINEX VERSION / TYPE" line) eqn:Hinc.
      * right. exists line. cbn [In st_header]. auto.
      * destruct (includes "END OF HEADER" line); auto.
    + destruct (String.eqb (trim (substring 0 3 line)) EmptyString); auto.
  - right. exists l. cbn [In]. auto.
Qed.

(** X29.  The three fields of the header are assigned together: they are
    all absent, or they are the columns 0-8, 20 and 40 of one line of the
    content that holds [RINEX VERSION / TYPE]; type and system have at
    most one character. *)
Theorem parseRinex_header_fields (content : string) (parsed : ParsedRinex num) :
  parseRinex parseFloat (Some content) = Parsed parsed ->
  (version (header parsed) = None /\ type (header parsed) = None /\
   system (header parsed) = None) \/
  exists line ty sys,
    In line (splitLines content) /\
    includes "RINEX VERSION / TYPE" line = true /\
    version (header parsed) = Some (parseFloat (substring 0 9 line)) /\
    type (header parsed) = Some ty /\ ty = substring 20 1 line /\
    system (header parsed) = Some sys /\ sys = substring 40 1 line /\
    (String.length ty <= 1)%nat /\ (String.length sys <= 1)%nat.
Proof.
  intros Hparse. rewrite parseRinex_eq in Hparse.
  destruct (blank content); [discriminate |]. injection Hparse as <-.
  cbn [header].
  destruct (parseLines_header_fields (splitLines content) initialState)
    as [-> | [line [Hl [Hinc ->]]]].
  - left. cbn. auto.
  - right. exists line, (substring 20 1 line), (substring 40 1 line).
    cbn [version type system].
    pose proof (substring_length 20 1 line).
    pose proof (substring_length 40 1 line). auto 10.
Qed.
End RinexHeaderFacts.

Lemma parseRinex_header_fields_witness :
  exists parsed,
    parseRinex noFloat (Some twoSatellites) = Parsed parsed /\
    exists line,
      In line (splitLines twoSatellites) /\
      type (header parsed) = Some (substring 20 1 line) /\
      system (header parsed) = Some (substring 40 1 line).
Proof.
  eexists. split; [reflexivity |].
  destruct (parseRinex_header_fields noFloat twoSatellites _ eq_refl)
    as [[_ [Hty _]] | [line [ty [sys [Hl [_ [_ [Hty [-> [Hsys [-> _]]]]]]]]]]];
    [discriminate Hty |].
  exists line. auto.
Defined.
